(** * videoarea: resolver, progress store, progress aggregation, pages, sign-in

    A shallow embedding of the logic of the course platform:

    - [Resolver]: [getVideoId] of [app/routes/courses.$courseId.videos.$videoId.tsx]
      (the two regular expressions and their first-match-wins order), and
      [Player]: the elements the component of that route builds from it;
    - [ProgressStore]: the [action] of the same route, over the
      [UserVideoProgress] table of [prisma/schema.prisma] with its primary-key,
      unique and foreign-key constraints;
    - [Binary64] and [Dashboard]: the [loader] of the dashboard route, which
      computes the per-course and the overall completion percentage in the
      arithmetic of JavaScript numbers;
    - [Schema] and [Pages]: the catalogue tables, the loaders of the course
      route and of the video route, the component of the video route and the
      query of the dashboard;
    - [Auth]: the sign-in callback and the guards of [utils/auth.server.ts].

    Strings are byte strings ([string], [list ascii]).  The patterns of the
    resolver only contain ASCII characters and character classes, so a
    character outside ASCII never takes part in a match, whatever its
    encoding. *)

From Stdlib Require Import List String Ascii Bool Arith ZArith QArith Lia.
From Stdlib Require Import Floats Uint63.
From Stdlib Require Import Permutation.
From Stdlib Require Import Qround Qpower Qabs Lqa.
Import ListNotations.

Close Scope Q_scope.
Close Scope Z_scope.
Open Scope nat_scope.

(* ================================================================== *)
(** ** Video reference resolver *)
(* ================================================================== *)

Module Resolver.

(** Character classes of JavaScript regular expressions (no flags):
    [\d] is [0-9], [\w] is [A-Za-z0-9_]. *)
Definition is_digit (c : ascii) : bool :=
  let n := nat_of_ascii c in (48 <=? n) && (n <=? 57).

Definition is_word (c : ascii) : bool :=
  let n := nat_of_ascii c in
  is_digit c
  || ((65 <=? n) && (n <=? 90))
  || ((97 <=? n) && (n <=? 122))
  || (n =? 95).

(** The class [[\w-]]. *)
Definition is_id_char (c : ascii) : bool :=
  is_word c || (nat_of_ascii c =? 45).

(** A literal: the remainder of [s] after [p], when [s] starts with [p]. *)
Fixpoint strip_prefix (p s : list ascii) : option (list ascii) :=
  match p, s with
  | [], _ => Some s
  | a :: p', b :: s' => if Ascii.eqb a b then strip_prefix p' s' else None
  | _ :: _, [] => None
  end.

(** [cls{n}]: exactly [n] characters of the class, and the remainder. *)
Fixpoint take_class (cls : ascii -> bool) (n : nat) (s : list ascii)
  : option (list ascii * list ascii) :=
  match n with
  | 0 => Some ([], s)
  | S n' =>
      match s with
      | c :: s' =>
          if cls c then
            match take_class cls n' s' with
            | Some (t, r) => Some (c :: t, r)
            | None => None
            end
          else None
      | [] => None
      end
  end.

(** The characters a greedy [cls*] consumes when nothing follows it. *)
Fixpoint take_while (cls : ascii -> bool) (s : list ascii) : list ascii :=
  match s with
  | c :: s' => if cls c then c :: take_while cls s' else []
  | [] => []
  end.

(** Ordered alternation: the first alternative for which the whole rest of
    the pattern succeeds. *)
Fixpoint first_some {A B : Type} (f : A -> option B) (l : list A) : option B :=
  match l with
  | [] => None
  | a :: l' => match f a with Some b => Some b | None => first_some f l' end
  end.

(** An unanchored pattern is tried at every index from the left; the first
    index where it matches wins. *)
Fixpoint search {A : Type} (pat : list ascii -> option A) (s : list ascii)
  : option A :=
  match pat s with
  | Some r => Some r
  | None => match s with [] => None | _ :: s' => search pat s' end
  end.

(** [(?:youtu\.be\/|youtube\.com\/(?:embed\/|v\/|watch\?v=))] *)
Definition youtube_prefixes : list string :=
  "youtu.be/"%string
    :: map (String.append "youtube.com/") ["embed/"; "v/"; "watch?v="]%string.

(** The YouTube pattern tried at the head of [s]; the result is capture
    group 1, [([\w-]{11})]. *)
Definition youtube_at (s : list ascii) : option (list ascii) :=
  first_some
    (fun p =>
       match strip_prefix (list_ascii_of_string p) s with
       | Some r => option_map fst (take_class is_id_char 11 r)
       | None => None
       end)
    youtube_prefixes.

(** [(?:vimeo\.com\/)(\d+)] tried at the head of [s]. *)
Definition vimeo_at (s : list ascii) : option (list ascii) :=
  match strip_prefix (list_ascii_of_string "vimeo.com/") s with
  | Some r =>
      match take_while is_digit r with
      | [] => None
      | d => Some d
      end
  | None => None
  end.

(** [url.match(/.../)] for the two patterns, giving capture group 1. *)
Definition youtubeMatch (url : string) : option string :=
  option_map string_of_list_ascii (search youtube_at (list_ascii_of_string url)).

Definition vimeoMatch (url : string) : option string :=
  option_map string_of_list_ascii (search vimeo_at (list_ascii_of_string url)).

Inductive provider : Type := youtube | vimeo.

Record VideoInfo : Type := { type : provider; id : string }.

(** [getVideoId]; [None] is the source's [null]. *)
Definition getVideoId (url : string) : option VideoInfo :=
  match youtubeMatch url with
  | Some m => Some {| type := youtube; id := m |}
  | None =>
      match vimeoMatch url with
      | Some m => Some {| type := vimeo; id := m |}
      | None => None
      end
  end.

(** *** The forms of the specification, stated on substrings *)

(** [url] contains [p ++ w] for one of the four YouTube prefixes [p] and
    [w] made of exactly eleven characters of [[A-Za-z0-9_-]]. *)
Definition youtube_form_at (pre w rest : list ascii) (url : string) : Prop :=
  exists p,
    In p youtube_prefixes
    /\ list_ascii_of_string url = pre ++ list_ascii_of_string p ++ w ++ rest
    /\ List.length w = 11
    /\ forallb is_id_char w = true.

Definition contains_youtube_form (url : string) : Prop :=
  exists pre w rest, youtube_form_at pre w rest url.

(** The occurrence that starts first. *)
Definition leftmost_youtube_form (pre w rest : list ascii) (url : string) : Prop :=
  youtube_form_at pre w rest url
  /\ forall pre' w' rest',
       youtube_form_at pre' w' rest' url -> List.length pre <= List.length pre'.

(** [url] contains [vimeo.com/] followed by at least one digit. *)
Definition contains_vimeo_form (url : string) : Prop :=
  exists pre d rest,
    list_ascii_of_string url
    = pre ++ list_ascii_of_string "vimeo.com/" ++ d :: rest
    /\ is_digit d = true.

(** A candidate id segment: the longest run of id characters that follows
    a YouTube prefix somewhere in [url]. *)
Definition id_segment (seg : list ascii) (url : string) : Prop :=
  exists pre p rest,
    In p youtube_prefixes
    /\ list_ascii_of_string url = pre ++ list_ascii_of_string p ++ seg ++ rest
    /\ forallb is_id_char seg = true
    /\ match rest with [] => True | c :: _ => is_id_char c = false end.

Definition is_youtube (r : option VideoInfo) : Prop :=
  exists i, r = Some {| type := youtube; id := i |}.

End Resolver.

(* ================================================================== *)
(** ** Progress store *)
(* ================================================================== *)

Module ProgressStore.

Local Open Scope string_scope.
Local Open Scope list_scope.

(** A row of [user_video_progress] (model [UserVideoProgress]).
    [updatedAt] is a time in milliseconds. *)
Record UserVideoProgress : Type := {
  id : string;
  userId : string;
  videoId : string;
  completed : bool;
  updatedAt : Z
}.

(** The tables the action reads and writes.  Of [users] and [videos] only
    the primary keys matter here: they are what the foreign keys of
    [user_video_progress] refer to. *)
Record Db : Type := {
  users : list string;
  videos : list string;
  userVideoProgress : list UserVideoProgress
}.

(** What a query can be rejected with at the storage boundary. *)
Inductive PrismaError : Type :=
| UniqueConstraintFailed      (* PRIMARY KEY, UNIQUE ("userId", "videoId") *)
| ForeignKeyConstraintFailed  (* FOREIGN KEY ... REFERENCES users / videos *)
| RecordNotFound.             (* update of a row that is not there *)

(** What the runtime supplies to one request: the clock ([now()],
    [@updatedAt]) and the generated primary key ([@default(cuid())]). *)
Record Env : Type := { now : Z; cuid : string }.

Inductive result (A : Type) : Type :=
| Ok (a : A)
| Threw (e : PrismaError).
Arguments Ok {A} a.
Arguments Threw {A} e.

(** Queries run one after the other on the database; a rejected promise
    ends the handler and leaves the database as the queries before it
    made it. *)
Definition M (A : Type) : Type := Db -> result A * Db.

Definition ret {A : Type} (a : A) : M A := fun db => (Ok a, db).

Definition bind {A B : Type} (m : M A) (k : A -> M B) : M B :=
  fun db =>
    match m db with
    | (Ok a, db') => k a db'
    | (Threw e, db') => (Threw e, db')
    end.

Notation "x <- m ;; k" := (bind m (fun x => k))
  (at level 61, m at next level, right associativity).

Definition same_key (u v : string) (r : UserVideoProgress) : bool :=
  (userId r =? u) && (videoId r =? v).

(** [prisma.userVideoProgress.findUnique({ where: { userId_videoId } })] *)
Definition findUnique (u v : string) : M (option UserVideoProgress) :=
  fun db => (Ok (find (same_key u v) (userVideoProgress db)), db).

Definition set_completed (env : Env) (c : bool) (r : UserVideoProgress)
  : UserVideoProgress :=
  {| id := id r; userId := userId r; videoId := videoId r;
     completed := c; updatedAt := now env |}.

(** [prisma.userVideoProgress.update({ where: { id }, data: { completed } })];
    [@updatedAt] stamps the row with the time of the update. *)
Definition update (env : Env) (rowId : string) (c : bool) : M unit :=
  fun db =>
    if existsb (fun r => id r =? rowId) (userVideoProgress db) then
      (Ok tt,
       {| users := users db; videos := videos db;
          userVideoProgress :=
            map (fun r => if id r =? rowId then set_completed env c r else r)
                (userVideoProgress db) |})
    else (Threw RecordNotFound, db).

(** [prisma.userVideoProgress.create({ data: { userId, videoId, completed } })].
    The insert is checked against the key constraints of the table and then
    against its two foreign keys; a rejected insert changes nothing. *)
Definition create (env : Env) (u v : string) (c : bool) : M unit :=
  fun db =>
    if existsb (fun r => (id r =? cuid env) || same_key u v r)
               (userVideoProgress db)
    then (Threw UniqueConstraintFailed, db)
    else if existsb (String.eqb u) (users db)
            && existsb (String.eqb v) (videos db)
    then (Ok tt,
          {| users := users db; videos := videos db;
             userVideoProgress :=
               userVideoProgress db
               ++ [ {| id := cuid env; userId := u; videoId := v;
                       completed := c; updatedAt := now env |} ] |})
    else (Threw ForeignKeyConstraintFailed, db).

(** Lines 86 to 108 of the action: the operation the specification calls
    [setCompletion]. *)
Definition setCompletion (env : Env) (u v : string) (c : bool) : M unit :=
  existingProgress <- findUnique u v ;;
  match existingProgress with
  | Some p => update env (id p) c
  | None => create env u v c
  end.

(** [FormData]: the entries in order; a value is a string or a file. *)
Inductive FormDataEntryValue : Type :=
| FString (s : string)
| FFile (name : string).

Definition FormData : Type := list (string * FormDataEntryValue).

(** [form.get(name)]: the first value with that name, or [null]. *)
Definition form_get (form : FormData) (name : string)
  : option FormDataEntryValue :=
  option_map snd (find (fun e => fst e =? name) form).

(** [form.get("completed") === "true"] *)
Definition completed_of_form (form : FormData) : bool :=
  match form_get form "completed" with
  | Some (FString s) => s =? "true"
  | _ => false
  end.

Inductive Response : Type :=
| Json400 (error : string)
| JsonSuccess.

(** The action of the video route, for the signed-in user [user_id] and the
    route parameter [videoId] ([None] when the parameter is missing). *)
Definition action (env : Env) (user_id : string) (videoId : option string)
           (form : FormData) : M Response :=
  match videoId with
  | None | Some "" => ret (Json400 "Video ID is required")
  | Some v =>
      let completed := completed_of_form form in
      _ <- setCompletion env user_id v completed ;;
      ret JsonSuccess
  end.

(** The same call made once per element of [envs], one after the other. *)
Fixpoint repeated (envs : list Env) (u v : string) (c : bool) : M unit :=
  match envs with
  | [] => ret tt
  | env :: envs' => _ <- setCompletion env u v c ;; repeated envs' u v c
  end.

(** *** Integrity of the database and views of it *)

(** The constraints of the schema: primary key, [@@unique([userId, videoId])]
    and the two foreign keys. *)
Record consistent (db : Db) : Prop := {
  primary_key : NoDup (map id (userVideoProgress db));
  unique_pair :
    NoDup (map (fun r => (userId r, videoId r)) (userVideoProgress db));
  foreign_keys :
    Forall (fun r => In (userId r) (users db) /\ In (videoId r) (videos db))
           (userVideoProgress db)
}.

(** The progress records of the pair [(u, v)]. *)
Definition records_of (u v : string) (db : Db) : list UserVideoProgress :=
  filter (same_key u v) (userVideoProgress db).

(** What a call does to a database that already holds a record of [(u, v)]:
    that record gets the flag and the time of the call. *)
Definition touch (env : Env) (c : bool) (u v : string) (db : Db) : Db :=
  {| users := users db; videos := videos db;
     userVideoProgress :=
       map (fun r => if same_key u v r then set_completed env c r else r)
           (userVideoProgress db) |}.

(** What a call does to a database that holds no record of [(u, v)]. *)
Definition insert (env : Env) (c : bool) (u v : string) (db : Db) : Db :=
  {| users := users db; videos := videos db;
     userVideoProgress :=
       userVideoProgress db
       ++ [ {| id := cuid env; userId := u; videoId := v;
               completed := c; updatedAt := now env |} ] |}.

(** The generated key is not the key of a row of the table. *)
Definition fresh (env : Env) (db : Db) : Prop :=
  ~ In (cuid env) (map id (userVideoProgress db)).

(** The database with every [updatedAt] blanked out. *)
Definition without_time (db : Db) : Db :=
  {| users := users db; videos := videos db;
     userVideoProgress :=
       map (fun r => {| id := id r; userId := userId r; videoId := videoId r;
                        completed := completed r; updatedAt := 0%Z |})
           (userVideoProgress db) |}.

End ProgressStore.

(* ================================================================== *)
(** ** Binary64 rounding *)
(* ================================================================== *)

(** The arithmetic of JavaScript numbers, as far as the dashboard needs it.
    A finite binary64 number is a rational; the result of a division or a
    multiplication is the exact result rounded to the nearest number with a
    significand of 53 bits, ties to the even significand.  The exponent range
    is not modelled: the loader divides one counter by another and multiplies
    by 100, the counters are sums of array lengths (an array has fewer than
    2^32 elements), so a result is 0 or lies between 2^-53 and 100, far from
    overflow and from the subnormal numbers. *)
Module Binary64.

Local Open Scope Q_scope.

(** The integer nearest to [q], the even one of two that are equally near. *)
Definition rne (q : Q) : Z :=
  let f := Qfloor q in
  match Qcompare (q - inject_Z f) (1 # 2) with
  | Lt => f
  | Gt => (f + 1)%Z
  | Eq => if Z.even f then f else (f + 1)%Z
  end.

(** The exponent of a positive number: the [e] with [2^e <= q < 2^(e+1)]. *)
Definition exponent (q : Q) : Z :=
  let k := (Z.log2 (Qnum q) - Z.log2 (Zpos (Qden q)))%Z in
  if Qle_bool (2 ^ k) q then k else (k - 1)%Z.

(** Round to nearest, ties to even, with 53 significant bits. *)
Definition round (q : Q) : Q :=
  match Qcompare q 0 with
  | Eq => 0
  | Gt => let s := (exponent q - 52)%Z in inject_Z (rne (q / 2 ^ s)) * 2 ^ s
  | Lt => let s := (exponent (- q) - 52)%Z in
          - (inject_Z (rne (- q / 2 ^ s)) * 2 ^ s)
  end.

(** What two roundings in a row can add to or take from a positive number,
    as a fraction of it: [(1 + 2^-53)^2 - 1]. *)
Definition two_roundings : Q := 2 ^ (-52) + 2 ^ (-106).

End Binary64.

(* ================================================================== *)
(** ** Progress aggregation (dashboard loader) *)
(* ================================================================== *)

Module Dashboard.

Local Open Scope list_scope.

(** JavaScript numbers as far as the loader uses them: the counters are
    non-negative integers, and a quotient of two of them is a binary64
    number (a rational, see [Binary64]), or [NaN] (0/0), or [Infinity]
    (n/0). *)
Inductive number : Type :=
| Num (q : Q)
| NaN
| Infinity.

(** A counter as a number: exact, as every integer below 2^53 is. *)
Definition of_count (n : nat) : Q := inject_Z (Z.of_nat n).

(** [a / b] for two counters. *)
Definition div (a b : nat) : number :=
  match b, a with
  | 0, 0 => NaN
  | 0, S _ => Infinity
  | S _, _ => Num (Binary64.round (of_count a / of_count b))
  end.

(** [x * 100] *)
Definition times100 (x : number) : number :=
  match x with
  | Num q => Num (Binary64.round (q * 100))
  | NaN => NaN
  | Infinity => Infinity
  end.

Record Video : Type := { id : string; videoUrl : string; order : Z }.
Record Chapter : Type := { videos : list Video }.
Record Course : Type := { title : string; chapters : list Chapter }.
Record UserCourse : Type := { course : Course }.

(** What the query of the loader returns for the signed-in user: the
    enrolments with their courses, and the user's progress records. *)
Record UserWithCourses : Type := {
  courses : list UserCourse;
  progress : list ProgressStore.UserVideoProgress
}.

(** [{ ...userCourse.course, progress: courseProgress }] *)
Record CourseWithProgress : Type := {
  spread : Course;
  courseProgress : number
}.

Record LoaderData : Type := {
  overallProgress : number;
  coursesWithProgress : list CourseWithProgress
}.

(** [total > 0 ? (completed / total) * 100 : 0], the expression of lines
    313 and 322. *)
Definition percentage (completed total : nat) : number :=
  if 0 <? total then times100 (div completed total) else Num 0.

(** The same expression on the primitive binary64 numbers of Rocq, to check
    [percentage] against them.  A counter is converted exactly as long as it
    is below 2^53. *)
Definition to_float (n : nat) : float :=
  PrimFloat.of_uint63 (Uint63.of_Z (Z.of_nat n)).

Definition percentage64 (completed total : nat) : float :=
  if 0 <? total
  then PrimFloat.mul (PrimFloat.div (to_float completed) (to_float total))
                     (to_float 100)
  else to_float 0.

(** The value of a primitive float. *)
Definition value_of (f : float) : number :=
  match Prim2SF f with
  | S754_zero _ => Num 0
  | S754_finite s m e =>
      Num ((if s then -1 else 1) * inject_Z (Zpos m) * 2 ^ e)%Q
  | S754_infinity _ => Infinity
  | S754_nan => NaN
  end.

Definition same_number (x y : number) : bool :=
  match x, y with
  | Num a, Num b => Qeq_bool a b
  | NaN, NaN => true
  | Infinity, Infinity => true
  | _, _ => false
  end.

(** The body of [chapter.videos.forEach]: one video, the counter threaded
    through. *)
Definition count_video (progress : list ProgressStore.UserVideoProgress)
           (courseCompletedVideos : nat) (video : Video) : nat :=
  match find (fun p => String.eqb (ProgressStore.videoId p) (id video)) progress with
  | Some videoProgress =>
      if ProgressStore.completed videoProgress
      then S courseCompletedVideos
      else courseCompletedVideos
  | None => courseCompletedVideos
  end.

(** The body of [chapters.forEach], on the pair
    [(courseTotalVideos, courseCompletedVideos)]. *)
Definition count_chapter (progress : list ProgressStore.UserVideoProgress)
           (counters : nat * nat) (chapter : Chapter) : nat * nat :=
  let '(courseTotalVideos, courseCompletedVideos) := counters in
  (courseTotalVideos + List.length (videos chapter),
   fold_left (count_video progress) (videos chapter) courseCompletedVideos).

(** The variables the callback of [courses.map] updates, and the array it
    builds. *)
Record Acc : Type := {
  totalVideos : nat;
  completedVideos : nat;
  mapped : list CourseWithProgress
}.

Definition map_course (progress : list ProgressStore.UserVideoProgress)
           (acc : Acc) (userCourse : UserCourse) : Acc :=
  let '(courseTotalVideos, courseCompletedVideos) :=
    fold_left (count_chapter progress) (chapters (course userCourse)) (0, 0) in
  let courseProgress := percentage courseCompletedVideos courseTotalVideos in
  {| totalVideos := totalVideos acc + courseTotalVideos;
     completedVideos := completedVideos acc + courseCompletedVideos;
     mapped := mapped acc
               ++ [ {| spread := course userCourse;
                       courseProgress := courseProgress |} ] |}.

(** Lines 292 to 322 of the loader. *)
Definition computeProgress (userWithCourses : UserWithCourses) : LoaderData :=
  let acc :=
    fold_left (map_course (progress userWithCourses))
              (courses userWithCourses)
              {| totalVideos := 0; completedVideos := 0; mapped := [] |} in
  {| overallProgress := percentage (completedVideos acc) (totalVideos acc);
     coursesWithProgress := mapped acc |}.

(** The loader: 404 when the user row is not found. *)
Definition loader (userWithCourses : option UserWithCourses)
  : option LoaderData :=
  option_map computeProgress userWithCourses.

(** What the body of [chapter.videos.forEach] tests: the first progress
    record of the video, if any, has [completed] set. *)
Definition counted (progress : list ProgressStore.UserVideoProgress)
           (video : Video) : bool :=
  match find (fun p => String.eqb (ProgressStore.videoId p) (id video)) progress with
  | Some videoProgress => ProgressStore.completed videoProgress
  | None => false
  end.

(** *** The counts of the specification *)

Definition course_videos (c : Course) : list Video :=
  flat_map videos (chapters c).

(** total = count of videos across all chapters of the course. *)
Definition total_of (c : Course) : nat := List.length (course_videos c).

(** A progress record exists for the video with [completed = true]. *)
Definition has_completed_record
           (progress : list ProgressStore.UserVideoProgress) (video : Video) : bool :=
  existsb (fun p => String.eqb (ProgressStore.videoId p) (id video)
                    && ProgressStore.completed p) progress.

(** The completed counter of one course, as the loops leave it, and the
    element of the mapped array built from it. *)
Definition counted_of (progress : list ProgressStore.UserVideoProgress)
           (c : Course) : nat :=
  List.length (filter (counted progress) (course_videos c)).

Definition with_progress (progress : list ProgressStore.UserVideoProgress)
           (uc : UserCourse) : CourseWithProgress :=
  {| spread := course uc;
     courseProgress :=
       percentage (counted_of progress (course uc)) (total_of (course uc)) |}.

(** completed = count of the course's videos with such a record. *)
Definition completed_of (progress : list ProgressStore.UserVideoProgress)
           (c : Course) : nat :=
  List.length (filter (has_completed_record progress) (course_videos c)).

Definition sum_total (cs : list UserCourse) : nat :=
  list_sum (map (fun uc => total_of (course uc)) cs).

Definition sum_completed (progress : list ProgressStore.UserVideoProgress)
           (cs : list UserCourse) : nat :=
  list_sum (map (fun uc => completed_of progress (course uc)) cs).

(** completed / total * 100 as a rational, exactly. *)
Definition ratio100 (completed total : nat) : Q :=
  (inject_Z (Z.of_nat completed) / inject_Z (Z.of_nat total) * 100)%Q.

(** completed / total * 100 in binary64: the quotient rounded, then the
    product rounded. *)
Definition ratio100_binary64 (completed total : nat) : Q :=
  Binary64.round
    (Binary64.round (inject_Z (Z.of_nat completed) / inject_Z (Z.of_nat total))
     * 100)%Q.

(** The arithmetic mean of a list of rationals. *)
Definition mean (qs : list Q) : Q :=
  (fold_right Qplus 0 qs / of_count (List.length qs))%Q.

(** [x] is the finite number [q]. *)
Definition is_num (x : number) (q : Q) : Prop :=
  match x with Num q' => (q' == q)%Q | _ => False end.

(** At most one progress record per video among the records of the user. *)
Definition one_record_per_video (u : UserWithCourses) : Prop :=
  NoDup (map ProgressStore.videoId (progress u)).

(** The per-course percentages of a result, in the order of the courses. *)
Definition course_percentages (d : LoaderData) : list number :=
  map courseProgress (coursesWithProgress d).

(** *** Sample data *)

Definition video (i : string) : Video :=
  {| id := i; videoUrl := "https://youtu.be/dQw4w9WgXcQ"; order := 0%Z |}.

Definition record (u v : string) (c : bool) : ProgressStore.UserVideoProgress :=
  {| ProgressStore.id := String.append "p-" v;
     ProgressStore.userId := u; ProgressStore.videoId := v;
     ProgressStore.completed := c; ProgressStore.updatedAt := 0%Z |}.

(** Course A: four videos in two chapters.  Course B: one video.  Course C:
    two videos.  Course E: a chapter without videos. *)
Definition courseA : Course :=
  {| title := "A";
     chapters := [ {| videos := [video "a1"; video "a2"; video "a3"] |};
                   {| videos := [video "a4"] |} ] |}.
Definition courseB : Course :=
  {| title := "B"; chapters := [ {| videos := [video "b1"] |} ] |}.
Definition courseC : Course :=
  {| title := "C"; chapters := [ {| videos := [video "c1"; video "c2"] |} ] |}.
Definition courseE : Course :=
  {| title := "E"; chapters := [ {| videos := [] |} ] |}.

(** Two of the four videos of A and the video of B are completed. *)
Definition user_60 : UserWithCourses :=
  {| courses := [ {| course := courseA |}; {| course := courseB |} ];
     progress := [ record "u1" "a1" true; record "u1" "a3" true;
                   record "u1" "a4" false; record "u1" "b1" true ] |}.

(** Two of the four videos of A and one of the two videos of C are
    completed. *)
Definition user_50 : UserWithCourses :=
  {| courses := [ {| course := courseA |}; {| course := courseC |} ];
     progress := [ record "u1" "a1" true; record "u1" "a3" true;
                   record "u1" "c2" true ] |}.

(** Enrolled in a course without videos only. *)
Definition user_empty : UserWithCourses :=
  {| courses := [ {| course := courseE |} ];
     progress := [ record "u1" "a1" true ] |}.

(** Enrolled in course A, with two of its four videos completed, and in the
    course without videos. *)
Definition user_mixed : UserWithCourses :=
  {| courses := [ {| course := courseA |}; {| course := courseE |} ];
     progress := [ record "u1" "a1" true; record "u1" "a3" true ] |}.

(** Course L: twenty-five videos in one chapter, of which the first seven
    are completed. *)
Definition courseL : Course :=
  {| title := "L";
     chapters :=
       [ {| videos :=
              map video
                  [ "l01"; "l02"; "l03"; "l04"; "l05"; "l06"; "l07"; "l08";
                    "l09"; "l10"; "l11"; "l12"; "l13"; "l14"; "l15"; "l16";
                    "l17"; "l18"; "l19"; "l20"; "l21"; "l22"; "l23"; "l24";
                    "l25" ]%string |} ] |}.

Definition user_7_of_25 : UserWithCourses :=
  {| courses := [ {| course := courseL |} ];
     progress :=
       map (fun v => record "u1" v true)
           [ "l01"; "l02"; "l03"; "l04"; "l05"; "l06"; "l07" ]%string |}.

End Dashboard.

(* ================================================================== *)
(** ** Sequences of calls on the progress store *)
(* ================================================================== *)

Module ProgressRuns.

Import ProgressStore.

(** One request after the other for the same user and video, each with its
    own clock, generated key and flag. *)
Fixpoint calls (reqs : list (Env * bool)) (u v : string) : M unit :=
  match reqs with
  | [] => ret tt
  | (env, c) :: reqs' => bind (setCompletion env u v c) (fun _ => calls reqs' u v)
  end.

(** The key columns of the table, in row order. *)
Definition keys (db : Db) : list (string * string * string) :=
  map (fun r => (id r, userId r, videoId r)) (userVideoProgress db).

End ProgressRuns.

(* ================================================================== *)
(** ** What the video page builds from the resolved URL *)
(* ================================================================== *)

Module Player.

Import Resolver.

(** The [src] the component gives the iframe element of a resolved URL, the
    template literals of lines 149 and 159:
    [`https://www.youtube.com/embed/${videoInfo.id}`] and
    [`https://player.vimeo.com/video/${videoInfo.id}`]. *)
Definition embedSrc (info : VideoInfo) : string :=
  match type info with
  | youtube => String.append "https://www.youtube.com/embed/" (id info)
  | vimeo => String.append "https://player.vimeo.com/video/" (id info)
  end.

(** The element the component builds for the player area (lines 146 to
    171): an iframe with that [src], or the paragraph "Unsupported video URL
    format."  Whether the element reaches the screen is decided by the rest
    of the component, see [Pages.VideoDetail]. *)
Inductive PlayerArea : Type :=
| Iframe (src : string)
| UnsupportedMessage.

Definition player (videoUrl : string) : PlayerArea :=
  match getVideoId videoUrl with
  | Some videoInfo => Iframe (embedSrc videoInfo)
  | None => UnsupportedMessage
  end.

(** [url] has [vimeo.com/] at [pre], followed by the digits [d] and then no
    further digit. *)
Definition vimeo_form_at (pre d rest : list ascii) (url : string) : Prop :=
  list_ascii_of_string url
  = pre ++ list_ascii_of_string "vimeo.com/" ++ d ++ rest
  /\ d <> []
  /\ forallb is_digit d = true
  /\ match rest with [] => True | c :: _ => is_digit c = false end.

Definition leftmost_vimeo_form (pre d rest : list ascii) (url : string) : Prop :=
  vimeo_form_at pre d rest url
  /\ forall pre' d' rest',
       vimeo_form_at pre' d' rest' url -> List.length pre <= List.length pre'.

End Player.

(* ================================================================== *)
(** ** The course catalogue and the pages that read it *)
(* ================================================================== *)

(** Rows of the tables of [prisma/schema.prisma] that the loaders read. *)
Module Schema.

Module Course.
Record t : Type := {
  id : string;
  title : string;
  description : option string;
  imageUrl : option string
}.
End Course.

Module Chapter.
Record t : Type := {
  id : string;
  title : string;
  description : option string;
  courseId : string
}.
End Chapter.

Module Video.
Record t : Type := {
  id : string;
  title : string;
  videoUrl : string;
  chapterId : string;
  order : Z
}.
End Video.

Module UserCourse.
Record t : Type := {
  id : string;
  userId : string;
  courseId : string;
  createdAt : Z
}.
End UserCourse.

Record Catalog : Type := {
  courses : list Course.t;
  chapters : list Chapter.t;
  videos : list Video.t;
  userCourses : list UserCourse.t
}.

(** The primary keys of the catalogue ([@id] of [Course], [Chapter] and
    [Video]), its foreign keys ([Chapter.courseId], [Video.chapterId],
    [UserCourse.courseId]), and the video table of the progress store being
    the video table of the catalogue. *)
Record well_formed (cat : Catalog) (db : ProgressStore.Db) : Prop := {
  course_key : NoDup (map Course.id (courses cat));
  chapter_key : NoDup (map Chapter.id (chapters cat));
  video_key : NoDup (map Video.id (videos cat));
  chapter_course :
    Forall (fun ch => In (Chapter.courseId ch) (map Course.id (courses cat)))
           (chapters cat);
  video_chapter :
    Forall (fun v => In (Video.chapterId v) (map Chapter.id (chapters cat)))
           (videos cat);
  enrolment_course :
    Forall (fun e => In (UserCourse.courseId e) (map Course.id (courses cat)))
           (userCourses cat);
  video_table : ProgressStore.videos db = map Video.id (videos cat)
}.

End Schema.

Module Pages.

Import Schema.

Local Open Scope string_scope.
Local Open Scope list_scope.

(** [orderBy: { ...: "asc" }]: the rows in ascending order of a key; rows
    with the same key stay in table order (SQL leaves their order open).
    Ids are compared as byte strings. *)
Fixpoint insert_by {A : Type} (leb : A -> A -> bool) (x : A) (l : list A)
  : list A :=
  match l with
  | [] => [x]
  | y :: l' => if leb x y then x :: l else y :: insert_by leb x l'
  end.

Definition sort_by {A : Type} (leb : A -> A -> bool) (l : list A) : list A :=
  fold_right (insert_by leb) [] l.

(** What a loader ends in: [json(data)], a thrown [Response] with its status
    and body, or a query rejected by the client because a required relation
    has no row. *)
Inductive Outcome (A : Type) : Type :=
| Json (data : A)
| Thrown (status : nat) (body : string)
| QueryFailed.
Arguments Json {A} data.
Arguments Thrown {A} status body.
Arguments QueryFailed {A}.

(** [videos: { orderBy: { order: "asc" }, include: { userProgress: { where:
    { userId } } } }] *)
Record VideoWithProgress : Type := {
  video_row : Video.t;
  userProgress : list ProgressStore.UserVideoProgress
}.

Record ChapterWithVideos : Type := {
  chapter_row : Chapter.t;
  videos_of : list VideoWithProgress
}.

Record CourseWithChapters : Type := {
  course_row : Course.t;
  chapters_of : list ChapterWithVideos
}.

Definition with_userProgress (db : ProgressStore.Db) (user_id : string)
           (v : Video.t) : VideoWithProgress :=
  {| video_row := v;
     userProgress := ProgressStore.records_of user_id (Video.id v) db |}.

Definition chapter_videos (cat : Catalog) (ch : Chapter.t) : list Video.t :=
  filter (fun v => Video.chapterId v =? Chapter.id ch) (videos cat).

Definition course_chapters (cat : Catalog) (c : Course.t) : list Chapter.t :=
  filter (fun ch => Chapter.courseId ch =? Course.id c) (chapters cat).

(** The [include] of both course loaders: chapters by id, videos by order,
    each video with the progress records of the signed-in user. *)
Definition include_chapters (cat : Catalog) (db : ProgressStore.Db)
           (user_id : string) (c : Course.t) : CourseWithChapters :=
  {| course_row := c;
     chapters_of :=
       map (fun ch =>
              {| chapter_row := ch;
                 videos_of :=
                   map (with_userProgress db user_id)
                       (sort_by (fun a b => (Video.order a <=? Video.order b)%Z)
                                (chapter_videos cat ch)) |})
           (sort_by (fun a b => String.leb (Chapter.id a) (Chapter.id b))
                    (course_chapters cat c)) |}.

(** A route parameter that is missing or empty is falsy. *)
Definition param (p : option string) : option string :=
  match p with
  | None | Some "" => None
  | Some x => Some x
  end.

(** *** The course page ([courses.$courseId.tsx]) *)

Record CoursePage : Type := {
  page_course : CourseWithChapters;
  page_user : string
}.

Definition courseLoader (cat : Catalog) (db : ProgressStore.Db)
           (user_id : string) (courseId : option string) : Outcome CoursePage :=
  match param courseId with
  | None => Thrown 400 "Course ID is required"
  | Some c =>
      match find (fun x => Course.id x =? c) (courses cat) with
      | None => Thrown 404 "Course not found"
      | Some course =>
          Json {| page_course := include_chapters cat db user_id course;
                  page_user := user_id |}
      end
  end.

(** [userProgress.some((p) => p.completed)]: [isCompleted] of the video
    loader (line 69), and the test of the components for the check mark of
    a video. *)
Definition some_completed (ps : list ProgressStore.UserVideoProgress) : bool :=
  existsb ProgressStore.completed ps.

(** The videos of a course page in page order, and those with a check
    mark. *)
Definition listed (c : CourseWithChapters) : list VideoWithProgress :=
  flat_map videos_of (chapters_of c).

Definition check_marks (c : CourseWithChapters) : nat :=
  List.length (filter (fun v => some_completed (userProgress v)) (listed c)).

(** *** The video page ([courses.$courseId.videos.$videoId.tsx]) *)

(** [include: { chapter: { include: { course: true } }, userProgress: ... }] *)
Record VideoWithContext : Type := {
  found_row : Video.t;
  found_chapter : Chapter.t;
  found_course : Course.t;
  found_userProgress : list ProgressStore.UserVideoProgress
}.

Record VideoPage : Type := {
  video : VideoWithContext;
  course : CourseWithChapters;
  isCompleted : bool;
  user : string
}.

Definition videoLoader (cat : Catalog) (db : ProgressStore.Db)
           (user_id : string) (courseId videoId : option string)
  : Outcome VideoPage :=
  match param courseId, param videoId with
  | Some c, Some v =>
      match find (fun x => Video.id x =? v) (videos cat) with
      | None => Thrown 404 "Video not found"
      | Some row =>
          match find (fun x => Chapter.id x =? Video.chapterId row) (chapters cat) with
          | None => QueryFailed
          | Some chapter =>
              match find (fun x => Course.id x =? Chapter.courseId chapter)
                         (courses cat) with
              | None => QueryFailed
              | Some chapter_course =>
                  let video :=
                    {| found_row := row;
                       found_chapter := chapter;
                       found_course := chapter_course;
                       found_userProgress :=
                         ProgressStore.records_of user_id v db |} in
                  if negb (Chapter.courseId chapter =? c) then
                    Thrown 400 "Video does not belong to this course"
                  else
                    match find (fun x => Course.id x =? c) (courses cat) with
                    | None => Thrown 404 "Course not found"
                    | Some course =>
                        Json {| video := video;
                                course := include_chapters cat db user_id course;
                                isCompleted :=
                                  some_completed (found_userProgress video);
                                user := user_id |}
                    end
              end
          end
      end
  | _, _ => Thrown 400 "Course ID and Video ID are required"
  end.

(** The form the component builds (lines 178 to 194): one hidden input,
    [value={isCompleted ? "false" : "true"}], and the text of its button. *)
Definition watched_form (page : VideoPage) : ProgressStore.FormData :=
  [("completed",
    ProgressStore.FString (if isCompleted page then "false" else "true"))].

Definition button_label (page : VideoPage) : string :=
  if isCompleted page then "Mark as Unwatched" else "Mark as Watched".

(** What calling the component ends in.  The elements of the player area and
    of the form are built first (lines 146 to 194).  The side bar is built
    last: the callback of [chapter.videos.map] builds a [<Link>] for each
    video (line 216), and [Link] is not in scope in this route, whose line 3
    imports [useLoaderData], [Form] and [useFetcher] only.  Evaluating the
    name throws a [ReferenceError], which ends the call; the component
    returns its elements only when no chapter of the course has a video. *)
Inductive Rendering : Type :=
| Elements (area : Player.PlayerArea) (form : ProgressStore.FormData)
           (label : string)
| ReferenceError (name : string).

Definition VideoDetail (page : VideoPage) : Rendering :=
  match listed (course page) with
  | [] =>
      Elements (Player.player (Video.videoUrl (found_row (video page))))
               (watched_form page) (button_label page)
  | _ :: _ => ReferenceError "Link"
  end.

(** *** The query of the dashboard *)

Definition dashboard_video (v : Video.t) : Dashboard.Video :=
  {| Dashboard.id := Video.id v;
     Dashboard.videoUrl := Video.videoUrl v;
     Dashboard.order := Video.order v |}.

(** [course: { include: { chapters: { include: { videos: true } } } }] *)
Definition dashboard_course (cat : Catalog) (c : Course.t) : Dashboard.Course :=
  {| Dashboard.title := Course.title c;
     Dashboard.chapters :=
       map (fun ch =>
              {| Dashboard.videos := map dashboard_video (chapter_videos cat ch) |})
           (course_chapters cat c) |}.

(** Every element through [f], or nothing when [f] fails on one. *)
Fixpoint traverse {A B : Type} (f : A -> option B) (l : list A)
  : option (list B) :=
  match l with
  | [] => Some []
  | a :: l' =>
      match f a, traverse f l' with
      | Some b, Some bs => Some (b :: bs)
      | _, _ => None
      end
  end.

(** [prisma.user.findUnique({ where: { id }, select: { courses: ...,
    progress: true } })], and the 404 of the loader when there is no such
    user. *)
Definition fetchUser (cat : Catalog) (db : ProgressStore.Db) (user_id : string)
  : Outcome Dashboard.UserWithCourses :=
  if existsb (String.eqb user_id) (ProgressStore.users db) then
    match
      traverse
        (fun e =>
           option_map
             (fun c => {| Dashboard.course := dashboard_course cat c |})
             (find (fun x => Course.id x =? UserCourse.courseId e) (courses cat)))
        (filter (fun e => UserCourse.userId e =? user_id) (userCourses cat))
    with
    | Some enrolled =>
        Json {| Dashboard.courses := enrolled;
                Dashboard.progress :=
                  filter (fun p => ProgressStore.userId p =? user_id)
                         (ProgressStore.userVideoProgress db) |}
    | None => QueryFailed
    end
  else Thrown 404 "User not found".

Definition dashboardLoader (cat : Catalog) (db : ProgressStore.Db)
           (user_id : string) : Outcome Dashboard.LoaderData :=
  match fetchUser cat db user_id with
  | Json userWithCourses => Json (Dashboard.computeProgress userWithCourses)
  | Thrown status body => Thrown status body
  | QueryFailed => QueryFailed
  end.

(** Order on the finite numbers. *)
Definition num_le (x y : Dashboard.number) : Prop :=
  match x, y with
  | Dashboard.Num a, Dashboard.Num b => (a <= b)%Q
  | _, _ => False
  end.

(** *** Sample catalogue *)

Definition sample_catalog : Catalog :=
  {| courses := [ {| Course.id := "co1"; Course.title := "Course";
                     Course.description := None; Course.imageUrl := None |} ];
     chapters := [ {| Chapter.id := "ch2"; Chapter.title := "Two";
                      Chapter.description := None; Chapter.courseId := "co1" |};
                   {| Chapter.id := "ch1"; Chapter.title := "One";
                      Chapter.description := None; Chapter.courseId := "co1" |} ];
     videos := [ {| Video.id := "v2"; Video.title := "Second";
                    Video.videoUrl := "https://vimeo.com/76979871";
                    Video.chapterId := "ch1"; Video.order := 2 |};
                 {| Video.id := "v1"; Video.title := "First";
                    Video.videoUrl := "https://youtu.be/dQw4w9WgXcQ";
                    Video.chapterId := "ch1"; Video.order := 1 |};
                 {| Video.id := "v3"; Video.title := "Third";
                    Video.videoUrl := "https://example.com/video.mp4";
                    Video.chapterId := "ch2"; Video.order := 0 |} ];
     userCourses := [ {| UserCourse.id := "e1"; UserCourse.userId := "u1";
                         UserCourse.courseId := "co1";
                         UserCourse.createdAt := 0 |} ] |}.

Definition sample_db : ProgressStore.Db :=
  {| ProgressStore.users := ["u1"; "u2"];
     ProgressStore.videos := ["v2"; "v1"; "v3"];
     ProgressStore.userVideoProgress :=
       [ {| ProgressStore.id := "p1"; ProgressStore.userId := "u1";
            ProgressStore.videoId := "v1"; ProgressStore.completed := true;
            ProgressStore.updatedAt := 10 |};
         {| ProgressStore.id := "p2"; ProgressStore.userId := "u2";
            ProgressStore.videoId := "v2"; ProgressStore.completed := true;
            ProgressStore.updatedAt := 20 |} ] |}.

Definition sample_env : ProgressStore.Env :=
  {| ProgressStore.now := 1000; ProgressStore.cuid := "p3" |}.

End Pages.

(* ================================================================== *)
(** ** Sign-in ([utils/auth.server.ts]) *)
(* ================================================================== *)

Module Auth.

Local Open Scope string_scope.
Local Open Scope list_scope.

(** A row of model [User].  [emailVerified] is a time in milliseconds. *)
Record User : Type := {
  id : string;
  name : option string;
  email : option string;
  emailVerified : option Z;
  image : option string;
  role : string
}.

(** A value found under a key of [user_metadata], which is free-form JSON:
    the key is missing, or holds null, a string, or something else (a
    number, a boolean, an object), of which only the truthiness matters
    here. *)
Inductive JsValue : Type :=
| Undefined
| Null
| Text (s : string)
| Other (truthy : bool).

(** What Supabase answers to [signInWithPassword], as far as the callback
    reads it: [data.user] with its metadata, and [error.message]. *)
Record UserMetadata : Type := {
  meta_name : JsValue;
  avatar_url : JsValue;
  meta_role : JsValue
}.

Record SupabaseUser : Type := {
  sb_id : string;
  sb_email : option string;
  user_metadata : option UserMetadata;
  email_confirmed_at : option string
}.

Record SignIn : Type := {
  data_user : option SupabaseUser;
  error : option string
}.

(** What the callback ends in other than a user: [throw new Error(message)],
    a query the Prisma client refuses because of its arguments (before
    anything is sent to the database), or a query rejected by the
    database. *)
Inductive Failure : Type :=
| Error (message : string)
| Invalid
| Rejected (e : ProgressStore.PrismaError).

(** A string that is truthy: present and not the empty string. *)
Definition truthy (s : option string) : option string :=
  match s with
  | None | Some "" => None
  | Some x => Some x
  end.

(** [a || b] on strings *)
Definition or_else (a : option string) (b : string) : string :=
  match truthy a with Some x => x | None => b end.

(** Truthiness of a metadata value, and [a || b] on such values. *)
Definition is_truthy (v : JsValue) : bool :=
  match v with
  | Undefined | Null | Text "" => false
  | Text _ => true
  | Other b => b
  end.

Definition or_value (a b : JsValue) : JsValue :=
  if is_truthy a then a else b.

(** [user_metadata?.field] *)
Definition metadata (sb : SupabaseUser) (field : UserMetadata -> JsValue)
  : JsValue :=
  match user_metadata sb with Some m => field m | None => Undefined end.

(** A form field that passes [!x || typeof x !== "string"]. *)
Definition text_field (form : ProgressStore.FormData) (name : string)
  : option string :=
  match ProgressStore.form_get form name with
  | Some (ProgressStore.FString s) => truthy (Some s)
  | _ => None
  end.

(** [new Date(text)]: a time, or the invalid date when the text is not a
    date. *)
Inductive JsDate : Type :=
| Date (ms : Z)
| InvalidDate.

(** [email_confirmed_at ? new Date(email_confirmed_at) : null], for the
    [newDate] of the runtime. *)
Definition confirmed (newDate : string -> JsDate) (sb : SupabaseUser)
  : option JsDate :=
  option_map newDate (truthy (email_confirmed_at sb)).

(** The [data] of the two queries: [name], [image], [emailVerified] and
    [role], with [fallback] for the right-hand side of [role || ...]. *)
Record UserData : Type := {
  data_name : JsValue;
  data_image : JsValue;
  data_emailVerified : option JsDate;
  data_role : JsValue
}.

Definition data_of (newDate : string -> JsDate) (sb : SupabaseUser)
           (fallback : string) : UserData :=
  {| data_name := metadata sb meta_name;
     data_image := metadata sb avatar_url;
     data_emailVerified := confirmed newDate sb;
     data_role := or_value (metadata sb meta_role) (Text fallback) |}.

(** What the Prisma client makes of a value given for a column: [undefined]
    leaves the column as it is, [null] empties a column that may be empty, a
    value of the type of the column is written, and anything else (also an
    invalid date) makes the client refuse the query. *)
Definition optional_text (v : JsValue) (stored : option string)
  : option (option string) :=
  match v with
  | Undefined => Some stored
  | Null => Some None
  | Text s => Some (Some s)
  | Other _ => None
  end.

Definition required_text (v : JsValue) (stored : string) : option string :=
  match v with
  | Undefined => Some stored
  | Text s => Some s
  | Null | Other _ => None
  end.

Definition optional_date (d : option JsDate) : option (option Z) :=
  match d with
  | None => Some None
  | Some (Date ms) => Some (Some ms)
  | Some InvalidDate => None
  end.

(** A row with the data written into it, or [None] when the client refuses
    the data.  The key and the email are not part of the data. *)
Definition write (d : UserData) (row : User) : option User :=
  match optional_text (data_name d) (name row),
        optional_text (data_image d) (image row),
        optional_date (data_emailVerified d),
        required_text (data_role d) (role row) with
  | Some n, Some i, Some v, Some r =>
      Some {| id := id row; name := n; email := email row;
              emailVerified := v; image := i; role := r |}
  | _, _, _, _ => None
  end.

(** [prisma.user.create]: the row starts with the key and the email of the
    answer, empty columns and the default role of the schema. *)
Definition blank (sb : SupabaseUser) : User :=
  {| id := sb_id sb; name := None; email := sb_email sb;
     emailVerified := None; image := None; role := "user" |}.

Definition created (newDate : string -> JsDate) (sb : SupabaseUser)
  : option User :=
  write (data_of newDate sb "user") (blank sb).

Definition same_email (e : option string) (r : User) : bool :=
  match e, email r with
  | Some a, Some b => a =? b
  | _, _ => false
  end.

(** [prisma.user.update] of the row [user]. *)
Definition updated (newDate : string -> JsDate) (sb : SupabaseUser)
           (user : User) : option User :=
  write (data_of newDate sb (role user)) user.

(** The callback given to the Supabase strategy.  [newDate] is the date
    parser of the runtime, [signIn] the answer of Supabase to a pair of
    credentials, [table] the user table.  [create] is checked against the
    primary key and [email @unique]. *)
Definition verify (newDate : string -> JsDate)
           (signIn : string -> string -> SignIn)
           (form : ProgressStore.FormData) (table : list User)
  : (User + Failure) * list User :=
  match text_field form "email" with
  | None => (inr (Error "Email is required"), table)
  | Some email =>
      match text_field form "password" with
      | None => (inr (Error "Password is required"), table)
      | Some password =>
          let answer := signIn email password in
          match error answer, data_user answer with
          | Some message, _ =>
              (inr (Error (or_else (Some message) "Invalid credentials")), table)
          | None, None => (inr (Error "Invalid credentials"), table)
          | None, Some sb =>
              match find (fun r => id r =? sb_id sb) table with
              | None =>
                  match created newDate sb with
                  | None => (inr Invalid, table)
                  | Some row =>
                      if existsb (fun r => (id r =? sb_id sb)
                                           || same_email (sb_email sb) r)
                                 table
                      then (inr (Rejected ProgressStore.UniqueConstraintFailed),
                            table)
                      else (inl row, table ++ [row])
                  end
              | Some user =>
                  match updated newDate sb user with
                  | None => (inr Invalid, table)
                  | Some row =>
                      (inl user,
                       map (fun r => if id r =? id user then row else r) table)
                  end
              end
          end
      end
  end.

(** What a guard answers instead of a user. *)
Inductive Reply : Type :=
| Redirect (to : string)
| Status (code : nat) (body : string).

(** [requireUser], [getUser] and [requireAdmin], on the user the session
    holds, if any. *)
Definition requireUser (session : option User) : User + Reply :=
  match session with
  | Some user => inl user
  | None => inr (Redirect "/login")
  end.

Definition getUser (session : option User) : option User := session.

Definition requireAdmin (session : option User) : User + Reply :=
  match requireUser session with
  | inl user =>
      if negb (role user =? "admin") then inr (Status 401 "Unauthorized")
      else inl user
  | inr reply => inr reply
  end.

(** The constraints of model [User]: primary key and [email @unique]. *)
Definition emails (table : list User) : list string :=
  flat_map (fun r => match email r with Some e => [e] | None => [] end) table.

Record valid (table : list User) : Prop := {
  user_key : NoDup (map id table);
  user_email : NoDup (emails table)
}.

(** The answers whose data the client refuses: a name or an image that is
    neither missing, null nor a string; a truthy role that is not a string;
    a confirmation time that is not a date. *)
Definition refused (newDate : string -> JsDate) (sb : SupabaseUser) : Prop :=
  (exists b, metadata sb meta_name = Other b)
  \/ (exists b, metadata sb avatar_url = Other b)
  \/ metadata sb meta_role = Other true
  \/ (exists text, truthy (email_confirmed_at sb) = Some text
                   /\ newDate text = InvalidDate).

(** The role a successful query leaves: the role of the metadata when it is
    a non-empty string, the fallback otherwise. *)
Definition role_or (sb : SupabaseUser) (fallback : string) : string :=
  match metadata sb meta_role with
  | Text "" => fallback
  | Text r => r
  | _ => fallback
  end.

(** Sample data. *)
Definition ada_form : ProgressStore.FormData :=
  [("email", ProgressStore.FString "ada@example.com");
   ("password", ProgressStore.FString "secret")].

Definition ada (n r : JsValue) : SupabaseUser :=
  {| sb_id := "ada"; sb_email := Some "ada@example.com";
     user_metadata :=
       Some {| meta_name := n; avatar_url := Undefined; meta_role := r |};
     email_confirmed_at := Some "2024-01-01T00:00:00Z" |}.

Definition accepts (sb : SupabaseUser) (e p : string) : SignIn :=
  {| data_user := Some sb; error := None |}.

(** A date parser that knows one date. *)
Definition sample_newDate (text : string) : JsDate :=
  if text =? "2024-01-01T00:00:00Z" then Date 1704067200000 else InvalidDate.

Definition ada_row : User :=
  {| id := "ada"; name := Some "Ada"; email := Some "ada@example.com";
     emailVerified := Some 1704067200000%Z; image := None; role := "user" |}.

End Auth.

(* ================================================================== *)
(** ** Properties of the resolver *)
(* ================================================================== *)

(** Splits conjunctions, and nothing else. *)
Ltac split_ands := repeat match goal with |- _ /\ _ => split end.

Section ResolverFacts.

Import Resolver.

Lemma strip_prefix_app (p r : list ascii) : strip_prefix p (p ++ r) = Some r.
Proof.
  induction p as [|a p IH]; simpl; [reflexivity|].
  now rewrite Ascii.eqb_refl.
Qed.

Lemma strip_prefix_inv (p s r : list ascii) :
  strip_prefix p s = Some r -> s = p ++ r.
Proof.
  revert s; induction p as [|a p IH]; intros s H; simpl in *.
  - congruence.
  - destruct s as [|b s]; [discriminate|].
    destruct (Ascii.eqb_spec a b) as [->|]; [|discriminate].
    now rewrite (IH _ H).
Qed.

Lemma take_class_app (cls : ascii -> bool) (t r : list ascii) :
  forallb cls t = true -> take_class cls (List.length t) (t ++ r) = Some (t, r).
Proof.
  induction t as [|c t IH]; simpl; intros H; [reflexivity|].
  apply andb_true_iff in H as [Hc Ht].
  now rewrite Hc, (IH Ht).
Qed.

Lemma take_class_inv (cls : ascii -> bool) (n : nat) (s t r : list ascii) :
  take_class cls n s = Some (t, r) ->
  s = t ++ r /\ List.length t = n /\ forallb cls t = true.
Proof.
  revert s t r; induction n as [|n IH]; intros s t r H; simpl in H.
  - inversion H; subst; auto.
  - destruct s as [|c s]; [discriminate|].
    destruct (cls c) eqn:Hc; [|discriminate].
    destruct (take_class cls n s) as [[t' r']|] eqn:Ht; [|discriminate].
    inversion H; subst; clear H.
    destruct (IH _ _ _ Ht) as (-> & <- & Hall).
    simpl; rewrite Hc, Hall; auto.
Qed.

Lemma first_some_inv {A B : Type} (f : A -> option B) (l : list A) (b : B) :
  first_some f l = Some b -> exists a, In a l /\ f a = Some b.
Proof.
  induction l as [|a l IH]; simpl; [discriminate|].
  destruct (f a) as [b'|] eqn:Ha; intros H.
  - exists a; split; [now left | congruence].
  - destruct (IH H) as (a' & Hin & Hf); exists a'; auto.
Qed.

Lemma first_some_some {A B : Type} (f : A -> option B) (l : list A) (a : A) (b : B) :
  In a l -> f a = Some b -> exists b', first_some f l = Some b'.
Proof.
  induction l as [|a' l IH]; simpl; [tauto|].
  intros [->|Hin] Hf.
  - rewrite Hf; eauto.
  - destruct (f a'); eauto.
Qed.

(** A successful search matched at some index, and at no index before. *)
Lemma search_inv {A : Type} (pat : list ascii -> option A) (s : list ascii) (r : A) :
  search pat s = Some r ->
  exists pre suf,
    s = pre ++ suf /\ pat suf = Some r
    /\ forall pre' suf', s = pre' ++ suf' ->
                         List.length pre' < List.length pre -> pat suf' = None.
Proof.
  induction s as [|c s IH]; simpl; intros H.
  - destruct (pat []) eqn:Hp; [|discriminate].
    exists [], []; repeat split; [congruence|].
    intros pre' suf' _ Hlt; simpl in Hlt; lia.
  - destruct (pat (c :: s)) eqn:Hp.
    + exists [], (c :: s); repeat split; [congruence|].
      intros pre' suf' _ Hlt; simpl in Hlt; lia.
    + destruct (IH H) as (pre & suf & -> & Hsuf & Hmin).
      exists (c :: pre), suf; repeat split; auto.
      intros [|c' pre'] suf' Heq Hlt; simpl in *.
      * now subst suf'.
      * inversion Heq; subst. apply (Hmin pre' suf'); [assumption | lia].
Qed.

Lemma search_some {A : Type} (pat : list ascii -> option A)
      (pre suf : list ascii) (r : A) :
  pat suf = Some r -> exists r', search pat (pre ++ suf) = Some r'.
Proof.
  intros Hp; induction pre as [|c pre IH]; simpl.
  - destruct suf; simpl; rewrite Hp; eauto.
  - destruct (pat (c :: pre ++ suf)); eauto.
Qed.

Lemma search_none {A : Type} (pat : list ascii -> option A)
      (pre suf : list ascii) :
  search pat (pre ++ suf) = None -> pat suf = None.
Proof.
  intros H; destruct (pat suf) as [r|] eqn:Hp; [|reflexivity].
  destruct (search_some pat pre suf r Hp) as (r' & Hr'); congruence.
Qed.

(** The first index decides: a match at [suf] with none before it is what
    the search returns. *)
Lemma search_leftmost {A : Type} (pat : list ascii -> option A)
      (pre suf : list ascii) (r : A) :
  pat suf = Some r ->
  (forall pre' suf', pre ++ suf = pre' ++ suf' ->
                     List.length pre' < List.length pre -> pat suf' = None) ->
  search pat (pre ++ suf) = Some r.
Proof.
  intros Hp; induction pre as [|c pre IH]; intros Hmin; simpl.
  - destruct suf; simpl; now rewrite Hp.
  - rewrite (Hmin [] (c :: pre ++ suf) eq_refl) by (simpl; lia).
    apply IH; intros pre' suf' Heq Hlt.
    apply (Hmin (c :: pre') suf'); simpl; [now rewrite Heq | lia].
Qed.

(** No two of the four prefixes can start the same text. *)
Lemma youtube_prefixes_exclusive (p q : string) (r1 r2 : list ascii) :
  In p youtube_prefixes -> In q youtube_prefixes ->
  list_ascii_of_string p ++ r1 = list_ascii_of_string q ++ r2 -> p = q.
Proof.
  unfold youtube_prefixes; simpl.
  intros Hp Hq H.
  repeat (destruct Hp as [<-|Hp]; [|]); try contradiction;
    repeat (destruct Hq as [<-|Hq]; [|]); try contradiction;
    simpl in H; try reflexivity; discriminate H.
Qed.

(** The YouTube pattern at the head of [s], exactly. *)
Lemma youtube_at_spec (s w : list ascii) :
  youtube_at s = Some w <->
  exists p rest,
    In p youtube_prefixes /\ s = list_ascii_of_string p ++ w ++ rest
    /\ List.length w = 11 /\ forallb is_id_char w = true.
Proof.
  unfold youtube_at; split.
  - intros H. apply first_some_inv in H as (p & Hin & Hf).
    destruct (strip_prefix (list_ascii_of_string p) s) as [r|] eqn:Hs; [|discriminate].
    destruct (take_class is_id_char 11 r) as [[t rest]|] eqn:Ht; [|discriminate].
    simpl in Hf; inversion Hf; subst t; clear Hf.
    apply strip_prefix_inv in Hs. apply take_class_inv in Ht as (-> & Hl & Hall).
    exists p, rest; auto.
  - intros (p & rest & Hin & -> & Hl & Hall).
    set (f := fun p0 : string => _).
    assert (Hf : f p = Some w).
    { unfold f. rewrite strip_prefix_app, <- Hl, take_class_app by assumption.
      reflexivity. }
    destruct (first_some_some f _ _ _ Hin Hf) as (w' & Hw').
    rewrite Hw'. f_equal.
    apply first_some_inv in Hw' as (q & Hq & Hfq). unfold f in Hfq.
    destruct (strip_prefix (list_ascii_of_string q) _) as [r|] eqn:Hs; [|discriminate].
    destruct (take_class is_id_char 11 r) as [[t rest']|] eqn:Ht; [|discriminate].
    simpl in Hfq; inversion Hfq; subst t; clear Hfq.
    apply strip_prefix_inv in Hs. apply take_class_inv in Ht as (-> & Hl' & _).
    assert (p = q) by (eapply youtube_prefixes_exclusive; eauto). subst q.
    apply app_inv_head in Hs.
    assert (Hfirst : firstn 11 (w ++ rest) = firstn 11 (w' ++ rest')) by now rewrite Hs.
    rewrite <- Hl in Hfirst at 1. rewrite <- Hl' in Hfirst.
    now rewrite !firstn_app, !firstn_all, !Nat.sub_diag, !firstn_O, !app_nil_r in Hfirst.
Qed.

Lemma take_while_split (cls : ascii -> bool) (s : list ascii) :
  exists rest,
    s = take_while cls s ++ rest
    /\ forallb cls (take_while cls s) = true
    /\ match rest with [] => True | c :: _ => cls c = false end.
Proof.
  induction s as [|c s (rest & Heq & Hall & Hrest)]; simpl.
  - exists []; auto.
  - destruct (cls c) eqn:Hc.
    + exists rest; simpl; rewrite Hc, Hall, <- Heq; auto.
    + exists (c :: s); auto.
Qed.

Lemma vimeo_at_some_iff (s : list ascii) :
  (exists d, vimeo_at s = Some d) <->
  exists c rest,
    s = list_ascii_of_string "vimeo.com/" ++ c :: rest /\ is_digit c = true.
Proof.
  unfold vimeo_at; split.
  - intros (d & H).
    destruct (strip_prefix _ s) as [r|] eqn:Hs; [|discriminate].
    apply strip_prefix_inv in Hs.
    destruct r as [|c r]; simpl in H; [discriminate|].
    destruct (is_digit c) eqn:Hc; [|discriminate].
    exists c, r; auto.
  - intros (c & rest & -> & Hc).
    rewrite strip_prefix_app; simpl; rewrite Hc; eauto.
Qed.

Lemma youtubeMatch_spec (url i : string) :
  youtubeMatch url = Some i <->
  exists pre w rest,
    leftmost_youtube_form pre w rest url /\ i = string_of_list_ascii w.
Proof.
  unfold youtubeMatch, leftmost_youtube_form, youtube_form_at; split.
  - destruct (search youtube_at (list_ascii_of_string url)) as [w|] eqn:H;
      [|discriminate].
    simpl; intros [= <-].
    apply search_inv in H as (pre & suf & Heq & Hat & Hmin).
    apply youtube_at_spec in Hat as (p & rest & Hin & -> & Hl & Hall).
    exists pre, w, rest; split; [split|reflexivity].
    + exists p; auto.
    + intros pre' w' rest' (p' & Hin' & Heq' & Hl' & Hall').
      destruct (Nat.le_gt_cases (List.length pre) (List.length pre')) as [|Hlt];
        [assumption|exfalso].
      specialize (Hmin _ _ Heq' Hlt).
      assert (Hsome : youtube_at (list_ascii_of_string p' ++ w' ++ rest') = Some w')
        by (apply youtube_at_spec; exists p', rest'; auto).
      congruence.
  - intros (pre & w & rest & ((p & Hin & Heq & Hl & Hall) & Hmin) & ->).
    rewrite Heq, (search_leftmost youtube_at pre _ w); [reflexivity| |].
    + apply youtube_at_spec; exists p, rest; auto.
    + intros pre' suf' Heq' Hlt.
      destruct (youtube_at suf') as [w'|] eqn:Hat; [exfalso|reflexivity].
      apply youtube_at_spec in Hat as (p' & rest' & Hin' & -> & Hl' & Hall').
      assert (List.length pre <= List.length pre'); [|lia].
      apply (Hmin pre' w' rest'). exists p'; repeat split; auto; congruence.
Qed.

Lemma youtubeMatch_some_iff (url : string) :
  (exists i, youtubeMatch url = Some i) <-> contains_youtube_form url.
Proof.
  split.
  - intros (i & H). apply youtubeMatch_spec in H as (pre & w & rest & (H & _) & _).
    exists pre, w, rest; exact H.
  - intros (pre & w & rest & p & Hin & Heq & Hl & Hall).
    unfold youtubeMatch; rewrite Heq.
    destruct (search_some youtube_at pre (list_ascii_of_string p ++ w ++ rest) w)
      as (w' & ->); [apply youtube_at_spec; exists p, rest; auto|].
    simpl; eauto.
Qed.

Lemma vimeoMatch_some_iff (url : string) :
  (exists i, vimeoMatch url = Some i) <-> contains_vimeo_form url.
Proof.
  unfold vimeoMatch, contains_vimeo_form; split.
  - intros (i & H).
    destruct (search vimeo_at (list_ascii_of_string url)) as [d|] eqn:Hs;
      [|discriminate].
    apply search_inv in Hs as (pre & suf & Heq & Hat & _).
    destruct (proj1 (vimeo_at_some_iff suf)) as (c & rest & -> & Hc); eauto.
  - intros (pre & c & rest & Heq & Hc). rewrite Heq.
    destruct (proj2 (vimeo_at_some_iff (list_ascii_of_string "vimeo.com/" ++ c :: rest)))
      as (d & Hd); eauto.
    destruct (search_some vimeo_at pre _ _ Hd) as (d' & ->); simpl; eauto.
Qed.

Lemma getVideoId_youtube (url i : string) :
  getVideoId url = Some {| type := youtube; id := i |} <-> youtubeMatch url = Some i.
Proof.
  unfold getVideoId; destruct (youtubeMatch url) as [m|].
  - split; congruence.
  - destruct (vimeoMatch url); split; congruence.
Qed.

Lemma is_youtube_iff (url : string) :
  is_youtube (getVideoId url) <-> contains_youtube_form url.
Proof.
  rewrite <- youtubeMatch_some_iff; unfold is_youtube.
  split; intros (i & H); exists i; now apply getVideoId_youtube.
Qed.

Lemma id_segment_iff (url : string) :
  contains_youtube_form url <->
  exists seg, id_segment seg url /\ 11 <= List.length seg.
Proof.
  split.
  - intros (pre & w & rest & p & Hin & Heq & Hl & Hall).
    destruct (take_while_split is_id_char rest) as (rest' & Hsplit & Hrun & Hstop).
    exists (w ++ take_while is_id_char rest); split.
    + exists pre, p, rest'; repeat split; auto.
      * now rewrite <- app_assoc, <- Hsplit.
      * rewrite forallb_app, Hall, Hrun; reflexivity.
    + rewrite length_app; lia.
  - intros (seg & (pre & p & rest & Hin & Heq & Hall & _) & Hlen).
    exists pre, (firstn 11 seg), (skipn 11 seg ++ rest), p; repeat split; auto.
    + now rewrite (app_assoc (firstn 11 seg)), firstn_skipn.
    + rewrite length_firstn; lia.
    + rewrite <- (firstn_skipn 11 seg), forallb_app in Hall.
      now apply andb_true_iff in Hall.
Qed.

End ResolverFacts.

(* ------------------------------------------------------------------ *)
(** *** Claims on the resolver *)

Section ResolverClaims.

Import Resolver.

(** C5, as the code has it.  A URL is classified as YouTube exactly when it
    contains one of the four prefixes followed by eleven characters of
    [[A-Za-z0-9_-]]; the id returned is the eleven characters of the
    occurrence that starts first.  Nothing is required of what follows these
    eleven characters: in terms of candidate id segments (the longest run of
    id characters after a prefix), the URL is YouTube exactly when some
    segment has at least eleven characters, so a shorter segment is not
    recognized and a longer one is, cut to its first eleven characters.
    [https://youtu.be/dQw4w9WgXcQ] resolves to YouTube id [dQw4w9WgXcQ]. *)
Theorem youtube_classification :
  (forall url, is_youtube (getVideoId url) <-> contains_youtube_form url)
  /\ (forall url i,
        getVideoId url = Some {| type := youtube; id := i |} <->
        exists pre w rest,
          leftmost_youtube_form pre w rest url /\ i = string_of_list_ascii w)
  /\ (forall url,
        is_youtube (getVideoId url) <->
        exists seg, id_segment seg url /\ 11 <= List.length seg)
  /\ getVideoId "https://youtu.be/dQw4w9WgXcQ"
     = Some {| type := youtube; id := "dQw4w9WgXcQ" |}.
Proof.
  repeat split.
  - apply is_youtube_iff.
  - apply is_youtube_iff.
  - intros H. apply youtubeMatch_spec, getVideoId_youtube, H.
  - intros H. apply getVideoId_youtube, youtubeMatch_spec, H.
  - intros H. apply id_segment_iff, is_youtube_iff, H.
  - intros H. apply is_youtube_iff, id_segment_iff, H.
Qed.

(** C5 as stated fails: the id segment of this URL has twelve characters,
    and the URL is still classified as YouTube, with the first eleven as
    its id. *)
Lemma youtube_segment_of_twelve :
  id_segment (list_ascii_of_string "dQw4w9WgXcQQ") "https://youtu.be/dQw4w9WgXcQQ"
  /\ List.length (list_ascii_of_string "dQw4w9WgXcQQ") <> 11
  /\ getVideoId "https://youtu.be/dQw4w9WgXcQQ"
     = Some {| type := youtube; id := "dQw4w9WgXcQ" |}.
Proof.
  split; [|split].
  - exists (list_ascii_of_string "https://"), "youtu.be/"%string, [].
    repeat split; simpl; auto.
  - simpl; lia.
  - reflexivity.
Qed.

(** C6.  A URL that contains both a YouTube form and the Vimeo form resolves
    as YouTube, with the id of the YouTube pattern, and not as Vimeo: the
    YouTube pattern is tried first and the Vimeo pattern only when it
    fails. *)
Theorem youtube_before_vimeo (url : string) :
  contains_youtube_form url ->
  contains_vimeo_form url ->
  (exists i, youtubeMatch url = Some i
             /\ getVideoId url = Some {| type := youtube; id := i |})
  /\ forall i, getVideoId url <> Some {| type := vimeo; id := i |}.
Proof.
  intros Hy _.
  apply youtubeMatch_some_iff in Hy as (i & Hi).
  unfold getVideoId; rewrite Hi; split.
  - exists i; auto.
  - intros j; congruence.
Qed.

Lemma youtube_before_vimeo_witness :
  exists i,
    youtubeMatch "https://vimeo.com/76979871?ref=https://youtu.be/dQw4w9WgXcQ" = Some i
    /\ getVideoId "https://vimeo.com/76979871?ref=https://youtu.be/dQw4w9WgXcQ"
       = Some {| type := youtube; id := i |}.
Proof.
  refine (proj1 (youtube_before_vimeo
                   "https://vimeo.com/76979871?ref=https://youtu.be/dQw4w9WgXcQ" _ _)).
  - exists (list_ascii_of_string "https://vimeo.com/76979871?ref=https://"),
           (list_ascii_of_string "dQw4w9WgXcQ"), [], "youtu.be/"%string.
    repeat split; simpl; auto.
  - exists (list_ascii_of_string "https://"), "7"%char,
           (list_ascii_of_string "6979871?ref=https://youtu.be/dQw4w9WgXcQ").
    split; reflexivity.
Defined.

(** C7.  A URL that contains neither a YouTube form nor [vimeo.com/] followed
    by a digit resolves to [None], the source's [null]: a value the function
    returns, not an exception. *)
Theorem unsupported_when_neither (url : string) :
  ~ contains_youtube_form url ->
  ~ contains_vimeo_form url ->
  getVideoId url = None.
Proof.
  intros Hy Hv. unfold getVideoId.
  destruct (youtubeMatch url) as [i|] eqn:Hi.
  - exfalso; apply Hy, youtubeMatch_some_iff; eauto.
  - destruct (vimeoMatch url) as [j|] eqn:Hj; [|reflexivity].
    exfalso; apply Hv, vimeoMatch_some_iff; eauto.
Qed.

(** The Vimeo sample of the specification. *)
Example resolve_vimeo :
  getVideoId "https://vimeo.com/76979871"
  = Some {| type := vimeo; id := "76979871" |}.
Proof. reflexivity. Qed.

Lemma unsupported_when_neither_witness :
  getVideoId "https://example.com/video.mp4" = None.
Proof.
  apply unsupported_when_neither.
  - intros H. apply youtubeMatch_some_iff in H as (i & Hi). vm_compute in Hi. discriminate Hi.
  - intros H. apply vimeoMatch_some_iff in H as (i & Hi). vm_compute in Hi. discriminate Hi.
Defined.

End ResolverClaims.

(* ================================================================== *)
(** ** Properties of the progress store *)
(* ================================================================== *)

Section StoreFacts.

Import ProgressStore.

Lemma same_key_true (u v : string) (r : UserVideoProgress) :
  same_key u v r = true <-> userId r = u /\ videoId r = v.
Proof.
  unfold same_key. now rewrite andb_true_iff, !String.eqb_eq.
Qed.

Lemma existsb_eqb_In (x : string) (l : list string) :
  existsb (String.eqb x) l = true <-> In x l.
Proof.
  rewrite existsb_exists; split.
  - intros (y & Hin & Heq). apply String.eqb_eq in Heq. now subst.
  - intros Hin. exists x; split; [assumption | apply String.eqb_refl].
Qed.

Lemma filter_none {A : Type} (f : A -> bool) (l : list A) :
  (forall x, In x l -> f x = false) -> filter f l = [].
Proof.
  induction l as [|a l IH]; simpl; intros H; [reflexivity|].
  rewrite (H a) by now left. apply IH; intros x Hx; apply H; now right.
Qed.

Lemma NoDup_snoc {A : Type} (l : list A) (a : A) :
  NoDup l -> ~ In a l -> NoDup (l ++ [a]).
Proof.
  induction l as [|b l IH]; simpl; intros Hnd Hin.
  - constructor; [tauto | constructor].
  - inversion Hnd; subst. constructor.
    + rewrite in_app_iff; simpl; intuition congruence.
    + apply IH; tauto.
Qed.

Lemma NoDup_map_inj {A B : Type} (h : A -> B) (l : list A) (a b : A) :
  NoDup (map h l) -> In a l -> In b l -> h a = h b -> a = b.
Proof.
  induction l as [|x l IH]; simpl; intros Hnd Ha Hb Heq; [contradiction|].
  inversion Hnd as [|? ? Hx Hl]; subst.
  destruct Ha as [->|Ha], Hb as [->|Hb]; auto.
  - exfalso; apply Hx; rewrite Heq; now apply in_map.
  - exfalso; apply Hx; rewrite <- Heq; now apply in_map.
Qed.

Lemma last_default {A : Type} (a : A) (l : list A) (d d' : A) :
  last (a :: l) d = last (a :: l) d'.
Proof.
  revert a; induction l as [|b l IH]; intros a; [reflexivity|].
  exact (IH b).
Qed.

(** With the unique constraint, the row [findUnique] returns is the only
    record of the pair. *)
Lemma find_some_records (u v : string) (db : Db) (p : UserVideoProgress) :
  consistent db ->
  find (same_key u v) (userVideoProgress db) = Some p ->
  records_of u v db = [p].
Proof.
  intros [_ Huq _]; unfold records_of.
  induction (userVideoProgress db) as [|r rows IH]; simpl in *; [discriminate|].
  inversion Huq as [|? ? Hr Hrows]; subst.
  destruct (same_key u v r) eqn:Hk.
  - intros [= ->]. f_equal. apply filter_none; intros x Hx.
    destruct (same_key u v x) eqn:Hkx; [exfalso|reflexivity].
    apply same_key_true in Hk as [Hu Hv], Hkx as [Hu' Hv'].
    apply Hr. rewrite Hu, Hv, <- Hu', <- Hv'.
    now apply (in_map (fun r => (userId r, videoId r))).
  - intros H; now apply IH.
Qed.

Lemma find_none_records (u v : string) (db : Db) :
  find (same_key u v) (userVideoProgress db) = None ->
  records_of u v db = [].
Proof.
  intros H. apply filter_none. intros x Hx. exact (find_none _ _ H x Hx).
Qed.

Lemma records_find (u v : string) (db : Db) (p : UserVideoProgress) :
  records_of u v db = [p] -> find (same_key u v) (userVideoProgress db) = Some p.
Proof.
  unfold records_of.
  induction (userVideoProgress db) as [|r rows IH]; simpl; [discriminate|].
  destruct (same_key u v r); [congruence | exact IH].
Qed.

(** The branch taken when a record exists: the update by primary key
    changes this record and no other. *)
Lemma setCompletion_existing (env : Env) (u v : string) (c : bool) (db : Db)
      (p : UserVideoProgress) :
  consistent db ->
  records_of u v db = [p] ->
  setCompletion env u v c db = (Ok tt, touch env c u v db).
Proof.
  intros Hc Hrec. pose proof (records_find _ _ _ _ Hrec) as Hfind.
  unfold setCompletion, bind, findUnique; rewrite Hfind.
  apply find_some in Hfind as [Hin Hkey].
  unfold update.
  assert (Hex : existsb (fun r => (id r =? id p)%string) (userVideoProgress db) = true).
  { apply existsb_exists; exists p; split; [assumption | apply String.eqb_refl]. }
  rewrite Hex. unfold touch. do 2 f_equal.
  apply map_ext_in; intros r Hr.
  destruct (String.eqb_spec (id r) (id p)) as [Hid|Hid].
  - assert (r = p) by (eapply NoDup_map_inj; eauto using primary_key).
    subst r. now rewrite Hkey.
  - destruct (same_key u v r) eqn:Hk; [exfalso|reflexivity].
    apply Hid. f_equal.
    apply (NoDup_map_inj (fun r => (userId r, videoId r)) (userVideoProgress db));
      auto using unique_pair.
    apply same_key_true in Hk as [-> ->], Hkey as [-> ->]; reflexivity.
Qed.

(** The branch taken when no record exists, for an existing user and an
    existing video. *)
Lemma setCompletion_absent (env : Env) (u v : string) (c : bool) (db : Db) :
  fresh env db ->
  records_of u v db = [] ->
  In u (users db) -> In v (videos db) ->
  setCompletion env u v c db = (Ok tt, insert env c u v db).
Proof.
  intros Hfresh Hrec Hu Hv.
  unfold setCompletion, bind, findUnique.
  destruct (find (same_key u v) (userVideoProgress db)) as [p|] eqn:Hfind.
  - apply find_some in Hfind as [Hin Hkey].
    assert (In p (records_of u v db)) by (apply filter_In; auto).
    rewrite Hrec in *; contradiction.
  - unfold create.
    destruct (existsb _ (userVideoProgress db)) eqn:Hex.
    + apply existsb_exists in Hex as (r & Hin & Hr).
      apply orb_true_iff in Hr as [Hr|Hr].
      * apply String.eqb_eq in Hr. exfalso; apply Hfresh. rewrite <- Hr.
        now apply in_map.
      * rewrite (find_none _ _ Hfind r Hin) in Hr; discriminate.
    + rewrite (proj2 (existsb_eqb_In u (users db)) Hu),
              (proj2 (existsb_eqb_In v (videos db)) Hv).
      reflexivity.
Qed.

Lemma records_of_touch (env : Env) (c : bool) (u v : string) (db : Db) :
  records_of u v (touch env c u v db)
  = map (set_completed env c) (records_of u v db).
Proof.
  unfold records_of, touch; simpl.
  induction (userVideoProgress db) as [|r rows IH]; simpl; [reflexivity|].
  destruct (same_key u v r) eqn:Hk; simpl.
  - unfold same_key in *; simpl; rewrite Hk; simpl. now rewrite IH.
  - rewrite Hk. exact IH.
Qed.

Lemma records_of_insert (env : Env) (c : bool) (u v : string) (db : Db) :
  records_of u v (insert env c u v db)
  = records_of u v db
    ++ [ {| id := cuid env; userId := u; videoId := v;
            completed := c; updatedAt := now env |} ].
Proof.
  unfold records_of, insert; simpl. rewrite filter_app; simpl.
  unfold same_key at 2; simpl. now rewrite !String.eqb_refl.
Qed.

Lemma consistent_touch (env : Env) (c : bool) (u v : string) (db : Db) :
  consistent db -> consistent (touch env c u v db).
Proof.
  intros [Hpk Huq Hfk]; split; unfold touch; simpl.
  - rewrite map_map.
    erewrite map_ext; [exact Hpk|]. intros r; now destruct (same_key u v r).
  - rewrite map_map.
    erewrite map_ext; [exact Huq|]. intros r; now destruct (same_key u v r).
  - rewrite Forall_forall in *. intros r' Hin.
    apply in_map_iff in Hin as (r & <- & Hin).
    destruct (same_key u v r); simpl; now apply Hfk.
Qed.

Lemma consistent_insert (env : Env) (c : bool) (u v : string) (db : Db) :
  consistent db -> fresh env db -> records_of u v db = [] ->
  In u (users db) -> In v (videos db) ->
  consistent (insert env c u v db).
Proof.
  intros [Hpk Huq Hfk] Hfresh Hrec Hu Hv; split; unfold insert; simpl.
  - rewrite map_app; simpl. now apply NoDup_snoc.
  - rewrite map_app; simpl. apply NoDup_snoc; [assumption|].
    intros Hin. apply in_map_iff in Hin as (r & Hkey & Hin).
    assert (In r (records_of u v db)).
    { apply filter_In; split; [assumption|].
      apply same_key_true. now inversion Hkey. }
    rewrite Hrec in *; contradiction.
  - apply Forall_app; split; [assumption|].
    constructor; [simpl; auto | constructor].
Qed.

(** A call that finds the record with the flag it is asked to set changes
    nothing but the time of the record. *)
Lemma without_time_touch (env : Env) (c : bool) (u v : string) (db : Db)
      (p : UserVideoProgress) :
  records_of u v db = [p] -> completed p = c ->
  without_time (touch env c u v db) = without_time db.
Proof.
  intros Hrec Hp. unfold without_time, touch; simpl. f_equal.
  rewrite map_map. apply map_ext_in; intros r Hr.
  destruct (same_key u v r) eqn:Hk; [|reflexivity].
  assert (Hin : In r (records_of u v db)) by (apply filter_In; auto).
  rewrite Hrec in Hin; destruct Hin as [<-|[]]. simpl. now rewrite Hp.
Qed.

(** A record of a missing user or a missing video cannot be in a consistent
    database. *)
Lemma no_record_of_missing (u v : string) (db : Db) :
  consistent db ->
  ~ In u (users db) \/ ~ In v (videos db) ->
  find (same_key u v) (userVideoProgress db) = None.
Proof.
  intros [_ _ Hfk] Hmiss.
  destruct (find (same_key u v) (userVideoProgress db)) as [p|] eqn:Hfind;
    [exfalso|reflexivity].
  apply find_some in Hfind as [Hin Hkey].
  apply same_key_true in Hkey as [<- <-].
  rewrite Forall_forall in Hfk. destruct (Hfk p Hin). tauto.
Qed.

End StoreFacts.

(* ------------------------------------------------------------------ *)
(** *** Claims on the progress store *)

Section StoreClaims.

Import ProgressStore.

Local Open Scope string_scope.

(** The first call for an existing user and an existing video succeeds and
    leaves exactly one record of the pair, whichever branch it takes. *)
Lemma setCompletion_first (env : Env) (u v : string) (c : bool) (db : Db) :
  consistent db -> fresh env db ->
  In u (users db) -> In v (videos db) ->
  exists db1 p1,
    setCompletion env u v c db = (Ok tt, db1)
    /\ consistent db1
    /\ users db1 = users db /\ videos db1 = videos db
    /\ records_of u v db1 = [p1]
    /\ completed p1 = c /\ updatedAt p1 = now env.
Proof.
  intros Hc Hfresh Hu Hv.
  destruct (find (same_key u v) (userVideoProgress db)) as [p|] eqn:Hfind.
  - pose proof (find_some_records _ _ _ _ Hc Hfind) as Hrec.
    exists (touch env c u v db), (set_completed env c p).
    rewrite records_of_touch, Hrec.
    split_ands; auto using consistent_touch.
    eapply setCompletion_existing; eauto.
  - pose proof (find_none_records _ _ _ Hfind) as Hrec.
    eexists (insert env c u v db), _.
    rewrite records_of_insert, Hrec.
    split_ands; try reflexivity; auto using consistent_insert.
    now apply setCompletion_absent.
Qed.

(** Once the record is there with the flag asked for, any number of further
    calls succeed, keep the record and its key, and change only its time. *)
Lemma repeated_settled (u v : string) (c : bool) (envs : list Env) :
  forall (db : Db) (p : UserVideoProgress),
    consistent db -> records_of u v db = [p] -> completed p = c ->
    exists db' p',
      repeated envs u v c db = (Ok tt, db')
      /\ consistent db'
      /\ records_of u v db' = [p']
      /\ completed p' = c /\ id p' = id p
      /\ updatedAt p' = last (map now envs) (updatedAt p)
      /\ without_time db' = without_time db.
Proof.
  induction envs as [|env envs IH]; intros db p Hc Hrec Hp.
  - exists db, p; simpl; split_ands; auto.
  - assert (Hrec1 : records_of u v (touch env c u v db) = [set_completed env c p])
      by now rewrite records_of_touch, Hrec.
    destruct (IH (touch env c u v db) (set_completed env c p))
      as (db' & p' & Hrun & Hc' & Hrec' & Hp' & Hid & Htime & Hsame);
      auto using consistent_touch.
    exists db', p'. simpl repeated. unfold bind at 1.
    rewrite (setCompletion_existing env u v c db p Hc Hrec), Hrun.
    split_ands; auto.
    + rewrite Htime; simpl. destruct envs; [reflexivity | apply last_default].
    + rewrite Hsame. eapply without_time_touch; eauto.
Qed.

(** C3, as the code has it.  For an existing user [u] and an existing video
    [v], in a database that satisfies the constraints of the schema, any
    number of calls [setCompletion(u, v, c)] (the first one at [env], the
    others at [envs]) all succeed and leave exactly one record of [(u, v)],
    with [completed = c]; its [updatedAt] is the time of the last call, and
    apart from [updatedAt] the final database is the one the first call
    alone produces, whatever the number of calls. *)
Theorem setCompletion_idempotent
        (db : Db) (u v : string) (c : bool) (env : Env) (envs : list Env) :
  consistent db ->
  In u (users db) -> In v (videos db) ->
  fresh env db ->
  exists db1 dbN r,
    setCompletion env u v c db = (Ok tt, db1)
    /\ repeated (env :: envs) u v c db = (Ok tt, dbN)
    /\ consistent dbN
    /\ records_of u v dbN = [r]
    /\ completed r = c
    /\ updatedAt r = last (map now envs) (now env)
    /\ without_time dbN = without_time db1.
Proof.
  intros Hc Hu Hv Hfresh.
  destruct (setCompletion_first env u v c db Hc Hfresh Hu Hv)
    as (db1 & p1 & Hrun1 & Hc1 & _ & _ & Hrec1 & Hp1 & Ht1).
  destruct (repeated_settled u v c envs db1 p1 Hc1 Hrec1 Hp1)
    as (dbN & r & HrunN & HcN & HrecN & Hr & _ & Htime & Hsame).
  exists db1, dbN, r. simpl repeated. unfold bind at 1. rewrite Hrun1, HrunN.
  split_ands; auto. now rewrite Htime, Ht1.
Qed.

Lemma setCompletion_idempotent_witness :
  exists db1 dbN r,
    setCompletion {| now := 1000; cuid := "c1" |} "u1" "v1" true
                  {| users := ["u1"]; videos := ["v1"]; userVideoProgress := [] |}
    = (Ok tt, db1)
    /\ repeated [ {| now := 1000; cuid := "c1" |};
                  {| now := 2000; cuid := "c2" |};
                  {| now := 3000; cuid := "c3" |} ] "u1" "v1" true
                {| users := ["u1"]; videos := ["v1"]; userVideoProgress := [] |}
       = (Ok tt, dbN)
    /\ consistent dbN
    /\ records_of "u1" "v1" dbN = [r]
    /\ completed r = true
    /\ updatedAt r = 3000%Z
    /\ without_time dbN = without_time db1.
Proof.
  apply (setCompletion_idempotent
           {| users := ["u1"]; videos := ["v1"]; userVideoProgress := [] |}
           "u1" "v1" true {| now := 1000; cuid := "c1" |}
           [ {| now := 2000; cuid := "c2" |}; {| now := 3000; cuid := "c3" |} ]).
  - split; simpl; constructor.
  - simpl; auto.
  - simpl; auto.
  - unfold fresh; simpl; tauto.
Defined.

(** C3 as stated fails on the time of the record: after two calls and after
    three calls the database holds the same single record, but with the
    [updatedAt] of the second and of the third call, so the two final
    databases are not identical. *)
Lemma call_count_shows_in_updatedAt :
  repeated [ {| now := 1000; cuid := "c1" |}; {| now := 2000; cuid := "c2" |} ]
           "u1" "v1" true
           {| users := ["u1"]; videos := ["v1"]; userVideoProgress := [] |}
  = (Ok tt,
     {| users := ["u1"]; videos := ["v1"];
        userVideoProgress :=
          [ {| id := "c1"; userId := "u1"; videoId := "v1";
               completed := true; updatedAt := 2000 |} ] |})
  /\ repeated [ {| now := 1000; cuid := "c1" |}; {| now := 2000; cuid := "c2" |};
                {| now := 3000; cuid := "c3" |} ]
              "u1" "v1" true
              {| users := ["u1"]; videos := ["v1"]; userVideoProgress := [] |}
     = (Ok tt,
        {| users := ["u1"]; videos := ["v1"];
           userVideoProgress :=
             [ {| id := "c1"; userId := "u1"; videoId := "v1";
                  completed := true; updatedAt := 3000 |} ] |})
  /\ snd (repeated [ {| now := 1000; cuid := "c1" |}; {| now := 2000; cuid := "c2" |} ]
                   "u1" "v1" true
                   {| users := ["u1"]; videos := ["v1"]; userVideoProgress := [] |})
     <> snd (repeated [ {| now := 1000; cuid := "c1" |}; {| now := 2000; cuid := "c2" |};
                        {| now := 3000; cuid := "c3" |} ]
                      "u1" "v1" true
                      {| users := ["u1"]; videos := ["v1"]; userVideoProgress := [] |}).
Proof.
  split; [reflexivity | split; [reflexivity | vm_compute; discriminate]].
Qed.

(** C4.  For an existing user and an existing video, [setCompletion(u, v, true)]
    followed by [setCompletion(u, v, false)]: both calls succeed, each leaves
    exactly one record of [(u, v)], the final one has [completed = false],
    and the second call rewrites the record of the first in place: same
    primary key, same number of rows, every other row as it was. *)
Theorem setCompletion_toggle (db : Db) (u v : string) (env1 env2 : Env) :
  consistent db ->
  In u (users db) -> In v (videos db) ->
  fresh env1 db ->
  exists db1 db2 r1 r2,
    setCompletion env1 u v true db = (Ok tt, db1)
    /\ setCompletion env2 u v false db1 = (Ok tt, db2)
    /\ records_of u v db1 = [r1] /\ completed r1 = true
    /\ records_of u v db2 = [r2] /\ completed r2 = false
    /\ id r2 = id r1
    /\ List.length (userVideoProgress db2) = List.length (userVideoProgress db1)
    /\ userVideoProgress db2
       = map (fun r => if same_key u v r then set_completed env2 false r else r)
             (userVideoProgress db1)
    /\ consistent db2.
Proof.
  intros Hc Hu Hv Hfresh.
  destruct (setCompletion_first env1 u v true db Hc Hfresh Hu Hv)
    as (db1 & r1 & Hrun1 & Hc1 & _ & _ & Hrec1 & Hp1 & _).
  exists db1, (touch env2 false u v db1), r1, (set_completed env2 false r1).
  rewrite records_of_touch, Hrec1.
  split_ands; auto using consistent_touch.
  - eapply setCompletion_existing; eauto.
  - unfold touch; simpl. apply length_map.
Qed.

Lemma setCompletion_toggle_witness :
  exists db1 db2 r1 r2,
    setCompletion {| now := 1000; cuid := "c1" |} "u1" "v1" true
                  {| users := ["u1"]; videos := ["v1"]; userVideoProgress := [] |}
    = (Ok tt, db1)
    /\ setCompletion {| now := 2000; cuid := "c2" |} "u1" "v1" false db1 = (Ok tt, db2)
    /\ records_of "u1" "v1" db1 = [r1] /\ completed r1 = true
    /\ records_of "u1" "v1" db2 = [r2] /\ completed r2 = false
    /\ id r2 = id r1
    /\ List.length (userVideoProgress db2) = List.length (userVideoProgress db1)
    /\ userVideoProgress db2
       = map (fun r => if same_key "u1" "v1" r
                       then set_completed {| now := 2000; cuid := "c2" |} false r
                       else r)
             (userVideoProgress db1)
    /\ consistent db2.
Proof.
  apply (setCompletion_toggle
           {| users := ["u1"]; videos := ["v1"]; userVideoProgress := [] |}
           "u1" "v1" {| now := 1000; cuid := "c1" |} {| now := 2000; cuid := "c2" |}).
  - split; simpl; constructor.
  - simpl; auto.
  - simpl; auto.
  - unfold fresh; simpl; tauto.
Defined.

(** C8.  In a database that satisfies the constraints of the schema, a call
    whose user or whose video does not exist is rejected by the foreign key
    of the insert (the failure the specification names NotFound): no record
    of the pair exists, none is created, and the database is the one the
    call started from.  The action of the route throws the same error. *)
Theorem setCompletion_missing_reference
        (db : Db) (u v : string) (c : bool) (env : Env) :
  consistent db ->
  fresh env db ->
  ~ In u (users db) \/ ~ In v (videos db) ->
  setCompletion env u v c db = (Threw ForeignKeyConstraintFailed, db)
  /\ records_of u v db = []
  /\ forall form,
       v <> "" ->
       action env u (Some v) form db = (Threw ForeignKeyConstraintFailed, db).
Proof.
  intros Hc Hfresh Hmiss.
  pose proof (no_record_of_missing u v db Hc Hmiss) as Hfind.
  assert (Hrun : forall c', setCompletion env u v c' db
                            = (Threw ForeignKeyConstraintFailed, db)).
  { intros c'. unfold setCompletion, bind, findUnique; rewrite Hfind.
    unfold create.
    destruct (existsb _ (userVideoProgress db)) eqn:Hex.
    - apply existsb_exists in Hex as (r & Hin & Hr).
      apply orb_true_iff in Hr as [Hr|Hr].
      + apply String.eqb_eq in Hr. exfalso; apply Hfresh. rewrite <- Hr.
        now apply in_map.
      + rewrite (find_none _ _ Hfind r Hin) in Hr; discriminate.
    - destruct (existsb (String.eqb u) (users db)) eqn:Eu;
        destruct (existsb (String.eqb v) (videos db)) eqn:Ev; try reflexivity.
      apply existsb_eqb_In in Eu, Ev. tauto. }
  split_ands.
  - apply Hrun.
  - now apply find_none_records.
  - intros form Hv. destruct v as [|a v']; [contradiction|].
    unfold action, bind. now rewrite Hrun.
Qed.

Lemma setCompletion_missing_reference_witness :
  setCompletion {| now := 1000; cuid := "c1" |} "u1" "v9" true
                {| users := ["u1"]; videos := ["v1"]; userVideoProgress := [] |}
  = (Threw ForeignKeyConstraintFailed,
     {| users := ["u1"]; videos := ["v1"]; userVideoProgress := [] |}).
Proof.
  refine (proj1 (setCompletion_missing_reference
                   {| users := ["u1"]; videos := ["v1"]; userVideoProgress := [] |}
                   "u1" "v9" true {| now := 1000; cuid := "c1" |} _ _ _)).
  - split; simpl; constructor.
  - unfold fresh; simpl; tauto.
  - right; simpl. intros [H|[]]; discriminate H.
Defined.

(** What [find] returns, read off the list: the first element that passes
    the test, with those before it failing it. *)
Lemma find_first {A : Type} (f : A -> bool) (l : list A) (x : A) :
  find f l = Some x
  <-> exists before after,
        l = (before ++ x :: after)%list
        /\ Forall (fun e => f e = false) before /\ f x = true.
Proof.
  induction l as [|a l IH]; simpl.
  - split; [discriminate|]. intros (before & after & H & _).
    destruct before; discriminate H.
  - destruct (f a) eqn:Ha; split.
    + intros [= ->]. exists [], l.
      split; [reflexivity | split; [constructor | assumption]].
    + intros (before & after & H & Hall & Hx).
      destruct before as [|b before]; simpl in H; injection H as -> ->.
      * reflexivity.
      * inversion Hall; congruence.
    + intros H. apply IH in H as (before & after & -> & Hall & Hx).
      exists (a :: before), after. split; [reflexivity|].
      split; [constructor; assumption | assumption].
    + intros (before & after & H & Hall & Hx).
      destruct before as [|b before]; simpl in H; injection H as -> ->.
      * congruence.
      * apply IH. exists before, after. inversion Hall; auto.
Qed.

(** The flag read from the form, in terms of the entries of the form alone:
    it is [true] exactly when the first entry named [completed] holds the
    string [true]. *)
Lemma completed_of_form_true (form : FormData) :
  completed_of_form form = true
  <-> exists before after,
        form = (before ++ ("completed", FString "true") :: after)%list
        /\ Forall (fun e => fst e <> "completed") before.
Proof.
  unfold completed_of_form, form_get. split.
  - destruct (find _ form) as [[name value]|] eqn:Hfind; simpl; [|discriminate].
    apply find_first in Hfind as (before & after & -> & Hall & Hname).
    simpl in Hname. apply String.eqb_eq in Hname. subst name.
    destruct value as [s0|f]; [|discriminate].
    intros Hs. apply String.eqb_eq in Hs. subst s0.
    exists before, after. split; [reflexivity|].
    eapply Forall_impl; [|exact Hall]. intros e He. now apply String.eqb_neq.
  - intros (before & after & -> & Hall).
    assert (Hfind : find (fun e => fst e =? "completed")
                         (before ++ ("completed", FString "true") :: after)%list
                    = Some ("completed", FString "true")).
    { apply find_first. exists before, after. split; [reflexivity|].
      split; [|reflexivity].
      eapply Forall_impl; [|exact Hall]. intros e He. now apply String.eqb_neq. }
    rewrite Hfind. reflexivity.
Qed.

(** C10.  The flag the action stores is [true] exactly when the first entry
    of the submitted form named [completed] holds the string [true].  For
    every other form (no such entry, a file, any other string such as
    [True] or [1]) the action does not fail on the flag: for an existing
    user and an existing video it succeeds and leaves the single record of
    the pair with [completed = false]. *)
Theorem completed_flag_is_strict
        (form : FormData) (db : Db) (u v : string) (env : Env) :
  consistent db ->
  In u (users db) -> In v (videos db) -> v <> "" ->
  fresh env db ->
  exists db' r,
    action env u (Some v) form db = (Ok JsonSuccess, db')
    /\ records_of u v db' = [r]
    /\ (completed r = true
        <-> exists before after,
              form = (before ++ ("completed", FString "true") :: after)%list
              /\ Forall (fun e => fst e <> "completed") before)
    /\ (Forall (fun e => fst e <> "completed") form -> completed r = false)
    /\ (forall before value after,
          form = (before ++ ("completed", value) :: after)%list ->
          Forall (fun e => fst e <> "completed") before ->
          value <> FString "true" ->
          completed r = false).
Proof.
  intros Hc Hu Hv Hne Hfresh.
  destruct (setCompletion_first env u v (completed_of_form form) db Hc Hfresh Hu Hv)
    as (db1 & r & Hrun & _ & _ & _ & Hrec & Hr & _).
  exists db1, r. destruct v as [|a v']; [contradiction|].
  unfold action, bind. rewrite Hrun. split_ands; auto.
  - rewrite Hr. apply completed_of_form_true.
  - intros Hnone. rewrite Hr.
    destruct (completed_of_form form) eqn:E; [exfalso|reflexivity].
    apply completed_of_form_true in E as (before & after & -> & _).
    rewrite Forall_forall in Hnone.
    apply (Hnone ("completed", FString "true")); [|reflexivity].
    apply in_or_app; right; now left.
  - intros before value after -> Hall Hvalue. rewrite Hr.
    unfold completed_of_form, form_get.
    assert (Hfind : find (fun e => fst e =? "completed")
                         (before ++ ("completed", value) :: after)%list
                    = Some ("completed", value)).
    { apply find_first. exists before, after. split; [reflexivity|].
      split; [|reflexivity].
      eapply Forall_impl; [|exact Hall]. intros e He. now apply String.eqb_neq. }
    rewrite Hfind. simpl. destruct value as [s0|f]; [|reflexivity].
    apply String.eqb_neq. congruence.
Qed.

Lemma completed_flag_is_strict_witness :
  (exists db' r,
     action {| now := 1000; cuid := "c1" |} "u1" (Some "v1")
            [("other", FString "x"); ("completed", FString "true")]
            {| users := ["u1"]; videos := ["v1"]; userVideoProgress := [] |}
     = (Ok JsonSuccess, db')
     /\ records_of "u1" "v1" db' = [r]
     /\ completed r = true)
  /\ (exists db' r,
        action {| now := 1000; cuid := "c1" |} "u1" (Some "v1")
               [("completed", FString "True")]
               {| users := ["u1"]; videos := ["v1"]; userVideoProgress := [] |}
        = (Ok JsonSuccess, db')
        /\ records_of "u1" "v1" db' = [r]
        /\ completed r = false).
Proof.
  split.
  - destruct (completed_flag_is_strict
                [("other", FString "x"); ("completed", FString "true")]
                {| users := ["u1"]; videos := ["v1"]; userVideoProgress := [] |}
                "u1" "v1" {| now := 1000; cuid := "c1" |})
      as (db' & r & Hrun & Hrec & Hiff & _ & _).
    + split; simpl; constructor.
    + simpl; auto.
    + simpl; auto.
    + discriminate.
    + unfold fresh; simpl; tauto.
    + exists db', r. split; [exact Hrun|]. split; [exact Hrec|].
      apply Hiff. exists [("other", FString "x")], []. split; [reflexivity|].
      constructor; [discriminate | constructor].
  - destruct (completed_flag_is_strict
                [("completed", FString "True")]
                {| users := ["u1"]; videos := ["v1"]; userVideoProgress := [] |}
                "u1" "v1" {| now := 1000; cuid := "c1" |})
      as (db' & r & Hrun & Hrec & _ & _ & Hother).
    + split; simpl; constructor.
    + simpl; auto.
    + simpl; auto.
    + discriminate.
    + unfold fresh; simpl; tauto.
    + exists db', r. split; [exact Hrun|]. split; [exact Hrec|].
      apply (Hother [] (FString "True") []);
        [reflexivity | constructor | discriminate].
Defined.

(** The values the claim names: an absent field, [True], [1], and a second
    [completed] entry after a first one. *)
Example completed_of_form_examples :
  completed_of_form [] = false
  /\ completed_of_form [("completed", FString "True")] = false
  /\ completed_of_form [("completed", FString "1")] = false
  /\ completed_of_form [("completed", FFile "true")] = false
  /\ completed_of_form [("completed", FString "false"); ("completed", FString "true")] = false
  /\ completed_of_form [("other", FString "x"); ("completed", FString "true")] = true.
Proof. repeat split. Qed.

End StoreClaims.

(* ================================================================== *)
(** ** Properties of binary64 rounding *)
(* ================================================================== *)

Section Binary64Facts.
Import Binary64.
Local Open Scope Q_scope.

Lemma rne_floor (q : Q) :
  (rne q = Qfloor q /\ q - inject_Z (Qfloor q) <= 1 # 2)
  \/ (rne q = (Qfloor q + 1)%Z /\ 1 # 2 <= q - inject_Z (Qfloor q)).
Proof.
  unfold rne.
  destruct (Qcompare_spec (q - inject_Z (Qfloor q)) (1 # 2)) as [H|H|H].
  - destruct (Z.even (Qfloor q)); [left | right]; split; auto; rewrite H; apply Qle_refl.
  - left; split; auto. now apply Qlt_le_weak.
  - right; split; auto. now apply Qlt_le_weak.
Qed.

Lemma rne_mono (x y : Q) : x <= y -> (rne x <= rne y)%Z.
Proof.
  intros Hxy. pose proof (Qfloor_resp_le x y Hxy) as Hf.
  destruct (Z.eq_dec (Qfloor x) (Qfloor y)) as [E|E].
  - unfold rne. rewrite E.
    destruct (Qcompare_spec (x - inject_Z (Qfloor y)) (1 # 2)) as [Hx|Hx|Hx];
      destruct (Qcompare_spec (y - inject_Z (Qfloor y)) (1 # 2)) as [Hy|Hy|Hy];
      destruct (Z.even (Qfloor y)); try lia; exfalso; lra.
  - destruct (rne_floor x) as [[-> _]|[-> _]], (rne_floor y) as [[-> _]|[-> _]]; lia.
Qed.

Lemma rne_inject_Z (z : Z) : rne (inject_Z z) = z.
Proof.
  unfold rne. rewrite Qfloor_Z.
  destruct (Qcompare_spec (inject_Z z - inject_Z z) (1 # 2)) as [H|H|H];
    [exfalso; lra | reflexivity | exfalso; lra].
Qed.

Lemma rne_error (q : Q) : Qabs (inject_Z (rne q) - q) <= 1 # 2.
Proof.
  pose proof (Qfloor_le q) as Hlo. pose proof (Qlt_floor q) as Hhi.
  rewrite inject_Z_plus in Hhi. change (inject_Z 1) with 1 in Hhi.
  apply Qabs_Qle_condition.
  destruct (rne_floor q) as [[-> H]|[-> H]]; rewrite ?inject_Z_plus;
    change (inject_Z 1) with 1; split; lra.
Qed.

Lemma two_pos (e : Z) : 0 < 2 ^ e.
Proof. now apply Qpower_0_lt. Qed.

Lemma two_plus (a b : Z) : 2 ^ (a + b) == 2 ^ a * 2 ^ b.
Proof. apply Qpower_plus. discriminate. Qed.

Lemma two_succ (a : Z) : 2 ^ (a + 1) == 2 * 2 ^ a.
Proof. rewrite two_plus. change (2 ^ 1) with 2. ring. Qed.

Lemma two_le (a b : Z) : (a <= b)%Z -> 2 ^ a <= 2 ^ b.
Proof. intros H. apply Qpower_le_compat_l; [assumption | discriminate]. Qed.

Lemma two_lt_inv (a b : Z) : 2 ^ a < 2 ^ b -> (a < b)%Z.
Proof. intros H. apply (Qpower_lt_compat_l_inv 2); [assumption | reflexivity]. Qed.

Lemma two_log2 (n : Z) :
  (0 < n)%Z -> 2 ^ Z.log2 n <= inject_Z n /\ inject_Z n < 2 * 2 ^ Z.log2 n.
Proof.
  intros Hn. destruct (Z.log2_spec n Hn) as [Hlo Hhi].
  pose proof (Z.log2_nonneg n) as Hnn.
  rewrite <- two_succ.
  change 2 with (inject_Z 2).
  rewrite <- !Zpower_Qpower by lia.
  rewrite <- Zle_Qle, <- Zlt_Qlt. split; [assumption|].
  now replace (Z.log2 n + 1)%Z with (Z.succ (Z.log2 n)) by lia.
Qed.

Lemma exponent_spec (q : Q) :
  0 < q -> 2 ^ exponent q <= q /\ q < 2 ^ (exponent q + 1).
Proof.
  intros Hq. unfold exponent.
  destruct q as [n d]. simpl Qnum; simpl Qden.
  assert (Hn : (0 < n)%Z) by (unfold Qlt in Hq; simpl in Hq; lia).
  destruct (two_log2 n Hn) as [Hn1 Hn2].
  destruct (two_log2 (Zpos d) (Pos2Z.is_pos d)) as [Hd1 Hd2].
  set (a := Z.log2 n) in *. set (b := Z.log2 (Zpos d)) in *.
  assert (HK : 2 ^ a == 2 ^ (a - b) * 2 ^ b).
  { rewrite <- two_plus. now replace (a - b + b)%Z with a by lia. }
  pose proof (two_pos (a - b)) as HKpos. pose proof (two_pos b) as HBpos.
  assert (Hqd : n # d == inject_Z n / inject_Z (Zpos d)) by apply Qmake_Qdiv.
  assert (HD : 0 < inject_Z (Zpos d)) by (change 0 with (inject_Z 0); rewrite <- Zlt_Qlt; lia).
  set (K := 2 ^ (a - b)) in *. set (B := 2 ^ b) in *. set (A := 2 ^ a) in *.
  set (N := inject_Z n) in *. set (D := inject_Z (Zpos d)) in *.
  assert (Hup : n # d < 2 * K).
  { rewrite Hqd. apply Qlt_shift_div_r; [assumption|].
    apply Qlt_le_trans with (2 * A); [assumption|].
    rewrite HK. rewrite <- Qmult_assoc.
    apply Qmult_le_l; [reflexivity|]. apply Qmult_le_l; assumption. }
  assert (Hlow : K < 2 * (n # d)).
  { rewrite Hqd.
    setoid_replace (2 * (N / D)) with ((2 * N) / D) by (field; lra).
    apply Qlt_shift_div_l; [assumption|].
    apply Qlt_le_trans with (2 * A); [|lra].
    rewrite HK.
    setoid_replace (2 * (K * B)) with (K * (2 * B)) by ring.
    apply Qmult_lt_l; assumption. }
  destruct (Qle_bool K (n # d)) eqn:Hb.
  - apply Qle_bool_iff in Hb. split; [assumption|].
    fold K. rewrite two_succ. exact Hup.
  - assert (Hlt : n # d < K).
    { apply Qnot_le_lt. intros H. apply Qle_bool_iff in H. congruence. }
    replace (a - b - 1 + 1)%Z with (a - b)%Z by lia. fold K.
    split; [|assumption].
    assert (E : K == 2 * 2 ^ (a - b - 1)).
    { unfold K. rewrite <- two_succ. now replace (a - b - 1 + 1)%Z with (a - b)%Z by lia. }
    lra.
Qed.

Lemma exponent_unique (q : Q) (e : Z) :
  2 ^ e <= q -> q < 2 ^ (e + 1) -> exponent q = e.
Proof.
  intros Hlo Hhi.
  assert (Hq : 0 < q) by (eapply Qlt_le_trans; [apply two_pos | exact Hlo]).
  destruct (exponent_spec q Hq) as [Hlo' Hhi'].
  assert (H1 : (e < exponent q + 1)%Z)
    by (apply two_lt_inv; eapply Qle_lt_trans; eassumption).
  assert (H2 : (exponent q < e + 1)%Z)
    by (apply two_lt_inv; eapply Qle_lt_trans; eassumption).
  lia.
Qed.

Lemma round_positive (q : Q) :
  0 < q ->
  round q = inject_Z (rne (q / 2 ^ (exponent q - 52))) * 2 ^ (exponent q - 52).
Proof.
  intros Hq. unfold round.
  assert (E : Qcompare q 0 = Gt) by now apply Qgt_alt.
  now rewrite E.
Qed.

Lemma round_zero (q : Q) : q == 0 -> round q = 0.
Proof.
  intros Hq. unfold round.
  assert (E : Qcompare q 0 = Eq) by now apply Qeq_alt.
  now rewrite E.
Qed.

(** The significand of a positive number has 53 bits. *)
Lemma significand_bounds (q : Q) :
  0 < q ->
  (2 ^ 52 <= rne (q / 2 ^ (exponent q - 52)) <= 2 ^ 53)%Z
  /\ inject_Z (2 ^ 52) <= q / 2 ^ (exponent q - 52)
  /\ q / 2 ^ (exponent q - 52) <= inject_Z (2 ^ 53).
Proof.
  intros Hq. destruct (exponent_spec q Hq) as [Hlo Hhi].
  set (e := exponent q) in *. pose proof (two_pos (e - 52)) as Hs.
  assert (E1 : 2 ^ e == inject_Z (2 ^ 52) * 2 ^ (e - 52)).
  { rewrite Zpower_Qpower by lia. change (inject_Z 2) with 2.
    rewrite <- two_plus. now replace (52 + (e - 52))%Z with e by lia. }
  assert (E2 : 2 ^ (e + 1) == inject_Z (2 ^ 53) * 2 ^ (e - 52)).
  { rewrite Zpower_Qpower by lia. change (inject_Z 2) with 2.
    rewrite <- two_plus. now replace (53 + (e - 52))%Z with (e + 1)%Z by lia. }
  assert (H1 : inject_Z (2 ^ 52) <= q / 2 ^ (e - 52)).
  { apply Qle_shift_div_l; [assumption|]. now rewrite <- E1. }
  assert (H2 : q / 2 ^ (e - 52) <= inject_Z (2 ^ 53)).
  { apply Qle_shift_div_r; [assumption|]. rewrite <- E2. now apply Qlt_le_weak. }
  split; [|split; assumption]. split.
  - rewrite <- (rne_inject_Z (2 ^ 52)). now apply rne_mono.
  - rewrite <- (rne_inject_Z (2 ^ 53)). now apply rne_mono.
Qed.

Lemma round_bounds (q : Q) :
  0 < q -> 2 ^ exponent q <= round q /\ round q <= 2 ^ (exponent q + 1).
Proof.
  intros Hq. rewrite round_positive by assumption.
  destruct (significand_bounds q Hq) as [[Hlo Hhi] _].
  set (e := exponent q) in *. pose proof (two_pos (e - 52)) as Hs.
  assert (E1 : 2 ^ e == inject_Z (2 ^ 52) * 2 ^ (e - 52)).
  { rewrite Zpower_Qpower by lia. change (inject_Z 2) with 2.
    rewrite <- two_plus. now replace (52 + (e - 52))%Z with e by lia. }
  assert (E2 : 2 ^ (e + 1) == inject_Z (2 ^ 53) * 2 ^ (e - 52)).
  { rewrite Zpower_Qpower by lia. change (inject_Z 2) with 2.
    rewrite <- two_plus. now replace (53 + (e - 52))%Z with (e + 1)%Z by lia. }
  rewrite E1, E2. split; apply Qmult_le_compat_r;
    try (now apply Qlt_le_weak); now rewrite <- Zle_Qle.
Qed.

Lemma round_pos (q : Q) : 0 < q -> 0 < round q.
Proof.
  intros Hq. eapply Qlt_le_trans; [apply two_pos | apply round_bounds, Hq].
Qed.

Lemma round_nonneg (q : Q) : 0 <= q -> 0 <= round q.
Proof.
  intros Hq. destruct (Qlt_le_dec 0 q) as [H|H].
  - now apply Qlt_le_weak, round_pos.
  - rewrite round_zero; [apply Qle_refl | now apply Qle_antisym].
Qed.

Lemma round_mono_pos (x y : Q) : 0 < x -> x <= y -> round x <= round y.
Proof.
  intros Hx Hxy.
  assert (Hy : 0 < y) by (eapply Qlt_le_trans; eassumption).
  destruct (exponent_spec x Hx) as [Hx1 Hx2], (exponent_spec y Hy) as [Hy1 Hy2].
  assert (Hle : (exponent x <= exponent y)%Z).
  { assert (exponent x < exponent y + 1)%Z; [|lia].
    apply two_lt_inv. eapply Qle_lt_trans; [exact Hx1|].
    eapply Qle_lt_trans; eassumption. }
  destruct (Z.eq_dec (exponent x) (exponent y)) as [E|E].
  - rewrite !round_positive by assumption. rewrite E.
    pose proof (two_pos (exponent y - 52)) as Hs.
    apply Qmult_le_compat_r; [|now apply Qlt_le_weak].
    rewrite <- Zle_Qle. apply rne_mono.
    apply Qmult_le_compat_r; [assumption|].
    now apply Qlt_le_weak, Qinv_lt_0_compat.
  - apply Qle_trans with (2 ^ (exponent x + 1)); [now apply round_bounds|].
    apply Qle_trans with (2 ^ exponent y); [apply two_le; lia | now apply round_bounds].
Qed.

(** Rounding never reverses the order of two numbers. *)
Lemma round_mono (x y : Q) : 0 <= x -> x <= y -> round x <= round y.
Proof.
  intros Hx Hxy. destruct (Qlt_le_dec 0 x) as [H|H].
  - now apply round_mono_pos.
  - rewrite (round_zero x) by now apply Qle_antisym.
    apply round_nonneg. eapply Qle_trans; eassumption.
Qed.

Lemma round_proper (x y : Q) : 0 <= x -> x == y -> round x == round y.
Proof.
  intros Hx E.
  assert (Hy : 0 <= y) by now rewrite <- E.
  apply Qle_antisym; apply round_mono; try assumption;
    rewrite E; apply Qle_refl.
Qed.

(** The result is within half a unit in the last place, which is at most
    the fraction [2 ^ -53] of the number. *)
Lemma round_error (q : Q) : 0 < q -> Qabs (round q - q) <= q * 2 ^ (-53).
Proof.
  intros Hq. rewrite round_positive by assumption.
  destruct (significand_bounds q Hq) as (_ & Hlo & _).
  set (s := (exponent q - 52)%Z) in *. pose proof (two_pos s) as Hs.
  set (m := rne (q / 2 ^ s)).
  pose proof (rne_error (q / 2 ^ s)) as Herr. fold m in Herr.
  assert (E : inject_Z m * 2 ^ s - q == (inject_Z m - q / 2 ^ s) * 2 ^ s)
    by (field; lra).
  rewrite E, Qabs_Qmult, (Qabs_pos (2 ^ s)) by now apply Qlt_le_weak.
  apply Qle_trans with ((1 # 2) * 2 ^ s).
  - apply Qmult_le_compat_r; [assumption | now apply Qlt_le_weak].
  - assert (H52 : inject_Z (2 ^ 52) * 2 ^ s <= q).
    { setoid_replace q with (q / 2 ^ s * 2 ^ s) by (field; lra).
      apply Qmult_le_compat_r; [|now apply Qlt_le_weak].
      destruct (significand_bounds q Hq) as (_ & H & _). exact H. }
    let c := eval vm_compute in (2 ^ (-53)) in change (2 ^ (-53)) with c.
    let c := eval vm_compute in (inject_Z (2 ^ 52)) in
      change (inject_Z (2 ^ 52)) with c in H52.
    lra.
Qed.

(** Numbers the loader meets that are binary64 numbers already. *)
Lemma round_1 : round 1 == 1.
Proof. vm_compute. reflexivity. Qed.

Lemma round_100 : round 100 == 100.
Proof. vm_compute. reflexivity. Qed.

(** The largest quotient below 1 that 53 bits can hold, and what 100 times
    it rounds to. *)
Lemma round_below_1 : round (1 - 2 ^ (-53)) == 1 - 2 ^ (-53).
Proof. vm_compute. reflexivity. Qed.

Lemma round_below_100 : round ((1 - 2 ^ (-53)) * 100) < 100.
Proof. vm_compute. reflexivity. Qed.

End Binary64Facts.


(* ================================================================== *)
(** ** Properties of the progress aggregation *)
(* ================================================================== *)

Section DashboardFacts.

Import Dashboard.

Local Open Scope Q_scope.

(** *** The loops, as counts *)

Lemma count_videos (progress : list ProgressStore.UserVideoProgress)
      (vs : list Video) (n : nat) :
  fold_left (count_video progress) vs n
  = (n + List.length (filter (counted progress) vs))%nat.
Proof.
  revert n; induction vs as [|v vs IH]; intros n; simpl; [lia|].
  rewrite IH. unfold count_video, counted.
  destruct (find _ progress) as [p|]; [destruct (ProgressStore.completed p)|];
    simpl; lia.
Qed.

Lemma count_chapters (progress : list ProgressStore.UserVideoProgress)
      (chs : list Chapter) (t c : nat) :
  fold_left (count_chapter progress) chs (t, c)
  = ((t + List.length (flat_map videos chs))%nat,
     (c + List.length (filter (counted progress) (flat_map videos chs)))%nat).
Proof.
  revert t c; induction chs as [|ch chs IH]; intros t c; simpl.
  - f_equal; lia.
  - rewrite count_videos, IH, filter_app, !length_app. f_equal; lia.
Qed.

Lemma map_course_counts (progress : list ProgressStore.UserVideoProgress)
      (acc : Acc) (uc : UserCourse) :
  map_course progress acc uc
  = {| totalVideos := (totalVideos acc + total_of (course uc))%nat;
       completedVideos := (completedVideos acc + counted_of progress (course uc))%nat;
       mapped := mapped acc ++ [with_progress progress uc] |}.
Proof.
  unfold map_course. rewrite count_chapters. reflexivity.
Qed.

Lemma map_courses (progress : list ProgressStore.UserVideoProgress)
      (cs : list UserCourse) (acc : Acc) :
  fold_left (map_course progress) cs acc
  = {| totalVideos := (totalVideos acc + sum_total cs)%nat;
       completedVideos :=
         (completedVideos acc
          + list_sum (map (fun uc => counted_of progress (course uc)) cs))%nat;
       mapped := mapped acc ++ map (with_progress progress) cs |}.
Proof.
  revert acc; induction cs as [|uc cs IH]; intros acc; simpl.
  - destruct acc; simpl. now rewrite !Nat.add_0_r, app_nil_r.
  - rewrite IH, map_course_counts. simpl.
    rewrite <- app_assoc. unfold sum_total; simpl.
    f_equal; lia.
Qed.

Lemma computeProgress_counts (u : UserWithCourses) :
  computeProgress u
  = {| overallProgress :=
         percentage
           (list_sum (map (fun uc => counted_of (progress u) (course uc)) (courses u)))
           (sum_total (courses u));
       coursesWithProgress := map (with_progress (progress u)) (courses u) |}.
Proof.
  unfold computeProgress. now rewrite map_courses.
Qed.

(** With at most one record per video, the first record of a video is its
    only record: the loops count what the specification counts. *)
Lemma counted_unique (progress : list ProgressStore.UserVideoProgress) (v : Video) :
  NoDup (map ProgressStore.videoId progress) ->
  counted progress v = has_completed_record progress v.
Proof.
  unfold counted, has_completed_record.
  induction progress as [|p ps IH]; simpl; intros Hnd; [reflexivity|].
  inversion Hnd as [|? ? Hp Hps]; subst.
  destruct (String.eqb_spec (ProgressStore.videoId p) (id v)) as [Heq|Hne]; simpl.
  - assert (Hrest : existsb
                      (fun p0 => (String.eqb (ProgressStore.videoId p0) (id v)
                                  && ProgressStore.completed p0)%bool) ps = false).
    { destruct (existsb _ ps) eqn:Hex; [exfalso|reflexivity].
      apply existsb_exists in Hex as (p' & Hin & Hp').
      apply andb_true_iff in Hp' as [Hid _]. apply String.eqb_eq in Hid.
      apply Hp. rewrite Heq, <- Hid. now apply in_map. }
    rewrite Hrest. now rewrite orb_false_r.
  - now apply IH.
Qed.

Lemma counted_of_unique (u : UserWithCourses) (c : Course) :
  one_record_per_video u ->
  counted_of (progress u) c = completed_of (progress u) c.
Proof.
  intros Hu. unfold counted_of, completed_of. f_equal.
  apply filter_ext; intros v. now apply counted_unique.
Qed.

Lemma sum_counted_unique (u : UserWithCourses) (cs : list UserCourse) :
  one_record_per_video u ->
  list_sum (map (fun uc => counted_of (progress u) (course uc)) cs)
  = sum_completed (progress u) cs.
Proof.
  intros Hu. unfold sum_completed. f_equal.
  apply map_ext; intros uc. now apply counted_of_unique.
Qed.

Lemma filter_length (A : Type) (f : A -> bool) (l : list A) :
  (List.length (filter f l) <= List.length l)%nat.
Proof.
  induction l as [|a l IH]; simpl; [lia|].
  destruct (f a); simpl; lia.
Qed.

Lemma counted_le_total (progress : list ProgressStore.UserVideoProgress) (c : Course) :
  (counted_of progress c <= total_of c)%nat.
Proof. apply filter_length. Qed.

Lemma sum_counted_le_total (progress : list ProgressStore.UserVideoProgress)
      (cs : list UserCourse) :
  (list_sum (map (fun uc => counted_of progress (course uc)) cs) <= sum_total cs)%nat.
Proof.
  unfold sum_total. induction cs as [|uc cs IH]; simpl; [lia|].
  pose proof (counted_le_total progress (course uc)). lia.
Qed.

(** *** The percentage expression *)

Lemma percentage_positive (c t : nat) :
  (0 < t)%nat -> percentage c t = Num (ratio100_binary64 c t).
Proof.
  destruct t as [|t]; [lia|]. reflexivity.
Qed.

Lemma percentage_zero (c : nat) : percentage c 0 = Num 0.
Proof. reflexivity. Qed.

Lemma percentage_not_NaN (c t : nat) : percentage c t <> NaN.
Proof.
  destruct t as [|t]; [rewrite percentage_zero | rewrite percentage_positive by lia];
    discriminate.
Qed.

(** Without the guard the quotient of the two counters of a course without
    videos would be [NaN], in the model and on the primitive floats. *)
Remark unguarded_quotient_is_NaN :
  times100 (div 0 0) = NaN
  /\ PrimFloat.is_nan
       (PrimFloat.mul (PrimFloat.div (to_float 0) (to_float 0)) (to_float 100))
     = true.
Proof. split; reflexivity. Qed.

(** The expression on the primitive floats, for the counts of the samples:
    3 of 5 is 60, 2 of 4 is 50, 1 of 1 is 100, 1 of 2 is 50, and no video is
    0; 7 of 100 is one unit in the last place above 7. *)
Remark samples_in_binary64 :
  percentage64 3 5 = 60%float
  /\ percentage64 2 4 = 50%float
  /\ percentage64 1 1 = 100%float
  /\ percentage64 1 2 = 50%float
  /\ percentage64 3 6 = 50%float
  /\ percentage64 0 0 = 0%float
  /\ percentage64 7 100 = 0x1.c000000000001p+2%float.
Proof. repeat split. Qed.

(** [percentage] against the primitive floats: for every total up to 100
    and every completed count up to the total, the number of the model is
    the value of the float the same expression gives. *)
Remark percentage_is_binary64 :
  forallb
    (fun t =>
       forallb (fun c => same_number (value_of (percentage64 c t)) (percentage c t))
               (seq 0 (S t)))
    (seq 0 101)
  = true.
Proof. vm_compute. reflexivity. Qed.

Lemma of_count_nonneg (n : nat) : 0 <= of_count n.
Proof.
  unfold of_count. change 0 with (inject_Z 0). rewrite <- Zle_Qle. lia.
Qed.

Lemma of_count_pos (n : nat) : (0 < n)%nat -> 0 < of_count n.
Proof.
  intros H. unfold of_count. change 0 with (inject_Z 0). rewrite <- Zlt_Qlt. lia.
Qed.

Lemma of_count_le (n m : nat) : (n <= m)%nat -> of_count n <= of_count m.
Proof.
  intros H. unfold of_count. rewrite <- Zle_Qle. lia.
Qed.

Lemma of_count_add (n m : nat) : of_count (n + m) == of_count n + of_count m.
Proof.
  unfold of_count. now rewrite Nat2Z.inj_add, inject_Z_plus.
Qed.

Lemma of_count_mul (n m : nat) : of_count (n * m) == of_count n * of_count m.
Proof.
  unfold of_count. now rewrite Nat2Z.inj_mul, inject_Z_mult.
Qed.

Lemma of_count_inj (n m : nat) : of_count n == of_count m <-> n = m.
Proof.
  unfold of_count; split; intros H.
  - apply Nat2Z.inj. now apply inject_Z_injective.
  - now subst.
Qed.

Lemma ratio100_as_counts (c t : nat) :
  ratio100 c t = of_count c / of_count t * 100.
Proof. reflexivity. Qed.

Lemma ratio100_binary64_as_counts (c t : nat) :
  ratio100_binary64 c t
  = Binary64.round (Binary64.round (of_count c / of_count t) * 100).
Proof. reflexivity. Qed.

Lemma quotient_nonneg (c t : nat) : 0 <= of_count c / of_count t.
Proof.
  destruct t as [|t].
  - change (of_count 0) with 0. unfold Qdiv. rewrite Qmult_0_r. apply Qle_refl.
  - apply Qle_shift_div_l; [apply of_count_pos; lia|].
    rewrite Qmult_0_l. apply of_count_nonneg.
Qed.

(** Quotients of counters compare as their cross products do. *)
Lemma quotient_le (c t c' t' : nat) :
  (0 < t)%nat -> (0 < t')%nat -> (c * t' <= c' * t)%nat ->
  of_count c / of_count t <= of_count c' / of_count t'.
Proof.
  intros Ht Ht' Hle.
  pose proof (of_count_pos t Ht) as Hp. pose proof (of_count_pos t' Ht') as Hp'.
  apply Qle_shift_div_l; [assumption|].
  setoid_replace (of_count c / of_count t * of_count t')
    with (of_count c * of_count t' / of_count t) by (field; lra).
  apply Qle_shift_div_r; [assumption|].
  rewrite <- !of_count_mul. now apply of_count_le.
Qed.

Lemma ratio100_binary64_mono (c t c' t' : nat) :
  (0 < t)%nat -> (0 < t')%nat -> (c * t' <= c' * t)%nat ->
  ratio100_binary64 c t <= ratio100_binary64 c' t'.
Proof.
  intros Ht Ht' Hle. rewrite !ratio100_binary64_as_counts.
  pose proof (quotient_nonneg c t) as H0.
  pose proof (round_nonneg _ H0) as H1.
  pose proof (round_mono _ _ H0 (quotient_le c t c' t' Ht Ht' Hle)) as H2.
  apply round_mono; lra.
Qed.

Lemma ratio100_binary64_bounds (c t : nat) :
  (c <= t)%nat -> (0 < t)%nat -> 0 <= ratio100_binary64 c t <= 100.
Proof.
  intros Hle Ht. rewrite ratio100_binary64_as_counts.
  pose proof (quotient_nonneg c t) as Hq0.
  pose proof (round_nonneg _ Hq0) as H0.
  split.
  - apply round_nonneg. lra.
  - assert (Hq : of_count c / of_count t <= 1).
    { apply Qle_shift_div_r; [now apply of_count_pos|].
      rewrite Qmult_1_l. now apply of_count_le. }
    pose proof (round_mono _ _ Hq0 Hq) as H1.
    pose proof round_1 as R1. pose proof round_100 as R100.
    assert (H2 : Binary64.round (of_count c / of_count t) * 100 <= 100) by lra.
    assert (H3 : 0 <= Binary64.round (of_count c / of_count t) * 100) by lra.
    pose proof (round_mono _ _ H3 H2) as H4. lra.
Qed.

Lemma percentage_bounds (c t : nat) :
  (c <= t)%nat -> exists q, percentage c t = Num q /\ 0 <= q <= 100.
Proof.
  intros Hle. destruct t as [|t].
  - exists 0; split; [reflexivity | split; discriminate].
  - exists (ratio100_binary64 c (S t)); split; [reflexivity|].
    apply ratio100_binary64_bounds; lia.
Qed.

(** The binary64 value against the exact ratio: two roundings apart. *)
Lemma ratio100_binary64_near (c t : nat) :
  (0 < t)%nat ->
  Qabs (ratio100_binary64 c t - ratio100 c t)
  <= ratio100 c t * Binary64.two_roundings.
Proof.
  intros Ht. rewrite ratio100_binary64_as_counts, ratio100_as_counts.
  pose proof (of_count_pos t Ht) as Hp.
  destruct c as [|c].
  - assert (E : of_count 0 / of_count t == 0) by (change (of_count 0) with 0; field; lra).
    rewrite (round_zero _ E).
    rewrite (round_zero (0 * 100)) by reflexivity.
    rewrite E. vm_compute. discriminate.
  - set (r := of_count (S c) / of_count t).
    assert (Hr : 0 < r).
    { apply Qlt_shift_div_l; [assumption|]. rewrite Qmult_0_l. apply of_count_pos; lia. }
    pose proof (round_pos r Hr) as Hy.
    pose proof (round_error r Hr) as E1.
    assert (Hy100 : 0 < Binary64.round r * 100) by lra.
    pose proof (round_error _ Hy100) as E2.
    apply Qabs_Qle_condition in E1 as [E1a E1b].
    apply Qabs_Qle_condition in E2 as [E2a E2b].
    apply Qabs_Qle_condition.
    let c := eval vm_compute in (2 ^ (-53)) in change (2 ^ (-53)) with c in *.
    let c := eval vm_compute in Binary64.two_roundings in
      change Binary64.two_roundings with c.
    set (y := Binary64.round r) in *.
    set (z := Binary64.round (y * 100)) in *.
    split; lra.
Qed.

(** With fewer than 2^53 videos the two ends of the scale are met exactly
    and only there. *)
Lemma ratio100_binary64_is_100 (c t : nat) :
  (c <= t)%nat -> (0 < t)%nat -> (Z.of_nat t <= 2 ^ 53)%Z ->
  (ratio100_binary64 c t == 100 <-> c = t).
Proof.
  intros Hle Ht Hsmall. pose proof (of_count_pos t Ht) as Hp. split.
  - intros H100. destruct (Nat.eq_dec c t) as [E|E]; [assumption|exfalso].
    assert (Hq : of_count c / of_count t <= 1 - 2 ^ (-53)).
    { apply Qle_shift_div_r; [assumption|].
      assert (Hc : of_count (c + 1) <= of_count t) by (apply of_count_le; lia).
      rewrite of_count_add in Hc. change (of_count 1) with 1 in Hc.
      assert (Ht53 : of_count t <= inject_Z (2 ^ 53))
        by (unfold of_count; now rewrite <- Zle_Qle).
      let c := eval vm_compute in (2 ^ (-53)) in change (2 ^ (-53)) with c.
      let c := eval vm_compute in (inject_Z (2 ^ 53)) in
        change (inject_Z (2 ^ 53)) with c in Ht53.
      lra. }
    pose proof (round_mono _ _ (quotient_nonneg c t) Hq) as H1.
    rewrite round_below_1 in H1.
    pose proof (round_nonneg _ (quotient_nonneg c t)) as H0.
    assert (H2 : Binary64.round (of_count c / of_count t) * 100
                 <= (1 - 2 ^ (-53)) * 100) by lra.
    assert (H3 : 0 <= Binary64.round (of_count c / of_count t) * 100) by lra.
    pose proof (round_mono _ _ H3 H2) as H4.
    pose proof round_below_100 as H5.
    rewrite ratio100_binary64_as_counts in H100. rewrite H100 in H4.
    apply (Qlt_irrefl 100). eapply Qle_lt_trans; eassumption.
  - intros ->. apply Qle_antisym.
    + now apply ratio100_binary64_bounds.
    + rewrite ratio100_binary64_as_counts.
      assert (E : 1 <= of_count t / of_count t).
      { apply Qle_shift_div_l; [assumption|]. rewrite Qmult_1_l. apply Qle_refl. }
      assert (H01 : 0 <= 1) by discriminate.
      pose proof (round_mono _ _ H01 E) as H1.
      pose proof round_1 as R1. pose proof round_100 as R100.
      assert (H100 : 0 <= 100) by discriminate.
      assert (H2 : 100 <= Binary64.round (of_count t / of_count t) * 100) by lra.
      pose proof (round_mono _ _ H100 H2) as H3. lra.
Qed.

Lemma ratio100_binary64_is_0 (c t : nat) :
  (0 < t)%nat -> (ratio100_binary64 c t == 0 <-> c = 0%nat).
Proof.
  intros Ht. pose proof (of_count_pos t Ht) as Hp.
  rewrite ratio100_binary64_as_counts. split.
  - intros H0. destruct c as [|c]; [reflexivity|exfalso].
    assert (Hr : 0 < of_count (S c) / of_count t).
    { apply Qlt_shift_div_l; [assumption|]. rewrite Qmult_0_l. apply of_count_pos; lia. }
    pose proof (round_pos _ Hr) as Hy.
    assert (Hy100 : 0 < Binary64.round (of_count (S c) / of_count t) * 100) by lra.
    pose proof (round_pos _ Hy100) as Hz. rewrite H0 in Hz. discriminate Hz.
  - intros ->.
    assert (E : of_count 0 / of_count t == 0) by (change (of_count 0) with 0; field; lra).
    rewrite (round_zero _ E). now rewrite (round_zero (0 * 100)).
Qed.

Lemma Forall2_map_r (A B : Type) (P : A -> B -> Prop) (f : A -> B) (l : list A) :
  (forall x, In x l -> P x (f x)) -> Forall2 P l (map f l).
Proof.
  induction l as [|a l IH]; simpl; intros H; constructor.
  - apply H; now left.
  - apply IH; intros x Hx; apply H; now right.
Qed.

End DashboardFacts.

(* ------------------------------------------------------------------ *)
(** *** Claims on the progress aggregation *)

Section DashboardClaims.

Import Dashboard.

Local Open Scope Q_scope.

(** What the loader computes, in the counts of the specification. *)
Lemma computeProgress_spec (u : UserWithCourses) :
  one_record_per_video u ->
  overallProgress (computeProgress u)
  = percentage (sum_completed (progress u) (courses u)) (sum_total (courses u))
  /\ coursesWithProgress (computeProgress u)
     = map (fun uc =>
              {| spread := course uc;
                 courseProgress :=
                   percentage (completed_of (progress u) (course uc))
                              (total_of (course uc)) |})
           (courses u).
Proof.
  intros Hu. rewrite computeProgress_counts; simpl.
  rewrite sum_counted_unique by assumption. split; [reflexivity|].
  apply map_ext; intros uc. unfold with_progress.
  now rewrite counted_of_unique.
Qed.

(** The sample of the specification: 2 of 4 and 1 of 1 give 50, 100 and
    60 overall, where the mean of 50 and 100 is 75. *)
Lemma sample_60 :
  is_num (overallProgress (computeProgress user_60)) 60
  /\ Forall2 is_num (course_percentages (computeProgress user_60)) [50; 100]
  /\ mean [50; 100] == 75
  /\ ~ 60 == 75.
Proof.
  split_ands.
  - vm_compute. reflexivity.
  - repeat constructor; vm_compute; reflexivity.
  - reflexivity.
  - discriminate.
Qed.

(** C1, as the code has it.  With at most one progress record per video, the
    overall percentage is (sum of completed videos) / (sum of total videos)
    * 100 over the enrolled courses, evaluated in binary64: the quotient of
    the two sums rounded, then the product by 100 rounded, which is within
    two roundings of the exact value.  It is 0 when the courses have no
    video.  It is not computed as the mean of the per-course percentages:
    for 2 of 4 videos and 1 of 1 video the overall percentage is 60, and the
    mean of 50 and 100 is 75. *)
Theorem overall_is_pooled (u : UserWithCourses) :
  one_record_per_video u ->
  ((0 < sum_total (courses u))%nat ->
   overallProgress (computeProgress u)
   = Num (ratio100_binary64 (sum_completed (progress u) (courses u))
                            (sum_total (courses u)))
   /\ Qabs (ratio100_binary64 (sum_completed (progress u) (courses u))
                              (sum_total (courses u))
            - ratio100 (sum_completed (progress u) (courses u))
                       (sum_total (courses u)))
      <= ratio100 (sum_completed (progress u) (courses u))
                  (sum_total (courses u))
         * Binary64.two_roundings)
  /\ (sum_total (courses u) = 0%nat ->
      overallProgress (computeProgress u) = Num 0)
  /\ (is_num (overallProgress (computeProgress user_60)) 60
      /\ Forall2 is_num (course_percentages (computeProgress user_60)) [50; 100]
      /\ mean [50; 100] == 75
      /\ ~ 60 == 75).
Proof.
  intros Hu. destruct (computeProgress_spec u Hu) as [Hover Hper].
  split_ands.
  - intros Hpos. rewrite Hover. split.
    + now apply percentage_positive.
    + now apply ratio100_binary64_near.
  - intros Hzero. rewrite Hover, Hzero. apply percentage_zero.
  - apply sample_60.
  - apply sample_60.
  - apply sample_60.
  - apply sample_60.
Qed.

Lemma overall_is_pooled_witness :
  overallProgress (computeProgress user_60)
  = Num (ratio100_binary64 (sum_completed (progress user_60) (courses user_60))
                           (sum_total (courses user_60)))
  /\ Qabs (ratio100_binary64 (sum_completed (progress user_60) (courses user_60))
                             (sum_total (courses user_60))
           - ratio100 (sum_completed (progress user_60) (courses user_60))
                      (sum_total (courses user_60)))
     <= ratio100 (sum_completed (progress user_60) (courses user_60))
                 (sum_total (courses user_60))
        * Binary64.two_roundings.
Proof.
  refine (proj1 (overall_is_pooled user_60 _) _).
  - unfold one_record_per_video; simpl.
    repeat constructor; simpl; intuition discriminate.
  - vm_compute; lia.
Defined.

(** C1 as stated fails: courses A (4 videos, 2 completed) and C (2 videos,
    1 completed) differ in size, and the overall percentage, 50, is the
    mean of the two per-course percentages, 50 and 50. *)
Lemma sizes_differ_and_overall_is_the_mean :
  one_record_per_video user_50
  /\ total_of courseA = 4%nat /\ total_of courseC = 2%nat
  /\ is_num (overallProgress (computeProgress user_50)) 50
  /\ Forall2 is_num (course_percentages (computeProgress user_50)) [50; 50]
  /\ is_num (overallProgress (computeProgress user_50)) (mean [50; 50]).
Proof.
  split_ands.
  - unfold one_record_per_video; simpl.
    repeat constructor; simpl; intuition discriminate.
  - reflexivity.
  - reflexivity.
  - vm_compute. reflexivity.
  - repeat constructor; vm_compute; reflexivity.
  - vm_compute. reflexivity.
Qed.

(** A course without videos, and a user whose courses have no video at all:
    both percentages are the number 0. *)
Example sample_empty :
  computeProgress user_empty
  = {| overallProgress := Num 0;
       coursesWithProgress := [ {| spread := courseE; courseProgress := Num 0 |} ] |}.
Proof. reflexivity. Qed.

(** C2, as the code has it.  With at most one progress record per video:
    the percentage of each enrolled course that has videos is completed /
    total * 100 evaluated in binary64 (the quotient rounded, then the
    product rounded), which is within two roundings of the exact ratio; it
    is the number 0 when the course has no video, and it is never [NaN].
    The same holds of the overall percentage, for the sums over the
    enrolled courses. *)
Theorem percentage_policy (u : UserWithCourses) :
  one_record_per_video u ->
  Forall2
    (fun uc cp =>
       spread cp = course uc
       /\ ((0 < total_of (course uc))%nat ->
           courseProgress cp
           = Num (ratio100_binary64 (completed_of (progress u) (course uc))
                                    (total_of (course uc)))
           /\ Qabs (ratio100_binary64 (completed_of (progress u) (course uc))
                                      (total_of (course uc))
                    - ratio100 (completed_of (progress u) (course uc))
                               (total_of (course uc)))
              <= ratio100 (completed_of (progress u) (course uc))
                          (total_of (course uc))
                 * Binary64.two_roundings)
       /\ (total_of (course uc) = 0%nat -> courseProgress cp = Num 0)
       /\ courseProgress cp <> NaN)
    (courses u) (coursesWithProgress (computeProgress u))
  /\ ((0 < sum_total (courses u))%nat ->
      overallProgress (computeProgress u)
      = Num (ratio100_binary64 (sum_completed (progress u) (courses u))
                               (sum_total (courses u)))
      /\ Qabs (ratio100_binary64 (sum_completed (progress u) (courses u))
                                 (sum_total (courses u))
               - ratio100 (sum_completed (progress u) (courses u))
                          (sum_total (courses u)))
         <= ratio100 (sum_completed (progress u) (courses u))
                     (sum_total (courses u))
            * Binary64.two_roundings)
  /\ (sum_total (courses u) = 0%nat -> overallProgress (computeProgress u) = Num 0)
  /\ overallProgress (computeProgress u) <> NaN.
Proof.
  intros Hu. destruct (computeProgress_spec u Hu) as [-> ->].
  split_ands.
  - apply Forall2_map_r; intros uc _; simpl. split_ands.
    + reflexivity.
    + intros Hpos. split;
        [now apply percentage_positive | now apply ratio100_binary64_near].
    + intros ->. apply percentage_zero.
    + apply percentage_not_NaN.
  - intros Hpos. split;
      [now apply percentage_positive | now apply ratio100_binary64_near].
  - intros ->. apply percentage_zero.
  - apply percentage_not_NaN.
Qed.

Lemma percentage_policy_witness :
  Forall2
    (fun uc cp =>
       spread cp = course uc
       /\ ((0 < total_of (course uc))%nat ->
           courseProgress cp
           = Num (ratio100_binary64 (completed_of (progress user_mixed) (course uc))
                                    (total_of (course uc)))
           /\ Qabs (ratio100_binary64 (completed_of (progress user_mixed) (course uc))
                                      (total_of (course uc))
                    - ratio100 (completed_of (progress user_mixed) (course uc))
                               (total_of (course uc)))
              <= ratio100 (completed_of (progress user_mixed) (course uc))
                          (total_of (course uc))
                 * Binary64.two_roundings)
       /\ (total_of (course uc) = 0%nat -> courseProgress cp = Num 0)
       /\ courseProgress cp <> NaN)
    (courses user_mixed) (coursesWithProgress (computeProgress user_mixed)).
Proof.
  refine (proj1 (percentage_policy user_mixed _)).
  unfold one_record_per_video; simpl.
  repeat constructor; simpl; intuition discriminate.
Defined.

(** C2 as stated fails: in course L, 7 of the 25 videos are completed, and
    7 / 25 * 100 is 28; the loader reports the number one unit in the last
    place above 28 (28.000000000000004), as the same expression does on the
    primitive floats. *)
Lemma seven_of_25_is_above_28 :
  one_record_per_video user_7_of_25
  /\ total_of courseL = 25%nat
  /\ completed_of (progress user_7_of_25) courseL = 7%nat
  /\ ratio100 7 25 == 28
  /\ (exists q,
        course_percentages (computeProgress user_7_of_25) = [Num q]
        /\ q == 28 + 2 ^ (-48)
        /\ ~ q == 28)
  /\ percentage64 7 25 = 0x1.c000000000001p+4%float.
Proof.
  split_ands.
  - unfold one_record_per_video; simpl.
    repeat constructor; simpl; intuition discriminate.
  - reflexivity.
  - reflexivity.
  - reflexivity.
  - eexists. split; [reflexivity|]. split.
    + vm_compute. reflexivity.
    + vm_compute. discriminate.
  - reflexivity.
Qed.

(** C9.  With at most one progress record per (user, video) pair, each
    per-course percentage and the overall percentage is a number between 0
    and 100: a video is counted at most once, so the completed counter never
    exceeds the total counter.  (The bound does not depend on the
    hypothesis: the loops look at the first record of a video only.) *)
Theorem percentages_bounded (u : UserWithCourses) :
  NoDup (map (fun p => (ProgressStore.userId p, ProgressStore.videoId p))
             (progress u)) ->
  Forall (fun x => exists q, x = Num q /\ 0 <= q <= 100)
         (overallProgress (computeProgress u)
            :: course_percentages (computeProgress u)).
Proof.
  intros _. unfold course_percentages. rewrite computeProgress_counts; simpl.
  constructor.
  - apply percentage_bounds, sum_counted_le_total.
  - apply Forall_forall; intros x Hx.
    apply in_map_iff in Hx as (cp & <- & Hcp).
    apply in_map_iff in Hcp as (uc & <- & _).
    apply percentage_bounds, counted_le_total.
Qed.

Lemma percentages_bounded_witness :
  Forall (fun x => exists q, x = Num q /\ 0 <= q <= 100)
         (overallProgress (computeProgress user_60)
            :: course_percentages (computeProgress user_60)).
Proof.
  apply (percentages_bounded user_60).
  simpl. repeat constructor; simpl; intuition discriminate.
Defined.

End DashboardClaims.

(* ================================================================== *)
(** ** Further properties of the progress store *)
(* ================================================================== *)

Section StoreInvariants.

Import ProgressStore ProgressRuns.

Local Open Scope string_scope.

(** What a call can do, whatever the database: be rejected for a key that
    is taken, be rejected for a missing user or video, update by primary
    key, or insert. *)
Lemma setCompletion_cases (env : Env) (u v : string) (c : bool) (db : Db) :
  (find (same_key u v) (userVideoProgress db) = None
   /\ ~ fresh env db
   /\ setCompletion env u v c db = (Threw UniqueConstraintFailed, db))
  \/ (find (same_key u v) (userVideoProgress db) = None
      /\ fresh env db /\ ~ (In u (users db) /\ In v (videos db))
      /\ setCompletion env u v c db = (Threw ForeignKeyConstraintFailed, db))
  \/ (exists p,
        find (same_key u v) (userVideoProgress db) = Some p
        /\ setCompletion env u v c db
           = (Ok tt,
              {| users := users db; videos := videos db;
                 userVideoProgress :=
                   map (fun r => if id r =? id p then set_completed env c r else r)
                       (userVideoProgress db) |}))
  \/ (find (same_key u v) (userVideoProgress db) = None
      /\ fresh env db /\ In u (users db) /\ In v (videos db)
      /\ setCompletion env u v c db = (Ok tt, insert env c u v db)).
Proof.
  unfold setCompletion, bind, findUnique.
  destruct (find (same_key u v) (userVideoProgress db)) as [p|] eqn:Hfind.
  - right; right; left. exists p; split; [reflexivity|].
    unfold update.
    assert (Hex : existsb (fun r => id r =? id p) (userVideoProgress db) = true).
    { apply find_some in Hfind as [Hin _].
      apply existsb_exists; exists p; split; [assumption | apply String.eqb_refl]. }
    now rewrite Hex.
  - unfold create.
    destruct (existsb _ (userVideoProgress db)) eqn:Hex.
    + left. split_ands; auto. intros Hfresh.
      apply existsb_exists in Hex as (r & Hin & Hr).
      apply orb_true_iff in Hr as [Hr|Hr].
      * apply String.eqb_eq in Hr. apply Hfresh. rewrite <- Hr. now apply in_map.
      * rewrite (find_none _ _ Hfind r Hin) in Hr; discriminate.
    + assert (Hfresh : fresh env db).
      { intros Hin. apply in_map_iff in Hin as (r & Hid & Hin).
        assert (Hr : existsb (fun r => (id r =? cuid env) || same_key u v r)
                             (userVideoProgress db) = true).
        { apply existsb_exists; exists r; split; [assumption|].
          rewrite Hid, String.eqb_refl; reflexivity. }
        congruence. }
      destruct (existsb (String.eqb u) (users db)) eqn:Eu;
        destruct (existsb (String.eqb v) (videos db)) eqn:Ev; simpl.
      * right; right; right. apply existsb_eqb_In in Eu, Ev. split_ands; auto.
      * right; left. split_ands; auto. intros [_ Hv].
        apply existsb_eqb_In in Hv. congruence.
      * right; left. split_ands; auto. intros [Hu _].
        apply existsb_eqb_In in Hu. congruence.
      * right; left. split_ands; auto. intros [Hu _].
        apply existsb_eqb_In in Hu. congruence.
Qed.

Lemma setCompletion_consistent
      (env : Env) (u v : string) (c : bool) (db : Db) :
  consistent db ->
  consistent (snd (setCompletion env u v c db))
  /\ users (snd (setCompletion env u v c db)) = users db
  /\ videos (snd (setCompletion env u v c db)) = videos db.
Proof.
  intros Hc.
  destruct (setCompletion_cases env u v c db)
    as [(_ & _ & ->) | [(_ & _ & _ & ->)
        | [(p & Hfind & _) | (Hfind & Hfresh & Hu & Hv & ->)]]].
  - auto.
  - auto.
  - rewrite (setCompletion_existing env u v c db p Hc
               (find_some_records u v db p Hc Hfind)).
    simpl; auto using consistent_touch.
  - simpl; split_ands; auto.
    apply consistent_insert; auto using find_none_records.
Qed.

(** X1.  Whatever the request (known or unknown user and video, fresh or
    colliding generated key), a call takes a database that satisfies the
    constraints of the schema to one that satisfies them, and leaves the
    user and video tables alone. *)
Theorem setCompletion_keeps_constraints
        (env : Env) (u v : string) (c : bool) (db : Db) :
  consistent db ->
  consistent (snd (setCompletion env u v c db))
  /\ users (snd (setCompletion env u v c db)) = users db
  /\ videos (snd (setCompletion env u v c db)) = videos db.
Proof. apply setCompletion_consistent. Qed.

Lemma setCompletion_keeps_constraints_witness :
  consistent
    (snd (setCompletion {| now := 1000; cuid := "c1" |} "u1" "v1" true
            {| users := ["u1"]; videos := ["v1"];
               userVideoProgress :=
                 [ {| id := "c1"; userId := "u1"; videoId := "v1";
                      completed := false; updatedAt := 5 |} ] |})).
Proof.
  refine (proj1 (setCompletion_keeps_constraints
                   {| now := 1000; cuid := "c1" |} "u1" "v1" true
                   {| users := ["u1"]; videos := ["v1"];
                      userVideoProgress :=
                        [ {| id := "c1"; userId := "u1"; videoId := "v1";
                             completed := false; updatedAt := 5 |} ] |} _)).
  split; simpl; repeat constructor; simpl; intuition discriminate.
Defined.

Lemma setCompletion_outcome
        (env : Env) (u v : string) (c : bool) (db : Db) :
  consistent db -> fresh env db ->
  (fst (setCompletion env u v c db) = Ok tt
   <-> In u (users db) /\ In v (videos db))
  /\ (fst (setCompletion env u v c db) = Ok tt
      \/ fst (setCompletion env u v c db) = Threw ForeignKeyConstraintFailed).
Proof.
  intros Hc Hfresh.
  destruct (setCompletion_cases env u v c db)
    as [(_ & Hnot & _) | [(_ & _ & Hmiss & ->)
        | [(p & Hfind & ->) | (_ & _ & Hu & Hv & ->)]]]; simpl.
  - contradiction.
  - split; [|now right]. split; [discriminate | tauto].
  - split; [|now left]. split; [|reflexivity]. intros _.
    apply find_some in Hfind as [Hin Hkey].
    apply same_key_true in Hkey as [<- <-].
    pose proof (foreign_keys db Hc) as Hfk. rewrite Forall_forall in Hfk.
    exact (Hfk p Hin).
  - split; [tauto | now left].
Qed.

(** X2.  With the constraints of the schema and a generated key that is not
    in the table, a call succeeds exactly when the user and the video both
    exist, and the only error it can end in is the foreign-key failure. *)
Theorem setCompletion_succeeds_iff
        (env : Env) (u v : string) (c : bool) (db : Db) :
  consistent db -> fresh env db ->
  (fst (setCompletion env u v c db) = Ok tt
   <-> In u (users db) /\ In v (videos db))
  /\ (fst (setCompletion env u v c db) = Ok tt
      \/ fst (setCompletion env u v c db) = Threw ForeignKeyConstraintFailed).
Proof. apply setCompletion_outcome. Qed.

Lemma setCompletion_succeeds_iff_witness :
  fst (setCompletion {| now := 1000; cuid := "c1" |} "u1" "v1" true
         {| users := ["u1"]; videos := ["v1"]; userVideoProgress := [] |})
  = Ok tt
  <-> In "u1" ["u1"] /\ In "v1" ["v1"].
Proof.
  refine (proj1 (setCompletion_succeeds_iff
                   {| now := 1000; cuid := "c1" |} "u1" "v1" true
                   {| users := ["u1"]; videos := ["v1"]; userVideoProgress := [] |}
                   _ _)).
  - split; simpl; constructor.
  - unfold fresh; simpl; tauto.
Defined.

(** X3.  A call never ends in "record to update not found", whatever the
    database: the row it updates is the row it has just read. *)
Theorem setCompletion_update_never_misses
        (env : Env) (u v : string) (c : bool) (db : Db) :
  fst (setCompletion env u v c db) <> Threw RecordNotFound
  /\ forall form, fst (action env u (Some v) form db) <> Threw RecordNotFound.
Proof.
  assert (H : forall c', fst (setCompletion env u v c' db) <> Threw RecordNotFound).
  { intros c'.
    destruct (setCompletion_cases env u v c' db)
      as [(_ & _ & ->) | [(_ & _ & _ & ->) | [(p & _ & ->) | (_ & _ & _ & _ & ->)]]];
      discriminate. }
  split; [apply H|].
  intros form. destruct v as [|a v']; [discriminate|].
  specialize (H (completed_of_form form)).
  unfold action, bind.
  destruct (setCompletion env u (String a v') (completed_of_form form) db)
    as [[[]|e] db']; simpl in *; congruence.
Qed.

Lemma keys_touch (env : Env) (c : bool) (u v : string) (db : Db) :
  keys (touch env c u v db) = keys db.
Proof.
  unfold keys, touch; simpl. rewrite map_map.
  apply map_ext; intros r. now destruct (same_key u v r).
Qed.

Lemma setCompletion_keys
        (env : Env) (u v : string) (c : bool) (db : Db) :
  keys (snd (setCompletion env u v c db)) = keys db
  \/ keys (snd (setCompletion env u v c db)) = (keys db ++ [(cuid env, u, v)])%list.
Proof.
  destruct (setCompletion_cases env u v c db)
    as [(_ & _ & ->) | [(_ & _ & _ & ->) | [(p & _ & ->) | (_ & _ & _ & _ & ->)]]];
    simpl; auto.
  - left. unfold keys; simpl. rewrite map_map.
    apply map_ext; intros r. now destruct (id r =? id p).
  - right. unfold keys, insert; simpl. now rewrite map_app.
Qed.

(** X4.  A call never deletes a record and never changes the primary key,
    the user or the video of one: the key columns of the table after the
    call are those before it, followed by at most one new row, which is the
    row of the request. *)
Theorem setCompletion_keeps_rows
        (env : Env) (u v : string) (c : bool) (db : Db) :
  keys (snd (setCompletion env u v c db)) = keys db
  \/ keys (snd (setCompletion env u v c db)) = (keys db ++ [(cuid env, u, v)])%list.
Proof. apply setCompletion_keys. Qed.

Lemma records_of_touch_other (env : Env) (c : bool) (u v u' v' : string) (db : Db) :
  (u', v') <> (u, v) ->
  records_of u' v' (touch env c u v db) = records_of u' v' db.
Proof.
  intros Hne. unfold records_of, touch; simpl.
  induction (userVideoProgress db) as [|r rows IH]; simpl; [reflexivity|].
  destruct (same_key u v r) eqn:Hk.
  - apply same_key_true in Hk as [Hu Hv].
    assert (Hk' : same_key u' v' r = false).
    { destruct (same_key u' v' r) eqn:E; [|reflexivity].
      apply same_key_true in E as [Hu' Hv']. exfalso; apply Hne. congruence. }
    assert (Hk'' : same_key u' v' (set_completed env c r) = false) by exact Hk'.
    now rewrite Hk', Hk''.
  - destruct (same_key u' v' r); now rewrite IH.
Qed.

Lemma setCompletion_other_records
      (env : Env) (u v u' v' : string) (c : bool) (db : Db) :
  consistent db ->
  (u', v') <> (u, v) ->
  records_of u' v' (snd (setCompletion env u v c db)) = records_of u' v' db.
Proof.
  intros Hc Hne.
  destruct (setCompletion_cases env u v c db)
    as [(_ & _ & ->) | [(_ & _ & _ & ->)
        | [(p & Hfind & _) | (_ & _ & _ & _ & ->)]]]; simpl; auto.
  - rewrite (setCompletion_existing env u v c db p Hc
               (find_some_records u v db p Hc Hfind)).
    now apply records_of_touch_other.
  - unfold records_of, insert; simpl. rewrite filter_app; simpl.
    assert (Hk : same_key u' v'
                   {| id := cuid env; userId := u; videoId := v;
                      completed := c; updatedAt := now env |} = false).
    { destruct (same_key u' v' _) eqn:E; [|reflexivity].
      apply same_key_true in E as [Hu Hv]; simpl in *. exfalso; apply Hne. congruence. }
    rewrite Hk. apply app_nil_r.
Qed.

(** X5.  In a database that satisfies the constraints, a call for [(u, v)]
    leaves the records of every other (user, video) pair exactly as they
    were, flag and time included. *)
Theorem setCompletion_frame
        (env : Env) (u v u' v' : string) (c : bool) (db : Db) :
  consistent db ->
  (u', v') <> (u, v) ->
  records_of u' v' (snd (setCompletion env u v c db)) = records_of u' v' db.
Proof. apply setCompletion_other_records. Qed.

Lemma setCompletion_frame_witness :
  records_of "u2" "v1"
    (snd (setCompletion {| now := 1000; cuid := "c2" |} "u1" "v1" true
            {| users := ["u1"; "u2"]; videos := ["v1"];
               userVideoProgress :=
                 [ {| id := "c1"; userId := "u2"; videoId := "v1";
                      completed := false; updatedAt := 5 |} ] |}))
  = records_of "u2" "v1"
      {| users := ["u1"; "u2"]; videos := ["v1"];
         userVideoProgress :=
           [ {| id := "c1"; userId := "u2"; videoId := "v1";
                completed := false; updatedAt := 5 |} ] |}.
Proof.
  apply setCompletion_frame.
  - split; simpl; repeat constructor; simpl; intuition discriminate.
  - discriminate.
Defined.

(** Once the record of the pair exists, a run of requests keeps it, and
    leaves it with the flag and the time of the last of them. *)
Lemma calls_existing (u v : string) (reqs : list (Env * bool)) :
  forall (db : Db) (p : UserVideoProgress),
    consistent db -> records_of u v db = [p] ->
    exists db' p',
      calls reqs u v db = (Ok tt, db')
      /\ consistent db'
      /\ records_of u v db' = [p']
      /\ completed p' = last (map snd reqs) (completed p)
      /\ updatedAt p' = last (map (fun q => now (fst q)) reqs) (updatedAt p)
      /\ keys db' = keys db.
Proof.
  induction reqs as [|[env c] reqs IH]; intros db p Hc Hrec.
  - exists db, p; simpl; split_ands; auto.
  - assert (Hrec1 : records_of u v (touch env c u v db) = [set_completed env c p])
      by now rewrite records_of_touch, Hrec.
    destruct (IH (touch env c u v db) (set_completed env c p))
      as (db' & p' & Hrun & Hc' & Hrec' & Hflag & Htime & Hkeys);
      auto using consistent_touch.
    exists db', p'. simpl calls. unfold bind at 1.
    rewrite (setCompletion_existing env u v c db p Hc Hrec), Hrun.
    split_ands; auto.
    + rewrite Hflag; simpl. destruct reqs; [reflexivity | apply last_default].
    + rewrite Htime; simpl. destruct reqs; [reflexivity | apply last_default].
    + now rewrite Hkeys, keys_touch.
Qed.

(** X6.  Last write wins.  For an existing user and an existing video, any
    run of requests for the pair, with whatever flags, succeeds as a whole
    and leaves exactly one record of the pair: it has the flag and the time
    of the last request, and the table has the rows the first request left
    (no request after the first adds one). *)
Theorem last_write_wins
        (db : Db) (u v : string) (env : Env) (c : bool) (reqs : list (Env * bool)) :
  consistent db ->
  In u (users db) -> In v (videos db) ->
  fresh env db ->
  exists db' r,
    calls ((env, c) :: reqs) u v db = (Ok tt, db')
    /\ consistent db'
    /\ records_of u v db' = [r]
    /\ completed r = last (map snd reqs) c
    /\ updatedAt r = last (map (fun q => now (fst q)) reqs) (now env)
    /\ keys db' = keys (snd (setCompletion env u v c db)).
Proof.
  intros Hc Hu Hv Hfresh.
  destruct (setCompletion_first env u v c db Hc Hfresh Hu Hv)
    as (db1 & p1 & Hrun1 & Hc1 & _ & _ & Hrec1 & Hp1 & Ht1).
  destruct (calls_existing u v reqs db1 p1 Hc1 Hrec1)
    as (db' & r & Hrun & Hc' & Hrec' & Hflag & Htime & Hkeys).
  exists db', r. simpl calls. unfold bind at 1. rewrite Hrun1, Hrun.
  split_ands; auto; congruence.
Qed.

Lemma last_write_wins_witness :
  exists db' r,
    calls [ ({| now := 1000; cuid := "c1" |}, true);
            ({| now := 2000; cuid := "c2" |}, true);
            ({| now := 3000; cuid := "c3" |}, false) ] "u1" "v1"
          {| users := ["u1"]; videos := ["v1"]; userVideoProgress := [] |}
    = (Ok tt, db')
    /\ consistent db'
    /\ records_of "u1" "v1" db' = [r]
    /\ completed r = false
    /\ updatedAt r = 3000%Z
    /\ keys db'
       = keys (snd (setCompletion {| now := 1000; cuid := "c1" |} "u1" "v1" true
                      {| users := ["u1"]; videos := ["v1"];
                         userVideoProgress := [] |})).
Proof.
  apply (last_write_wins
           {| users := ["u1"]; videos := ["v1"]; userVideoProgress := [] |}
           "u1" "v1" {| now := 1000; cuid := "c1" |} true
           [ ({| now := 2000; cuid := "c2" |}, true);
             ({| now := 3000; cuid := "c3" |}, false) ]).
  - split; simpl; constructor.
  - simpl; auto.
  - simpl; auto.
  - unfold fresh; simpl; tauto.
Defined.

(** A call that succeeds leaves exactly one record of the pair, with the
    flag and the time of the call. *)
Lemma setCompletion_result (env : Env) (u v : string) (c : bool) (db db' : Db) :
  consistent db ->
  setCompletion env u v c db = (Ok tt, db') ->
  exists r, records_of u v db' = [r] /\ completed r = c /\ updatedAt r = now env.
Proof.
  intros Hc Hrun.
  destruct (setCompletion_cases env u v c db)
    as [(_ & _ & H) | [(_ & _ & _ & H)
        | [(p & Hfind & _) | (Hfind & _ & _ & _ & H)]]];
    try (rewrite H in Hrun; discriminate).
  - pose proof (find_some_records u v db p Hc Hfind) as Hrec.
    rewrite (setCompletion_existing env u v c db p Hc Hrec) in Hrun.
    injection Hrun as <-. exists (set_completed env c p).
    rewrite records_of_touch, Hrec. auto.
  - rewrite H in Hrun. injection Hrun as <-.
    eexists. rewrite records_of_insert, (find_none_records u v db Hfind).
    simpl; split_ands; reflexivity.
Qed.

(** The action succeeds exactly through a successful call. *)
Lemma action_success (env : Env) (u : string) (videoId : option string)
      (form : FormData) (db db' : Db) :
  action env u videoId form db = (Ok JsonSuccess, db') ->
  exists v,
    videoId = Some v /\ v <> ""
    /\ setCompletion env u v (completed_of_form form) db = (Ok tt, db').
Proof.
  destruct videoId as [[|a v]|]; simpl; try discriminate.
  unfold bind, ret.
  destruct (setCompletion env u (String a v) (completed_of_form form) db)
    as [[[]|e] db1] eqn:Hrun; [|discriminate].
  intros [= <-]. exists (String a v). split_ands; [reflexivity | discriminate | exact Hrun].
Qed.

(** What a call leaves for its own pair is decided by what the pair had. *)
Lemma setCompletion_own_records (env : Env) (u v : string) (c : bool) (db : Db) :
  consistent db ->
  records_of u v (snd (setCompletion env u v c db))
  = match fst (setCompletion env u v c db), records_of u v db with
    | Ok _, p :: _ => [set_completed env c p]
    | Ok _, [] => [ {| id := cuid env; userId := u; videoId := v;
                       completed := c; updatedAt := now env |} ]
    | Threw _, rs => rs
    end.
Proof.
  intros Hc.
  destruct (setCompletion_cases env u v c db)
    as [(_ & _ & ->) | [(_ & _ & _ & ->)
        | [(p & Hfind & _) | (Hfind & _ & _ & _ & ->)]]]; simpl; auto.
  - pose proof (find_some_records u v db p Hc Hfind) as Hrec.
    rewrite (setCompletion_existing env u v c db p Hc Hrec). simpl.
    now rewrite records_of_touch, Hrec.
  - now rewrite records_of_insert, (find_none_records u v db Hfind).
Qed.

Lemma fresh_after_other (env env2 : Env) (u v : string) (c : bool) (db : Db) :
  fresh env db -> cuid env <> cuid env2 ->
  fresh env (snd (setCompletion env2 u v c db)).
Proof.
  intros Hfresh Hne. unfold fresh in *.
  assert (Hids : forall d, map id (userVideoProgress d) = map (fun k => fst (fst k)) (keys d)).
  { intros d. unfold keys. rewrite map_map. reflexivity. }
  rewrite Hids in *.
  destruct (setCompletion_keys env2 u v c db) as [-> | ->]; [assumption|].
  rewrite map_app, in_app_iff. simpl. intuition congruence.
Qed.

(** X25.  Calls for different pairs are independent.  For two different
    (user, video) pairs and two different generated keys, the two calls can
    run in either order: each has the outcome it has on its own, and after
    both the records of every pair are the same in both orders. *)
Theorem calls_on_different_pairs_commute
        (db : Db) (env1 env2 : Env) (u1 v1 u2 v2 : string) (c1 c2 : bool) :
  consistent db ->
  (u1, v1) <> (u2, v2) ->
  cuid env1 <> cuid env2 ->
  fresh env1 db -> fresh env2 db ->
  fst (setCompletion env1 u1 v1 c1 (snd (setCompletion env2 u2 v2 c2 db)))
  = fst (setCompletion env1 u1 v1 c1 db)
  /\ fst (setCompletion env2 u2 v2 c2 (snd (setCompletion env1 u1 v1 c1 db)))
     = fst (setCompletion env2 u2 v2 c2 db)
  /\ forall u v,
       records_of u v
         (snd (setCompletion env2 u2 v2 c2 (snd (setCompletion env1 u1 v1 c1 db))))
       = records_of u v
           (snd (setCompletion env1 u1 v1 c1 (snd (setCompletion env2 u2 v2 c2 db)))).
Proof.
  intros Hc Hne Hcuid Hf1 Hf2.
  set (a := snd (setCompletion env1 u1 v1 c1 db)).
  set (b := snd (setCompletion env2 u2 v2 c2 db)).
  destruct (setCompletion_consistent env1 u1 v1 c1 db Hc) as (Hca & Hua & Hva).
  destruct (setCompletion_consistent env2 u2 v2 c2 db Hc) as (Hcb & Hub & Hvb).
  fold a in Hca, Hua, Hva. fold b in Hcb, Hub, Hvb.
  assert (Hf1b : fresh env1 b) by (apply fresh_after_other; auto).
  assert (Hf2a : fresh env2 a) by (apply fresh_after_other; auto).
  assert (Hsame : forall env u v c d d',
             consistent d -> consistent d' -> fresh env d -> fresh env d' ->
             users d' = users d -> videos d' = videos d ->
             fst (setCompletion env u v c d') = fst (setCompletion env u v c d)).
  { intros env u v c d d' Hd Hd' Hfd Hfd' Hu Hv.
    destruct (setCompletion_outcome env u v c d Hd Hfd) as [Hiff Hor].
    destruct (setCompletion_outcome env u v c d' Hd' Hfd') as [Hiff' Hor'].
    rewrite Hu, Hv in Hiff'.
    destruct Hor as [H|H]; destruct Hor' as [H'|H']; rewrite H, H'; try reflexivity.
    - exfalso. rewrite H' in Hiff'. rewrite H in Hiff.
      assert (X : @Threw unit ForeignKeyConstraintFailed = Ok tt) by tauto.
      discriminate X.
    - exfalso. rewrite H' in Hiff'. rewrite H in Hiff.
      assert (X : @Threw unit ForeignKeyConstraintFailed = Ok tt) by tauto.
      discriminate X. }
  assert (H1 : fst (setCompletion env1 u1 v1 c1 b) = fst (setCompletion env1 u1 v1 c1 db))
    by (apply Hsame; auto).
  assert (H2 : fst (setCompletion env2 u2 v2 c2 a) = fst (setCompletion env2 u2 v2 c2 db))
    by (apply Hsame; auto).
  split_ands; [exact H1 | exact H2 |].
  intros u v.
  destruct (string_dec u u1) as [->|Hu1]; [destruct (string_dec v v1) as [->|Hv1]|].
  - rewrite (setCompletion_other_records env2 u2 v2 u1 v1 c2 a Hca) by congruence.
    unfold a. rewrite !setCompletion_own_records by assumption.
    fold b. rewrite H1.
    unfold b. now rewrite (setCompletion_other_records env2 u2 v2 u1 v1 c2 db Hc) by congruence.
  - destruct (string_dec u1 u2) as [->|Hu2]; [destruct (string_dec v v2) as [->|Hv2]|].
    + rewrite (setCompletion_other_records env1 u2 v1 u2 v2 c1 b Hcb) by congruence.
      unfold b. rewrite !setCompletion_own_records by assumption.
      fold a. rewrite H2.
      unfold a. now rewrite (setCompletion_other_records env1 u2 v1 u2 v2 c1 db Hc) by congruence.
    + rewrite (setCompletion_other_records env2 u2 v2 u2 v c2 a Hca) by congruence.
      rewrite (setCompletion_other_records env1 u2 v1 u2 v c1 b Hcb) by congruence.
      unfold a, b.
      rewrite (setCompletion_other_records env1 u2 v1 u2 v c1 db Hc) by congruence.
      now rewrite (setCompletion_other_records env2 u2 v2 u2 v c2 db Hc) by congruence.
    + rewrite (setCompletion_other_records env2 u2 v2 u1 v c2 a Hca) by congruence.
      rewrite (setCompletion_other_records env1 u1 v1 u1 v c1 b Hcb) by congruence.
      unfold a, b.
      rewrite (setCompletion_other_records env1 u1 v1 u1 v c1 db Hc) by congruence.
      now rewrite (setCompletion_other_records env2 u2 v2 u1 v c2 db Hc) by congruence.
  - rewrite (setCompletion_other_records env1 u1 v1 u v c1 b Hcb) by congruence.
    destruct (string_dec u u2) as [->|Hu2]; [destruct (string_dec v v2) as [->|Hv2]|].
    + unfold b. rewrite !setCompletion_own_records by assumption.
      fold a. rewrite H2.
      unfold a. now rewrite (setCompletion_other_records env1 u1 v1 u2 v2 c1 db Hc) by congruence.
    + rewrite (setCompletion_other_records env2 u2 v2 u2 v c2 a Hca) by congruence.
      unfold a, b.
      rewrite (setCompletion_other_records env1 u1 v1 u2 v c1 db Hc) by congruence.
      now rewrite (setCompletion_other_records env2 u2 v2 u2 v c2 db Hc) by congruence.
    + rewrite (setCompletion_other_records env2 u2 v2 u v c2 a Hca) by congruence.
      unfold a, b.
      rewrite (setCompletion_other_records env1 u1 v1 u v c1 db Hc) by congruence.
      now rewrite (setCompletion_other_records env2 u2 v2 u v c2 db Hc) by congruence.
Qed.

Lemma calls_on_different_pairs_commute_witness :
  records_of "u1" "v1"
    (snd (setCompletion {| now := 2000; cuid := "c3" |} "u2" "v1" true
            (snd (setCompletion {| now := 1000; cuid := "c2" |} "u1" "v1" true
                    {| users := ["u1"; "u2"]; videos := ["v1"];
                       userVideoProgress :=
                         [ {| id := "c1"; userId := "u2"; videoId := "v1";
                              completed := false; updatedAt := 5 |} ] |}))))
  = records_of "u1" "v1"
      (snd (setCompletion {| now := 1000; cuid := "c2" |} "u1" "v1" true
              (snd (setCompletion {| now := 2000; cuid := "c3" |} "u2" "v1" true
                      {| users := ["u1"; "u2"]; videos := ["v1"];
                         userVideoProgress :=
                           [ {| id := "c1"; userId := "u2"; videoId := "v1";
                                completed := false; updatedAt := 5 |} ] |})))).
Proof.
  refine (proj2 (proj2 (calls_on_different_pairs_commute
                   {| users := ["u1"; "u2"]; videos := ["v1"];
                      userVideoProgress :=
                        [ {| id := "c1"; userId := "u2"; videoId := "v1";
                             completed := false; updatedAt := 5 |} ] |}
                   {| now := 1000; cuid := "c2" |}
                   {| now := 2000; cuid := "c3" |}
                   "u1" "v1" "u2" "v1" true true _ _ _ _ _)) "u1" "v1").
  - split; simpl; repeat constructor; simpl; intuition discriminate.
  - discriminate.
  - discriminate.
  - unfold fresh; simpl; intuition discriminate.
  - unfold fresh; simpl; intuition discriminate.
Defined.

End StoreInvariants.

(* ================================================================== *)
(** ** Further properties of the resolver *)
(* ================================================================== *)

Section PlayerFacts.

Import Resolver Player.

Lemma list_ascii_of_append (a b : string) :
  list_ascii_of_string (String.append a b)
  = list_ascii_of_string a ++ list_ascii_of_string b.
Proof.
  induction a as [|c a IH]; simpl; [reflexivity | now rewrite IH].
Qed.

Lemma take_while_app_stop (cls : ascii -> bool) (d rest : list ascii) :
  forallb cls d = true ->
  match rest with [] => True | c :: _ => cls c = false end ->
  take_while cls (d ++ rest) = d.
Proof.
  intros Hd Hstop. induction d as [|c d IH]; simpl in *.
  - destruct rest as [|c rest]; simpl; [reflexivity | now rewrite Hstop].
  - apply andb_true_iff in Hd as [Hc Hd]. now rewrite Hc, IH.
Qed.

(** The Vimeo pattern at the head of [s], exactly. *)
Lemma vimeo_at_spec (s d : list ascii) :
  vimeo_at s = Some d <->
  exists rest,
    s = list_ascii_of_string "vimeo.com/" ++ d ++ rest
    /\ d <> [] /\ forallb is_digit d = true
    /\ match rest with [] => True | c :: _ => is_digit c = false end.
Proof.
  unfold vimeo_at; split.
  - destruct (strip_prefix _ s) as [r|] eqn:Hs; [|discriminate].
    apply strip_prefix_inv in Hs.
    destruct (take_while_split is_digit r) as (rest & Hsplit & Hall & Hstop).
    destruct (take_while is_digit r) as [|c t] eqn:Ht; [discriminate|].
    intros [= <-]. exists rest. split_ands; auto; [congruence | discriminate].
  - intros (rest & -> & Hne & Hall & Hstop).
    rewrite strip_prefix_app, take_while_app_stop by assumption.
    destruct d; [contradiction | reflexivity].
Qed.

Lemma vimeoMatch_spec (url i : string) :
  vimeoMatch url = Some i <->
  exists pre d rest,
    leftmost_vimeo_form pre d rest url /\ i = string_of_list_ascii d.
Proof.
  unfold vimeoMatch, leftmost_vimeo_form, vimeo_form_at; split.
  - destruct (search vimeo_at (list_ascii_of_string url)) as [d|] eqn:H;
      [|discriminate].
    simpl; intros [= <-].
    apply search_inv in H as (pre & suf & Heq & Hat & Hmin).
    apply vimeo_at_spec in Hat as (rest & -> & Hne & Hall & Hstop).
    exists pre, d, rest; split; [split|reflexivity]; [auto|].
    intros pre' d' rest' (Heq' & Hne' & Hall' & Hstop').
    destruct (Nat.le_gt_cases (List.length pre) (List.length pre')) as [|Hlt];
      [assumption|exfalso].
    specialize (Hmin _ _ Heq' Hlt).
    assert (Hsome : vimeo_at (list_ascii_of_string "vimeo.com/" ++ d' ++ rest')
                    = Some d') by (apply vimeo_at_spec; exists rest'; auto).
    simpl in Hsome, Hmin. congruence.
  - intros (pre & d & rest & ((Heq & Hne & Hall & Hstop) & Hmin) & ->).
    rewrite Heq, (search_leftmost vimeo_at pre _ d); [reflexivity| |].
    + apply vimeo_at_spec; exists rest; auto.
    + intros pre' suf' Heq' Hlt.
      destruct (vimeo_at suf') as [d'|] eqn:Hat; [exfalso|reflexivity].
      apply vimeo_at_spec in Hat as (rest' & -> & Hne' & Hall' & Hstop').
      assert (List.length pre <= List.length pre'); [|lia].
      apply (Hmin pre' d' rest'). split_ands; auto; congruence.
Qed.

Lemma getVideoId_vimeo (url i : string) :
  getVideoId url = Some {| type := vimeo; id := i |}
  <-> youtubeMatch url = None /\ vimeoMatch url = Some i.
Proof.
  unfold getVideoId. destruct (youtubeMatch url) as [m|].
  - split; [discriminate | intros [H _]; discriminate].
  - destruct (vimeoMatch url) as [j|]; split.
    + intros [= ->]. auto.
    + intros [_ [= ->]]. reflexivity.
    + discriminate.
    + intros [_ H]; discriminate.
Qed.

(** X7.  A URL resolves as Vimeo with id [i] exactly when it contains no
    YouTube form and [i] is the whole run of digits that follows the first
    [vimeo.com/] which is followed by a digit: the id is never empty, is made
    of digits only, and is never cut short. *)
Theorem vimeo_classification (url i : string) :
  getVideoId url = Some {| type := vimeo; id := i |}
  <-> ~ contains_youtube_form url
      /\ exists pre d rest,
           leftmost_vimeo_form pre d rest url /\ i = string_of_list_ascii d.
Proof.
  rewrite getVideoId_vimeo, <- vimeoMatch_spec, <- youtubeMatch_some_iff.
  split; intros [Hy Hv]; split; auto.
  - intros (m & Hm); congruence.
  - destruct (youtubeMatch url) as [m|]; [|reflexivity].
    exfalso; apply Hy; eauto.
Qed.

Lemma search_none_intro {A : Type} (pat : list ascii -> option A) (s : list ascii) :
  (forall pre suf, s = pre ++ suf -> pat suf = None) -> search pat s = None.
Proof.
  induction s as [|c s IH]; intros H; simpl.
  - now rewrite (H [] [] eq_refl).
  - rewrite (H [] (c :: s) eq_refl). apply IH.
    intros pre suf Heq. apply (H (c :: pre) suf). now rewrite Heq.
Qed.

Lemma digit_is_not_y_or_v (c : ascii) :
  is_digit c = true -> c <> "y"%char /\ c <> "v"%char.
Proof.
  intros H; split; intros ->; discriminate H.
Qed.

Lemma no_pattern_in_digits (s : list ascii) :
  forallb is_digit s = true -> youtube_at s = None /\ vimeo_at s = None.
Proof.
  destruct s as [|c s]; [split; reflexivity|]. simpl.
  intros H. apply andb_true_iff in H as [Hc _].
  destruct (digit_is_not_y_or_v c Hc) as [Hy Hv].
  assert (Hy' : Ascii.eqb "y" c = false) by (apply Ascii.eqb_neq; congruence).
  assert (Hv' : Ascii.eqb "v" c = false) by (apply Ascii.eqb_neq; congruence).
  unfold youtube_at, vimeo_at, youtube_prefixes.
  cbn [first_some map String.append list_ascii_of_string strip_prefix].
  now rewrite Hy', Hv'.
Qed.

Lemma forallb_suffix {A : Type} (f : A -> bool) (pre suf : list A) :
  forallb f (pre ++ suf) = true -> forallb f suf = true.
Proof.
  rewrite forallb_app. intros H. now apply andb_true_iff in H.
Qed.

(** The embed URL of an id resolves to that id. *)
Lemma youtube_embed_resolves (w : list ascii) :
  List.length w = 11 -> forallb is_id_char w = true ->
  search youtube_at (list_ascii_of_string "https://www.youtube.com/embed/" ++ w)
  = Some w.
Proof.
  intros Hl Hall.
  change (list_ascii_of_string "https://www.youtube.com/embed/" ++ w)
    with (list_ascii_of_string "https://www."
          ++ list_ascii_of_string "youtube.com/embed/" ++ w).
  apply search_leftmost.
  - apply youtube_at_spec. exists "youtube.com/embed/"%string, [].
    rewrite app_nil_r. unfold youtube_prefixes; simpl; auto.
  - intros pre' suf' Heq Hlt.
    do 12 (destruct pre' as [|? pre'];
           [simpl in Heq; subst suf'; reflexivity
           |simpl in Heq; injection Heq as _ Heq]).
    simpl in Hlt; lia.
Qed.

(** Neither pattern matches anywhere in the player URL of a run of
    digits. *)
Lemma vimeo_player_does_not_resolve (d : list ascii) :
  forallb is_digit d = true ->
  search youtube_at (list_ascii_of_string "https://player.vimeo.com/video/" ++ d) = None
  /\ search vimeo_at (list_ascii_of_string "https://player.vimeo.com/video/" ++ d) = None.
Proof.
  intros Hd; split; apply search_none_intro; intros pre suf Heq;
    do 31 (destruct pre as [|? pre];
           [simpl in Heq; subst suf; reflexivity
           |simpl in Heq; injection Heq as _ Heq]);
    subst d; apply forallb_suffix in Hd; now apply no_pattern_in_digits.
Qed.

(** X8.  The [src] strings the component builds, given back to the
    resolver: the YouTube embed URL of a resolved id resolves to the same
    provider and id; the Vimeo player URL of a resolved id resolves to
    nothing. *)
Theorem iframe_src_resolved_again (url : string) (info : VideoInfo) :
  getVideoId url = Some info ->
  getVideoId (embedSrc info)
  = match type info with youtube => Some info | vimeo => None end.
Proof.
  destruct info as [[|] i]; intros H; simpl.
  - apply getVideoId_youtube in H.
    apply youtubeMatch_spec in H as (pre & w & rest & ((p & _ & _ & Hl & Hall) & _) & ->).
    apply getVideoId_youtube. unfold youtubeMatch, embedSrc; cbn [type id].
    rewrite list_ascii_of_append, list_ascii_of_string_of_list_ascii.
    now rewrite youtube_embed_resolves.
  - apply getVideoId_vimeo in H as [_ H].
    apply vimeoMatch_spec in H as (pre & d & rest & ((_ & _ & Hall & _) & _) & ->).
    unfold getVideoId, youtubeMatch, vimeoMatch, embedSrc; cbn [type id].
    rewrite list_ascii_of_append, list_ascii_of_string_of_list_ascii.
    destruct (vimeo_player_does_not_resolve d Hall) as [-> ->]. reflexivity.
Qed.

Lemma iframe_src_resolved_again_witness :
  getVideoId (embedSrc {| type := vimeo; id := "76979871" |}) = None.
Proof.
  apply (iframe_src_resolved_again "https://vimeo.com/76979871"
                                   {| type := vimeo; id := "76979871" |}).
  reflexivity.
Defined.

(** Each of the four prefixes starts with its only [y] and ends with a
    character that cannot be part of an id. *)
Lemma youtube_prefix_shape (p : string) :
  In p youtube_prefixes ->
  exists pm z,
    list_ascii_of_string p = "y"%char :: pm ++ [z]
    /\ ~ In "y"%char (pm ++ [z])
    /\ is_id_char z = false.
Proof.
  unfold youtube_prefixes; simpl.
  intros [<-|[<-|[<-|[<-|[]]]]].
  - exists (list_ascii_of_string "outu.be"), "/"%char.
    split_ands; [reflexivity | simpl; intuition discriminate | reflexivity].
  - exists (list_ascii_of_string "outube.com/embed"), "/"%char.
    split_ands; [reflexivity | simpl; intuition discriminate | reflexivity].
  - exists (list_ascii_of_string "outube.com/v"), "/"%char.
    split_ands; [reflexivity | simpl; intuition discriminate | reflexivity].
  - exists (list_ascii_of_string "outube.com/watch?v"), "="%char.
    split_ands; [reflexivity | simpl; intuition discriminate | reflexivity].
Qed.

Lemma app_eq_first_occurrence {A : Type} (y : A) (l1 l2 a b : list A) :
  ~ In y l1 -> l1 ++ a = l2 ++ y :: b ->
  exists m, l2 = l1 ++ m /\ a = m ++ y :: b.
Proof.
  revert l2; induction l1 as [|x l1 IH]; intros l2 Hy H; simpl in *.
  - exists l2; auto.
  - destruct l2 as [|x' l2]; simpl in H.
    + injection H as -> _. tauto.
    + injection H as -> H.
      destruct (IH l2) as (m & -> & ->); [tauto | assumption |].
      exists m; auto.
Qed.

Lemma run_stops_before {A : Type} (cls : A -> bool) (z : A) (w r m t : list A) :
  forallb cls w = true -> cls z = false ->
  w ++ r = m ++ z :: t ->
  exists t', m ++ [z] = w ++ t'.
Proof.
  revert m; induction w as [|a w IH]; intros m Hw Hz H; simpl in *.
  - exists (m ++ [z]); reflexivity.
  - apply andb_true_iff in Hw as [Ha Hw].
    destruct m as [|b m]; simpl in H; injection H as -> H.
    + congruence.
    + destruct (IH m Hw Hz H) as (t' & Ht'). exists t'. simpl; now rewrite Ht'.
Qed.

(** Text added at the end cannot create a match that starts before a match
    which is already there. *)
Lemma no_earlier_match_by_appending (c : ascii) (l s w1 w : list ascii) :
  youtube_at ((c :: l) ++ s) = Some w1 ->
  search youtube_at l = Some w ->
  youtube_at (c :: l) = Some w1.
Proof.
  intros H1 H2.
  apply youtube_at_spec in H1 as (p' & rest1 & Hin' & Heq1 & Hl1 & Hall1).
  apply search_inv in H2 as (pre & suf & -> & Hat & _).
  apply youtube_at_spec in Hat as (p & rest & Hin & -> & Hl & Hall).
  destruct (youtube_prefix_shape p' Hin') as (pm' & z' & Hp' & Hy' & _).
  destruct (youtube_prefix_shape p Hin) as (pm & z & Hp & _ & Hz).
  rewrite Hp', Hp in Heq1. simpl in Heq1. injection Heq1 as -> Heq1.
  assert (Heq : (pm' ++ [z']) ++ (w1 ++ rest1)
                = pre ++ "y"%char :: (pm ++ [z]) ++ w ++ rest ++ s).
  { rewrite <- Heq1. repeat (rewrite <- app_assoc; simpl). reflexivity. }
  clear Heq1.
  apply app_eq_first_occurrence in Heq as (m & -> & Heq); [|assumption].
  assert (Heq' : w1 ++ rest1 = (m ++ "y"%char :: pm) ++ z :: w ++ rest ++ s).
  { rewrite Heq. repeat (rewrite <- app_assoc; simpl). reflexivity. }
  destruct (run_stops_before is_id_char z w1 rest1 _ _ Hall1 Hz Heq') as (t' & Ht').
  apply youtube_at_spec. exists p', (t' ++ w ++ rest). split_ands; auto.
  rewrite Hp', Hp.
  assert (E : m ++ "y"%char :: pm ++ [z] = w1 ++ t').
  { rewrite <- Ht'. repeat (rewrite <- app_assoc; simpl). reflexivity. }
  change (("y"%char :: pm' ++ [z']) ++ w1 ++ t' ++ w ++ rest)
    with ("y"%char :: (pm' ++ [z']) ++ w1 ++ t' ++ w ++ rest).
  f_equal. rewrite <- (app_assoc (pm' ++ [z']) m). f_equal.
  rewrite (app_assoc w1 t'), <- E. repeat (rewrite <- app_assoc; simpl). reflexivity.
Qed.

Lemma youtube_at_app (l s w : list ascii) :
  youtube_at l = Some w -> youtube_at (l ++ s) = Some w.
Proof.
  intros H. apply youtube_at_spec in H as (p & rest & Hin & -> & Hl & Hall).
  apply youtube_at_spec. exists p, (rest ++ s). split_ands; auto.
  now rewrite <- !app_assoc.
Qed.

Lemma search_cons {A : Type} (pat : list ascii -> option A) (c : ascii) (s : list ascii) :
  search pat (c :: s)
  = match pat (c :: s) with Some r => Some r | None => search pat s end.
Proof. reflexivity. Qed.

Lemma search_youtube_app (l s w : list ascii) :
  search youtube_at l = Some w -> search youtube_at (l ++ s) = Some w.
Proof.
  induction l as [|c l IH]; [discriminate|].
  change ((c :: l) ++ s) with (c :: l ++ s). rewrite !search_cons.
  destruct (youtube_at (c :: l)) as [w0|] eqn:Hhead.
  - intros [= ->]. change (c :: l ++ s) with ((c :: l) ++ s).
    now rewrite (youtube_at_app _ s _ Hhead).
  - intros Hrest. rewrite (IH Hrest).
    destruct (youtube_at (c :: l ++ s)) as [w1|] eqn:H1; [|reflexivity].
    change (c :: l ++ s) with ((c :: l) ++ s) in H1.
    rewrite (no_earlier_match_by_appending c l s w1 w H1 Hrest) in Hhead.
    discriminate.
Qed.

(** X9.  Whatever is added after a URL that resolves as YouTube (a query
    string, a fragment, any text), the resolver returns the same provider
    and the same id. *)
Theorem youtube_result_survives_suffix (url i suffix : string) :
  getVideoId url = Some {| type := youtube; id := i |} ->
  getVideoId (String.append url suffix) = Some {| type := youtube; id := i |}.
Proof.
  intros H.
  apply getVideoId_youtube in H. apply getVideoId_youtube.
  unfold youtubeMatch in *. rewrite list_ascii_of_append.
  destruct (search youtube_at (list_ascii_of_string url)) as [w|] eqn:Hs;
    [|discriminate].
  now rewrite (search_youtube_app _ _ _ Hs).
Qed.

Lemma youtube_result_survives_suffix_witness :
  getVideoId (String.append "https://youtu.be/dQw4w9WgXcQ" "?t=42")
  = Some {| type := youtube; id := "dQw4w9WgXcQ" |}.
Proof.
  apply (youtube_result_survives_suffix
           "https://youtu.be/dQw4w9WgXcQ" "dQw4w9WgXcQ" "?t=42").
  reflexivity.
Defined.

End PlayerFacts.

(* ================================================================== *)
(** ** Properties of the pages *)
(* ================================================================== *)

Section PagesFacts.

Import ProgressStore Schema Pages.

Local Open Scope string_scope.
Local Open Scope list_scope.

Lemma find_by_key {A : Type} (key : A -> string) (k : string) (l : list A) :
  In k (map key l) -> exists x, find (fun x => key x =? k) l = Some x.
Proof.
  induction l as [|a l IH]; simpl; [tauto|].
  intros [<-|Hin].
  - rewrite String.eqb_refl; eauto.
  - destruct (key a =? k); eauto.
Qed.

Lemma find_by_key_some {A : Type} (key : A -> string) (k : string) (l : list A) (x : A) :
  find (fun x => key x =? k) l = Some x -> In x l /\ key x = k.
Proof.
  intros H. apply find_some in H as [Hin Hk]. now apply String.eqb_eq in Hk.
Qed.

Lemma find_by_key_none {A : Type} (key : A -> string) (k : string) (l : list A) :
  find (fun x => key x =? k) l = None -> ~ In k (map key l).
Proof.
  intros H Hin. destruct (find_by_key key k l Hin) as (x & Hx). congruence.
Qed.

Lemma param_some (p : option string) (x : string) :
  param p = Some x <-> p = Some x /\ x <> "".
Proof.
  destruct p as [[|a p]|]; simpl; split; try discriminate;
    try (intros [H _]; discriminate H).
  - intros [[= <-] H]. contradiction.
  - intros [= <-]. split; [reflexivity | discriminate].
  - intros [[= <-] _]. reflexivity.
Qed.

(** What a page of the video route was made from. *)
Lemma videoLoader_json (cat : Catalog) (db : Db) (u : string)
      (courseId videoId : option string) (page : VideoPage) :
  videoLoader cat db u courseId videoId = Json page <->
  exists c v row chapter chapter_course course,
    param courseId = Some c /\ param videoId = Some v
    /\ find (fun x => Video.id x =? v) (videos cat) = Some row
    /\ find (fun x => Chapter.id x =? Video.chapterId row) (chapters cat)
       = Some chapter
    /\ find (fun x => Course.id x =? Chapter.courseId chapter) (courses cat)
       = Some chapter_course
    /\ Chapter.courseId chapter = c
    /\ find (fun x => Course.id x =? c) (courses cat) = Some course
    /\ page = {| video := {| found_row := row; found_chapter := chapter;
                             found_course := chapter_course;
                             found_userProgress := records_of u v db |};
                 course := include_chapters cat db u course;
                 isCompleted := some_completed (records_of u v db);
                 user := u |}.
Proof.
  unfold videoLoader; split.
  - destruct (param courseId) as [c|]; [|destruct (param videoId); discriminate].
    destruct (param videoId) as [v|]; [|discriminate].
    destruct (find _ (videos cat)) as [row|] eqn:Hrow; [|discriminate].
    destruct (find _ (chapters cat)) as [chapter|] eqn:Hch; [|discriminate].
    destruct (find (fun x => Course.id x =? Chapter.courseId chapter) (courses cat))
      as [chapter_course|] eqn:Hcc; [|discriminate].
    destruct (String.eqb_spec (Chapter.courseId chapter) c) as [Heq|Hne];
      simpl; [|discriminate].
    destruct (find (fun x => Course.id x =? c) (courses cat)) as [course|] eqn:Hco;
      [|discriminate].
    intros [= <-]. exists c, v, row, chapter, chapter_course, course.
    split_ands; auto.
  - intros (c & v & row & chapter & chapter_course & course
            & -> & -> & -> & -> & -> & Hc & -> & ->).
    rewrite Hc, String.eqb_refl. reflexivity.
Qed.

(** Which outcome the video route has depends on the catalogue only; the
    progress store decides the flags on the page. *)
Lemma videoLoader_other_db (cat : Catalog) (db db2 : Db) (u : string)
      (courseId videoId : option string) (page : VideoPage) :
  videoLoader cat db u courseId videoId = Json page ->
  exists v page2,
    param videoId = Some v
    /\ videoLoader cat db2 u courseId videoId = Json page2
    /\ found_row (video page2) = found_row (video page)
    /\ isCompleted page = some_completed (records_of u v db)
    /\ isCompleted page2 = some_completed (records_of u v db2).
Proof.
  intros H.
  apply videoLoader_json in H
    as (c & v & row & chapter & chapter_course & course
        & Hc & Hv & Hrow & Hch & Hcc & Heq & Hco & ->).
  exists v. eexists. split; [assumption|]. split.
  - apply videoLoader_json.
    exists c, v, row, chapter, chapter_course, course. split_ands; eauto.
  - simpl; auto.
Qed.

Lemma find_by_key_present {A : Type} (key : A -> string) (l : list A) (x : A) :
  NoDup (map key l) -> In x l -> find (fun y => key y =? key x) l = Some x.
Proof.
  intros Hnd Hin.
  destruct (find_by_key key (key x) l (in_map key l x Hin)) as (y & Hy).
  rewrite Hy. f_equal.
  apply find_by_key_some in Hy as [Hyin Hk].
  eapply NoDup_map_inj; eauto.
Qed.

(** X10.  With the keys of the catalogue in place and both route parameters
    present, the video route has exactly three outcomes.  It answers 404
    "Video not found" exactly when no video has the id.  Otherwise the video
    has a chapter, and that chapter decides: when it belongs to another
    course the answer is 400, and when it belongs to the course of the
    route the answer is the page of that video in that course, with the
    records of the signed-in user.  The "Course not found" branch and a
    rejected query cannot happen. *)
Theorem videoLoader_outcomes (cat : Catalog) (db : Db) (u c v : string) :
  well_formed cat db -> c <> "" -> v <> "" ->
  (videoLoader cat db u (Some c) (Some v) = Thrown 404 "Video not found"
   <-> ~ In v (map Video.id (videos cat)))
  /\ (In v (map Video.id (videos cat)) ->
      exists row chapter,
        In row (videos cat) /\ Video.id row = v
        /\ In chapter (chapters cat)
        /\ Chapter.id chapter = Video.chapterId row)
  /\ (forall row chapter,
        In row (videos cat) -> Video.id row = v ->
        In chapter (chapters cat) ->
        Chapter.id chapter = Video.chapterId row ->
        (Chapter.courseId chapter <> c ->
         videoLoader cat db u (Some c) (Some v)
         = Thrown 400 "Video does not belong to this course")
        /\ (Chapter.courseId chapter = c ->
            exists course,
              In course (courses cat) /\ Course.id course = c
              /\ videoLoader cat db u (Some c) (Some v)
                 = Json {| video :=
                             {| found_row := row;
                                found_chapter := chapter;
                                found_course := course;
                                found_userProgress := records_of u v db |};
                           course := include_chapters cat db u course;
                           isCompleted :=
                             existsb completed (records_of u v db);
                           user := u |})).
Proof.
  intros Hwf Hc Hv.
  assert (Hpc : param (Some c) = Some c) by (apply param_some; auto).
  assert (Hpv : param (Some v) = Some v) by (apply param_some; auto).
  pose proof (video_chapter cat db Hwf) as Hvc. rewrite Forall_forall in Hvc.
  pose proof (chapter_course cat db Hwf) as Hcc. rewrite Forall_forall in Hcc.
  split_ands.
  - unfold videoLoader. rewrite Hpc, Hpv.
    destruct (find (fun x => Video.id x =? v) (videos cat)) as [row|] eqn:Hrow.
    + pose proof (find_by_key_some Video.id v _ row Hrow) as [Hin Hid].
      assert (Hhas : In v (map Video.id (videos cat)))
        by (rewrite <- Hid; now apply in_map).
      destruct (find_by_key Chapter.id _ _ (Hvc row Hin)) as (chapter & ->).
      destruct (find (fun x => Course.id x =? Chapter.courseId chapter) (courses cat));
        [|split; [discriminate | tauto]].
      destruct (negb (Chapter.courseId chapter =? c));
        [split; [discriminate | tauto]|].
      destruct (find (fun x => Course.id x =? c) (courses cat));
        split; try discriminate; tauto.
    + split; [intros _; now apply find_by_key_none | reflexivity].
  - intros Hin. apply in_map_iff in Hin as (row & Hid & Hin).
    pose proof (Hvc row Hin) as Hch.
    apply in_map_iff in Hch as (chapter & Hchid & Hchin).
    exists row, chapter. auto.
  - intros row chapter Hin Hid Hchin Hchid.
    assert (Hrow : find (fun x => Video.id x =? v) (videos cat) = Some row).
    { rewrite <- Hid. apply find_by_key_present; [apply (video_key cat db Hwf) | exact Hin]. }
    assert (Hch : find (fun x => Chapter.id x =? Video.chapterId row) (chapters cat)
                  = Some chapter).
    { rewrite <- Hchid.
      apply find_by_key_present; [apply (chapter_key cat db Hwf) | exact Hchin]. }
    destruct (find_by_key Course.id _ _ (Hcc chapter Hchin)) as (cc & Hfcc).
    pose proof (find_by_key_some Course.id _ _ cc Hfcc) as [Hccin Hccid].
    unfold videoLoader. rewrite Hpc, Hpv, Hrow, Hch, Hfcc.
    split.
    + intros Hne. apply String.eqb_neq in Hne. now rewrite Hne.
    + intros Heq. rewrite Heq, String.eqb_refl. simpl.
      rewrite <- Heq, Hfcc. exists cc. split_ands; auto.
Qed.

Lemma sample_well_formed : well_formed sample_catalog sample_db.
Proof.
  split; simpl; try reflexivity;
    try (repeat constructor; simpl; intuition discriminate);
    repeat (apply Forall_cons; [simpl; tauto|]); apply Forall_nil.
Qed.

Lemma sample_consistent : consistent sample_db.
Proof.
  split; simpl; repeat constructor; simpl; intuition discriminate.
Qed.

Lemma videoLoader_outcomes_witness :
  (exists course,
     In course (courses sample_catalog) /\ Course.id course = "co1"
     /\ exists page,
          videoLoader sample_catalog sample_db "u1" (Some "co1") (Some "v1")
          = Json page
          /\ Video.title (found_row (video page)) = "First"
          /\ Chapter.title (found_chapter (video page)) = "One"
          /\ isCompleted page = true)
  /\ videoLoader sample_catalog sample_db "u1" (Some "co2") (Some "v1")
     = Thrown 400 "Video does not belong to this course".
Proof.
  split.
  - destruct (proj2 (proj2 (proj2 (videoLoader_outcomes
                              sample_catalog sample_db "u1" "co1" "v1"
                              sample_well_formed
                              ltac:(discriminate) ltac:(discriminate)))
                     {| Video.id := "v1"; Video.title := "First";
                        Video.videoUrl := "https://youtu.be/dQw4w9WgXcQ";
                        Video.chapterId := "ch1"; Video.order := 1 |}
                     {| Chapter.id := "ch1"; Chapter.title := "One";
                        Chapter.description := None; Chapter.courseId := "co1" |}
                     ltac:(simpl; auto) eq_refl ltac:(simpl; auto) eq_refl)
                   eq_refl)
      as (course & Hin & Hid & Hload).
    exists course. split; [exact Hin|]. split; [exact Hid|].
    eexists. split; [exact Hload|]. split_ands; reflexivity.
  - apply (proj1 (proj2 (proj2 (videoLoader_outcomes
                              sample_catalog sample_db "u1" "co2" "v1"
                              sample_well_formed
                              ltac:(discriminate) ltac:(discriminate)))
                     {| Video.id := "v1"; Video.title := "First";
                        Video.videoUrl := "https://youtu.be/dQw4w9WgXcQ";
                        Video.chapterId := "ch1"; Video.order := 1 |}
                     {| Chapter.id := "ch1"; Chapter.title := "One";
                        Chapter.description := None; Chapter.courseId := "co1" |}
                     ltac:(simpl; auto) eq_refl ltac:(simpl; auto) eq_refl)).
    discriminate.
Defined.

(** X11.  Write, then read.  After the action has answered success for a
    user and a video, the page of that video loaded for that user shows the
    flag the form carried, whatever the page showed before. *)
Theorem action_then_videoLoader
        (cat : Catalog) (db db' : Db) (env : Env) (u : string)
        (courseId videoId : option string) (form : FormData) (page : VideoPage) :
  consistent db ->
  action env u videoId form db = (Ok JsonSuccess, db') ->
  videoLoader cat db' u courseId videoId = Json page ->
  isCompleted page = completed_of_form form.
Proof.
  intros Hc Hact Hload.
  apply action_success in Hact as (v & -> & Hv & Hrun).
  destruct (setCompletion_result env u v _ db db' Hc Hrun) as (r & Hrec & Hr & _).
  destruct (videoLoader_other_db cat db' db' u courseId (Some v) page Hload)
    as (v' & _ & Hp & _ & _ & Hflag & _).
  apply param_some in Hp as [[= <-] _].
  rewrite Hflag, Hrec. simpl. rewrite Hr. apply orb_false_r.
Qed.

Lemma action_then_videoLoader_witness :
  exists page,
    videoLoader sample_catalog
                (snd (action sample_env "u1" (Some "v1")
                             [("completed", FString "false")] sample_db))
                "u1" (Some "co1") (Some "v1") = Json page
    /\ isCompleted page = false.
Proof.
  eexists; split; [reflexivity|].
  apply (action_then_videoLoader
           sample_catalog sample_db
           (snd (action sample_env "u1" (Some "v1")
                        [("completed", FString "false")] sample_db))
           sample_env "u1" (Some "co1") (Some "v1")
           [("completed", FString "false")]).
  - exact sample_consistent.
  - reflexivity.
  - reflexivity.
Defined.

Lemma sample_fresh : fresh sample_env sample_db.
Proof. unfold fresh; simpl; intuition discriminate. Qed.

Lemma insert_by_perm {A : Type} (leb : A -> A -> bool) (x : A) (l : list A) :
  Permutation (insert_by leb x l) (x :: l).
Proof.
  induction l as [|y l IH]; simpl; [reflexivity|].
  destruct (leb x y); [reflexivity|].
  rewrite IH. apply perm_swap.
Qed.

Lemma sort_by_perm {A : Type} (leb : A -> A -> bool) (l : list A) :
  Permutation (sort_by leb l) l.
Proof.
  induction l as [|x l IH]; simpl; [reflexivity|].
  unfold sort_by in *; simpl. rewrite insert_by_perm. now constructor.
Qed.

Lemma sort_by_in {A : Type} (leb : A -> A -> bool) (l : list A) (x : A) :
  In x (sort_by leb l) <-> In x l.
Proof.
  split; apply Permutation_in;
    [apply sort_by_perm | symmetry; apply sort_by_perm].
Qed.

(** Every video listed on a course page is a row of the catalogue with the
    records of the signed-in user for it. *)
Lemma listed_inv (cat : Catalog) (db : Db) (u : string) (c : Course.t)
      (vw : VideoWithProgress) :
  In vw (listed (include_chapters cat db u c)) ->
  exists ch row,
    In ch (course_chapters cat c) /\ In row (chapter_videos cat ch)
    /\ vw = with_userProgress db u row.
Proof.
  unfold listed, include_chapters; simpl. intros H.
  apply in_flat_map in H as (chw & Hchw & Hvw).
  apply in_map_iff in Hchw as (ch & <- & Hch). simpl in Hvw.
  apply in_map_iff in Hvw as (row & <- & Hrow).
  apply sort_by_in in Hch, Hrow. eauto.
Qed.

(** The course a page of the video route carries holds the video of the
    page, under the chapter the first query found for it. *)
Lemma loaded_video_is_listed
      (cat : Catalog) (db : Db) (u : string)
      (courseId videoId : option string) (page : VideoPage) :
  videoLoader cat db u courseId videoId = Json page ->
  exists ch vw,
    In ch (chapters_of (course page)) /\ In vw (videos_of ch)
    /\ chapter_row ch = found_chapter (video page)
    /\ video_row vw = found_row (video page).
Proof.
  intros H.
  apply videoLoader_json in H
    as (c & v & row & chapter & chapter_course & course
        & _ & _ & Hrow & Hch & _ & Heq & Hco & ->).
  simpl.
  pose proof (find_by_key_some Video.id v _ row Hrow) as [Hinrow Hid].
  pose proof (find_by_key_some Chapter.id _ _ chapter Hch) as [Hinch Hchid].
  pose proof (find_by_key_some Course.id c _ course Hco) as [_ Hcoid].
  exists {| chapter_row := chapter;
            videos_of :=
              map (with_userProgress db u)
                  (sort_by (fun a b => (Video.order a <=? Video.order b)%Z)
                           (chapter_videos cat chapter)) |},
         (with_userProgress db u row).
  split_ands; try reflexivity.
  - apply in_map_iff. exists chapter; split; [reflexivity|].
    apply sort_by_in, filter_In. split; [assumption|].
    rewrite Heq, Hcoid. apply String.eqb_refl.
  - simpl. apply in_map, sort_by_in, filter_In. split; [assumption|].
    rewrite Hchid. apply String.eqb_refl.
Qed.

(** X12.  The component of the video route never returns its elements for
    a page its loader returned: the course of such a page lists the video of
    the page, so the side bar has an entry, and building the first entry
    throws the [ReferenceError] on [Link]. *)
Theorem VideoDetail_throws_on_every_loaded_page
        (cat : Catalog) (db : Db) (u : string)
        (courseId videoId : option string) (page : VideoPage) :
  videoLoader cat db u courseId videoId = Json page ->
  VideoDetail page = ReferenceError "Link".
Proof.
  intros H.
  destruct (loaded_video_is_listed cat db u courseId videoId page H)
    as (ch & vw & Hch & Hvw & _).
  unfold VideoDetail.
  destruct (listed (course page)) as [|x l] eqn:Hl; [exfalso|reflexivity].
  assert (Hin : In vw (listed (course page))).
  { unfold listed. apply in_flat_map. exists ch. split; assumption. }
  rewrite Hl in Hin. destruct Hin.
Qed.

Lemma VideoDetail_throws_on_every_loaded_page_witness :
  exists page,
    videoLoader sample_catalog sample_db "u1" (Some "co1") (Some "v1") = Json page
    /\ VideoDetail page = ReferenceError "Link".
Proof.
  eexists; split; [reflexivity|].
  exact (VideoDetail_throws_on_every_loaded_page
           sample_catalog sample_db "u1" (Some "co1") (Some "v1") _ eq_refl).
Defined.

(** X13.  The two queries of the video loader agree.  In the data of a page,
    the course (second query) holds the video of the page (first query)
    under the chapter the first query found for it, and every such entry
    carries a completed progress record exactly when [isCompleted], computed
    from the records of the first query, is true. *)
Theorem loaded_page_is_coherent
        (cat : Catalog) (db : Db) (u : string)
        (courseId videoId : option string) (page : VideoPage) :
  videoLoader cat db u courseId videoId = Json page ->
  (exists ch vw,
      In ch (chapters_of (course page)) /\ In vw (videos_of ch)
      /\ chapter_row ch = found_chapter (video page)
      /\ video_row vw = found_row (video page))
  /\ forall vw,
       In vw (listed (course page)) ->
       Video.id (video_row vw) = Video.id (found_row (video page)) ->
       userProgress vw = found_userProgress (video page)
       /\ existsb completed (userProgress vw) = isCompleted page.
Proof.
  intros H. split; [eapply loaded_video_is_listed; eassumption|].
  apply videoLoader_json in H
    as (c & v & row & chapter & chapter_course & course
        & _ & _ & Hrow & _ & _ & _ & _ & ->).
  simpl.
  pose proof (find_by_key_some Video.id v _ row Hrow) as [_ Hid].
  intros vw Hvw Hsame.
  apply listed_inv in Hvw as (ch & row' & _ & _ & ->).
  simpl in *. rewrite Hsame, Hid. split; reflexivity.
Qed.

Lemma loaded_page_is_coherent_witness :
  exists page,
    videoLoader sample_catalog sample_db "u1" (Some "co1") (Some "v1") = Json page
    /\ exists ch vw,
         In ch (chapters_of (course page)) /\ In vw (videos_of ch)
         /\ chapter_row ch = found_chapter (video page)
         /\ video_row vw = found_row (video page).
Proof.
  eexists; split; [reflexivity|].
  exact (proj1 (loaded_page_is_coherent
                  sample_catalog sample_db "u1" (Some "co1") (Some "v1") _ eq_refl)).
Defined.

(** The pages read the progress store through the records of the signed-in
    user only. *)
Lemma include_chapters_ext (cat : Catalog) (db db2 : Db) (u : string) (c : Course.t) :
  (forall x, records_of u x db2 = records_of u x db) ->
  include_chapters cat db2 u c = include_chapters cat db u c.
Proof.
  intros H. unfold include_chapters. f_equal.
  apply map_ext; intros ch. f_equal.
  apply map_ext; intros row. unfold with_userProgress. now rewrite H.
Qed.

Lemma videoLoader_ext (cat : Catalog) (db db2 : Db) (u : string)
      (courseId videoId : option string) :
  (forall x, records_of u x db2 = records_of u x db) ->
  videoLoader cat db2 u courseId videoId = videoLoader cat db u courseId videoId.
Proof.
  intros H. unfold videoLoader.
  destruct (param courseId) as [c|]; [|reflexivity].
  destruct (param videoId) as [v|]; [|reflexivity].
  destruct (find _ (videos cat)) as [row|]; [|reflexivity].
  destruct (find _ (chapters cat)) as [chapter|]; [|reflexivity].
  destruct (find (fun x => Course.id x =? Chapter.courseId chapter) (courses cat));
    [|reflexivity].
  destruct (negb _); [reflexivity|].
  destruct (find (fun x => Course.id x =? c) (courses cat)) as [course|];
    [|reflexivity].
  now rewrite H, (include_chapters_ext cat db db2 u course H).
Qed.

Lemma courseLoader_ext (cat : Catalog) (db db2 : Db) (u : string)
      (courseId : option string) :
  (forall x, records_of u x db2 = records_of u x db) ->
  courseLoader cat db2 u courseId = courseLoader cat db u courseId.
Proof.
  intros H. unfold courseLoader.
  destruct (param courseId) as [c|]; [|reflexivity].
  destruct (find _ (courses cat)) as [course|]; [|reflexivity].
  now rewrite (include_chapters_ext cat db db2 u course H).
Qed.

Lemma find_filter {A : Type} (f g : A -> bool) (l : list A) :
  find f (filter g l) = find (fun x => g x && f x) l.
Proof.
  induction l as [|a l IH]; simpl; [reflexivity|].
  destruct (g a); simpl; [destruct (f a); auto | exact IH].
Qed.

(** The progress records the dashboard query returns for a user are the
    records of that user, pair by pair. *)
Lemma user_progress_ext (db db2 : Db) (u : string) :
  consistent db -> consistent db2 ->
  (forall x, records_of u x db2 = records_of u x db) ->
  forall dv,
    Dashboard.counted (filter (fun p => userId p =? u) (userVideoProgress db2)) dv
    = Dashboard.counted (filter (fun p => userId p =? u) (userVideoProgress db)) dv.
Proof.
  intros Hc Hc2 H dv. unfold Dashboard.counted.
  rewrite !find_filter.
  change (fun x => (userId x =? u) && (videoId x =? Dashboard.id dv))
    with (same_key u (Dashboard.id dv)).
  specialize (H (Dashboard.id dv)).
  destruct (find (same_key u (Dashboard.id dv)) (userVideoProgress db2)) as [p2|] eqn:H2;
    destruct (find (same_key u (Dashboard.id dv)) (userVideoProgress db)) as [p1|] eqn:H1.
  - rewrite (find_some_records _ _ _ _ Hc2 H2), (find_some_records _ _ _ _ Hc H1) in H.
    now injection H as ->.
  - rewrite (find_some_records _ _ _ _ Hc2 H2), (find_none_records _ _ _ H1) in H.
    discriminate.
  - rewrite (find_none_records _ _ _ H2), (find_some_records _ _ _ _ Hc H1) in H.
    discriminate.
  - reflexivity.
Qed.

Lemma filter_user_touch (env : Env) (c : bool) (u u' v' : string) (db : Db) :
  u' <> u ->
  filter (fun p => userId p =? u) (userVideoProgress (touch env c u' v' db))
  = filter (fun p => userId p =? u) (userVideoProgress db).
Proof.
  intros Hne. unfold touch; simpl.
  induction (userVideoProgress db) as [|r rows IH]; simpl; [reflexivity|].
  destruct (same_key u' v' r) eqn:Hk; simpl.
  - apply same_key_true in Hk as [Hu _].
    assert (Hno : (userId r =? u) = false) by (apply String.eqb_neq; congruence).
    now rewrite Hno.
  - destruct (userId r =? u); now rewrite IH.
Qed.

Lemma filter_user_after_other (env : Env) (u u' v' : string) (c : bool) (db : Db) :
  consistent db -> u' <> u ->
  filter (fun p => userId p =? u)
         (userVideoProgress (snd (setCompletion env u' v' c db)))
  = filter (fun p => userId p =? u) (userVideoProgress db).
Proof.
  intros Hc Hne.
  destruct (setCompletion_cases env u' v' c db)
    as [(_ & _ & ->) | [(_ & _ & _ & ->)
        | [(p & Hfind & _) | (_ & _ & _ & _ & ->)]]]; simpl; auto.
  - rewrite (setCompletion_existing env u' v' c db p Hc
               (find_some_records u' v' db p Hc Hfind)).
    now apply filter_user_touch.
  - rewrite filter_app; simpl.
    assert (Hno : (u' =? u) = false) by now apply String.eqb_neq.
    rewrite Hno. apply app_nil_r.
Qed.

(** X14.  What another user does never shows.  A mark-watched call of user
    [u'] changes nothing on the video page, the course page or the dashboard
    of a different user [u]: each loader returns what it returned before. *)
Theorem pages_ignore_other_users
        (cat : Catalog) (db : Db) (env : Env) (u u' v' : string) (c : bool) :
  consistent db -> u' <> u ->
  (forall courseId videoId,
      videoLoader cat (snd (setCompletion env u' v' c db)) u courseId videoId
      = videoLoader cat db u courseId videoId)
  /\ (forall courseId,
        courseLoader cat (snd (setCompletion env u' v' c db)) u courseId
        = courseLoader cat db u courseId)
  /\ dashboardLoader cat (snd (setCompletion env u' v' c db)) u
     = dashboardLoader cat db u.
Proof.
  intros Hc Hne.
  assert (Hrec : forall x,
             records_of u x (snd (setCompletion env u' v' c db)) = records_of u x db).
  { intros x. apply setCompletion_other_records; [assumption|]. congruence. }
  split_ands.
  - intros; now apply videoLoader_ext.
  - intros; now apply courseLoader_ext.
  - unfold dashboardLoader, fetchUser.
    destruct (setCompletion_consistent env u' v' c db Hc) as (_ & -> & _).
    now rewrite filter_user_after_other.
Qed.

Lemma pages_ignore_other_users_witness :
  dashboardLoader sample_catalog
                  (snd (setCompletion sample_env "u2" "v1" true sample_db)) "u1"
  = dashboardLoader sample_catalog sample_db "u1".
Proof.
  refine (proj2 (proj2 (pages_ignore_other_users
                          sample_catalog sample_db sample_env "u1" "u2" "v1" true
                          _ _))).
  - exact sample_consistent.
  - discriminate.
Defined.

Lemma traverse_inv {A B : Type} (f : A -> option B) (l : list A) (bs : list B) :
  traverse f l = Some bs -> Forall2 (fun a b => f a = Some b) l bs.
Proof.
  revert bs; induction l as [|a l IH]; simpl; intros bs H.
  - injection H as <-. constructor.
  - destruct (f a) as [b|] eqn:Ha; [|discriminate].
    destruct (traverse f l) as [bs'|]; [|discriminate].
    injection H as <-. constructor; auto.
Qed.

(** What the dashboard query returned, when it returned. *)
Lemma fetchUser_json (cat : Catalog) (db : Db) (u : string)
      (uwc : Dashboard.UserWithCourses) :
  fetchUser cat db u = Json uwc ->
  In u (users db)
  /\ Dashboard.progress uwc
     = filter (fun p => userId p =? u) (userVideoProgress db)
  /\ Forall (fun uc => exists c,
                 In c (courses cat)
                 /\ Dashboard.course uc = dashboard_course cat c)
            (Dashboard.courses uwc)
  /\ forall db2,
       users db2 = users db ->
       fetchUser cat db2 u
       = Json {| Dashboard.courses := Dashboard.courses uwc;
                 Dashboard.progress :=
                   filter (fun p => userId p =? u) (userVideoProgress db2) |}.
Proof.
  unfold fetchUser.
  destruct (existsb (String.eqb u) (users db)) eqn:Hu; [|discriminate].
  destruct (traverse _ _) as [enrolled|] eqn:Ht; [|discriminate].
  intros [= <-]. simpl. split_ands.
  - now apply existsb_eqb_In.
  - reflexivity.
  - apply traverse_inv in Ht.
    induction Ht as [|e uc es ucs He _ IH]; constructor; [|exact IH].
    destruct (find _ (courses cat)) as [c|] eqn:Hc; [|discriminate].
    injection He as <-. exists c; split; [|reflexivity].
    now apply find_some in Hc.
  - intros db2 ->. now rewrite Hu.
Qed.

Lemma NoDup_videoId_of_user (u : string) (rows : list UserVideoProgress) :
  NoDup (map (fun r => (userId r, videoId r)) rows) ->
  NoDup (map videoId (filter (fun p => userId p =? u) rows)).
Proof.
  induction rows as [|r rows IH]; simpl; intros H; [constructor|].
  inversion H as [|? ? Hr Hrows]; subst.
  destruct (String.eqb_spec (userId r) u) as [Hu|Hu]; simpl; [|auto].
  constructor; [|auto].
  intros Hin. apply in_map_iff in Hin as (r' & Hv & Hin').
  apply filter_In in Hin' as [Hin' Hu'].
  apply String.eqb_eq in Hu'. apply Hr.
  apply in_map_iff. exists r'; split; [|assumption]. congruence.
Qed.

(** X16.  In a database that satisfies the constraints, what the dashboard
    query returns holds the records of the signed-in user only, at most one
    per video: the loader then reports for every enrolled course the
    specified completed / total * 100 (0 without videos), and overall the
    same over the sums. *)
Theorem dashboard_query_is_unique_per_video
        (cat : Catalog) (db : Db) (u : string) (uwc : Dashboard.UserWithCourses) :
  consistent db ->
  fetchUser cat db u = Json uwc ->
  Forall (fun p => userId p = u) (Dashboard.progress uwc)
  /\ Dashboard.one_record_per_video uwc
  /\ dashboardLoader cat db u
     = Json {| Dashboard.overallProgress :=
                 Dashboard.percentage
                   (Dashboard.sum_completed (Dashboard.progress uwc)
                                            (Dashboard.courses uwc))
                   (Dashboard.sum_total (Dashboard.courses uwc));
               Dashboard.coursesWithProgress :=
                 map (fun uc =>
                        {| Dashboard.spread := Dashboard.course uc;
                           Dashboard.courseProgress :=
                             Dashboard.percentage
                               (Dashboard.completed_of (Dashboard.progress uwc)
                                                       (Dashboard.course uc))
                               (Dashboard.total_of (Dashboard.course uc)) |})
                     (Dashboard.courses uwc) |}.
Proof.
  intros Hc Hfetch.
  destruct (fetchUser_json cat db u uwc Hfetch) as (_ & Hprog & _ & _).
  assert (Hone : Dashboard.one_record_per_video uwc).
  { unfold Dashboard.one_record_per_video. rewrite Hprog.
    apply NoDup_videoId_of_user, (unique_pair db Hc). }
  split_ands.
  - rewrite Hprog. apply Forall_forall. intros p Hp.
    apply filter_In in Hp as [_ Hp]. now apply String.eqb_eq.
  - exact Hone.
  - unfold dashboardLoader. rewrite Hfetch.
    destruct (computeProgress_spec uwc Hone) as [Hover Hper].
    destruct (Dashboard.computeProgress uwc) as [over per]; simpl in *.
    now rewrite Hover, Hper.
Qed.

Lemma dashboard_query_is_unique_per_video_witness :
  exists uwc,
    fetchUser sample_catalog sample_db "u1" = Json uwc
    /\ Dashboard.one_record_per_video uwc.
Proof.
  eexists; split; [reflexivity|].
  exact (proj1 (proj2 (dashboard_query_is_unique_per_video
                         sample_catalog sample_db "u1" _
                         sample_consistent eq_refl))).
Defined.

Lemma map_flat_map {A B C : Type} (f : B -> C) (g : A -> list B) (l : list A) :
  map f (flat_map g l) = flat_map (fun x => map f (g x)) l.
Proof.
  induction l as [|a l IH]; simpl; [reflexivity|].
  now rewrite map_app, IH.
Qed.

Lemma flat_map_of_map {A B C : Type} (f : B -> list C) (g : A -> B) (l : list A) :
  flat_map f (map g l) = flat_map (fun x => f (g x)) l.
Proof.
  induction l as [|a l IH]; simpl; [reflexivity | now rewrite IH].
Qed.

Lemma filter_of_map {A B : Type} (f : B -> bool) (g : A -> B) (l : list A) :
  filter f (map g l) = map g (filter (fun x => f (g x)) l).
Proof.
  induction l as [|a l IH]; simpl; [reflexivity|].
  destruct (f (g a)); simpl; now rewrite IH.
Qed.

Lemma Permutation_filter_length {A : Type} (f : A -> bool) (l l' : list A) :
  Permutation l l' -> List.length (filter f l) = List.length (filter f l').
Proof.
  induction 1 as [|x l l' _ IH|x y l|l l' l'' _ IH1 _ IH2]; simpl.
  - reflexivity.
  - destruct (f x); simpl; now rewrite IH.
  - destruct (f x), (f y); reflexivity.
  - now rewrite IH1.
Qed.

Lemma Permutation_flat_map_both {A B : Type} (f g : A -> list B) (l l' : list A) :
  (forall x, Permutation (f x) (g x)) ->
  Permutation l l' -> Permutation (flat_map f l) (flat_map g l').
Proof.
  intros Hfg. induction 1 as [|x l l' _ IH|x y l|l l' l'' _ IH1 H2 IH2]; simpl.
  - constructor.
  - apply Permutation_app; auto.
  - rewrite !app_assoc. apply Permutation_app.
    + rewrite (Hfg x), (Hfg y). apply Permutation_app_comm.
    + induction l as [|a l IHl]; simpl; [constructor|].
      apply Permutation_app; auto.
  - rewrite IH1. clear IH1 IH2.
    induction H2 as [|x l1 l2 _ IH|x y l1|l1 l2 l3 _ IH1 _ IH2]; simpl.
    + constructor.
    + now apply Permutation_app_head.
    + rewrite !app_assoc. apply Permutation_app_tail, Permutation_app_comm.
    + now rewrite IH1.
Qed.

(** The videos a course page lists are those of the dashboard's course, in
    another order. *)
Lemma page_videos_perm (cat : Catalog) (c : Course.t) :
  Permutation
    (flat_map (fun ch => sort_by (fun a b => (Video.order a <=? Video.order b)%Z)
                                 (chapter_videos cat ch))
              (sort_by (fun a b => String.leb (Chapter.id a) (Chapter.id b))
                       (course_chapters cat c)))
    (flat_map (chapter_videos cat) (course_chapters cat c)).
Proof.
  apply Permutation_flat_map_both; [intros; apply sort_by_perm | apply sort_by_perm].
Qed.

Lemma listed_as_map (cat : Catalog) (db : Db) (u : string) (c : Course.t) :
  listed (include_chapters cat db u c)
  = map (with_userProgress db u)
        (flat_map (fun ch => sort_by (fun a b => (Video.order a <=? Video.order b)%Z)
                                     (chapter_videos cat ch))
                  (sort_by (fun a b => String.leb (Chapter.id a) (Chapter.id b))
                           (course_chapters cat c))).
Proof.
  unfold listed, include_chapters; simpl.
  now rewrite flat_map_of_map, map_flat_map.
Qed.

Lemma dashboard_videos_as_map (cat : Catalog) (c : Course.t) :
  Dashboard.course_videos (dashboard_course cat c)
  = map dashboard_video (flat_map (chapter_videos cat) (course_chapters cat c)).
Proof.
  unfold Dashboard.course_videos, dashboard_course; simpl.
  now rewrite flat_map_of_map, map_flat_map.
Qed.

(** With the unique constraint, the dashboard's test of a video (the first
    record with its id is completed) is the pages' test (some record of the
    user for it is completed). *)
Lemma counted_is_some_completed (db : Db) (u : string) (dv : Dashboard.Video) :
  consistent db ->
  Dashboard.counted (filter (fun p => userId p =? u) (userVideoProgress db)) dv
  = some_completed (records_of u (Dashboard.id dv) db).
Proof.
  intros Hc. unfold Dashboard.counted. rewrite find_filter.
  change (fun x => (userId x =? u) && (videoId x =? Dashboard.id dv))
    with (same_key u (Dashboard.id dv)).
  destruct (find (same_key u (Dashboard.id dv)) (userVideoProgress db)) as [p|] eqn:Hf.
  - rewrite (find_some_records _ _ _ _ Hc Hf). simpl. now rewrite orb_false_r.
  - now rewrite (find_none_records _ _ _ Hf).
Qed.

Lemma dashboard_counts_as_page (cat : Catalog) (db : Db) (u : string) (c : Course.t) :
  consistent db ->
  Dashboard.counted_of (filter (fun p => userId p =? u) (userVideoProgress db))
                       (dashboard_course cat c)
  = check_marks (include_chapters cat db u c)
  /\ Dashboard.total_of (dashboard_course cat c)
     = List.length (listed (include_chapters cat db u c)).
Proof.
  intros Hc. unfold Dashboard.counted_of, Dashboard.total_of, check_marks.
  rewrite dashboard_videos_as_map, listed_as_map, !filter_of_map, !length_map.
  split.
  - rewrite (Permutation_filter_length _ _ _ (page_videos_perm cat c)).
    f_equal. apply filter_ext; intros row.
    now rewrite counted_is_some_completed.
  - symmetry. apply Permutation_length, page_videos_perm.
Qed.

(** X15.  The dashboard agrees with the course page.  In a database that
    satisfies the constraints, the percentage the dashboard shows for an
    enrolled course is computed from exactly what the course page of that
    course shows to the same user: the number of videos with a check mark
    over the number of videos listed. *)
Theorem dashboard_agrees_with_course_page
        (cat : Catalog) (db : Db) (u : string) (d : Dashboard.LoaderData) :
  consistent db ->
  dashboardLoader cat db u = Json d ->
  Forall
    (fun cwp =>
       exists c,
         In c (courses cat)
         /\ Dashboard.spread cwp = dashboard_course cat c
         /\ Dashboard.courseProgress cwp
            = Dashboard.percentage
                (check_marks (include_chapters cat db u c))
                (List.length (listed (include_chapters cat db u c))))
    (Dashboard.coursesWithProgress d).
Proof.
  intros Hc Hload. unfold dashboardLoader in Hload.
  destruct (fetchUser cat db u) as [uwc| |] eqn:Hfetch; try discriminate.
  injection Hload as <-.
  destruct (fetchUser_json cat db u uwc Hfetch) as (_ & Hprog & Hcourses & _).
  rewrite computeProgress_counts; simpl.
  rewrite Forall_forall in *. intros cwp Hin.
  apply in_map_iff in Hin as (uc & <- & Huc).
  destruct (Hcourses uc Huc) as (c & Hcin & Hcourse).
  exists c. unfold Dashboard.with_progress; simpl. rewrite Hcourse, Hprog.
  destruct (dashboard_counts_as_page cat db u c Hc) as [-> ->].
  split_ands; auto.
Qed.

Lemma dashboard_agrees_with_course_page_witness :
  exists d,
    dashboardLoader sample_catalog sample_db "u1" = Json d
    /\ Forall
         (fun cwp =>
            exists c,
              In c (courses sample_catalog)
              /\ Dashboard.spread cwp = dashboard_course sample_catalog c
              /\ Dashboard.courseProgress cwp
                 = Dashboard.percentage
                     (check_marks (include_chapters sample_catalog sample_db "u1" c))
                     (List.length
                        (listed (include_chapters sample_catalog sample_db "u1" c))))
         (Dashboard.coursesWithProgress d).
Proof.
  eexists; split; [reflexivity|].
  exact (dashboard_agrees_with_course_page
           sample_catalog sample_db "u1" _ sample_consistent eq_refl).
Defined.

Lemma filter_length_mono {A : Type} (f g : A -> bool) (l : list A) :
  (forall x, f x = true -> g x = true) ->
  List.length (filter f l) <= List.length (filter g l).
Proof.
  intros H. induction l as [|a l IH]; simpl; [lia|].
  destruct (f a) eqn:Hf.
  - rewrite (H a Hf). simpl; lia.
  - destruct (g a); simpl; lia.
Qed.

Lemma percentage_mono (c c' t : nat) :
  c <= c' -> num_le (Dashboard.percentage c t) (Dashboard.percentage c' t).
Proof.
  intros Hle. destruct t as [|t].
  - rewrite !percentage_zero. apply Qle_refl.
  - rewrite !percentage_positive by lia. unfold num_le.
    apply ratio100_binary64_mono; nia.
Qed.

(** If every video counted with the records [p1] is counted with [p2], no
    percentage is lower with [p2]. *)
Lemma computeProgress_mono (cs : list Dashboard.UserCourse)
      (p1 p2 : list UserVideoProgress) :
  (forall dv, Dashboard.counted p1 dv = true -> Dashboard.counted p2 dv = true) ->
  num_le
    (Dashboard.overallProgress
       (Dashboard.computeProgress {| Dashboard.courses := cs; Dashboard.progress := p1 |}))
    (Dashboard.overallProgress
       (Dashboard.computeProgress {| Dashboard.courses := cs; Dashboard.progress := p2 |}))
  /\ Forall2 (fun a b => Dashboard.spread a = Dashboard.spread b
                         /\ num_le (Dashboard.courseProgress a)
                                   (Dashboard.courseProgress b))
       (Dashboard.coursesWithProgress
          (Dashboard.computeProgress {| Dashboard.courses := cs; Dashboard.progress := p1 |}))
       (Dashboard.coursesWithProgress
          (Dashboard.computeProgress {| Dashboard.courses := cs; Dashboard.progress := p2 |})).
Proof.
  intros H. rewrite !computeProgress_counts; simpl.
  assert (Hc : forall c, Dashboard.counted_of p1 c <= Dashboard.counted_of p2 c).
  { intros c. now apply filter_length_mono. }
  split.
  - apply percentage_mono.
    induction cs as [|uc cs IH]; simpl; [lia|].
    specialize (Hc (Dashboard.course uc)). lia.
  - induction cs as [|uc cs IH]; simpl; constructor; [|exact IH].
    split; [reflexivity|]. apply percentage_mono, Hc.
Qed.

(** X17.  Marking moves the dashboard one way.  After a successful call that
    marks a video as watched, no percentage on the caller's dashboard (any
    course, overall) is lower than before; after one that marks it as
    unwatched, none is higher.  The courses listed stay the same. *)
Theorem marking_moves_percentages_one_way
        (cat : Catalog) (db db' : Db) (env : Env) (u v : string) (c : bool)
        (d : Dashboard.LoaderData) :
  consistent db ->
  setCompletion env u v c db = (Ok tt, db') ->
  dashboardLoader cat db u = Json d ->
  exists d',
    dashboardLoader cat db' u = Json d'
    /\ if c then
         num_le (Dashboard.overallProgress d) (Dashboard.overallProgress d')
         /\ Forall2 (fun a b => Dashboard.spread a = Dashboard.spread b
                                /\ num_le (Dashboard.courseProgress a)
                                          (Dashboard.courseProgress b))
                    (Dashboard.coursesWithProgress d)
                    (Dashboard.coursesWithProgress d')
       else
         num_le (Dashboard.overallProgress d') (Dashboard.overallProgress d)
         /\ Forall2 (fun a b => Dashboard.spread a = Dashboard.spread b
                                /\ num_le (Dashboard.courseProgress a)
                                          (Dashboard.courseProgress b))
                    (Dashboard.coursesWithProgress d')
                    (Dashboard.coursesWithProgress d).
Proof.
  intros Hc Hrun Hload. unfold dashboardLoader in *.
  destruct (fetchUser cat db u) as [uwc| |] eqn:Hfetch; try discriminate.
  injection Hload as <-.
  destruct (fetchUser_json cat db u uwc Hfetch) as (_ & Hprog & _ & Hother).
  pose proof (setCompletion_consistent env u v c db Hc) as (Hc' & Hu' & _).
  pose proof (setCompletion_other_records env u v) as Hframe.
  rewrite Hrun in Hc', Hu'. simpl in Hc', Hu'.
  rewrite (Hother db' Hu').
  destruct (setCompletion_result env u v c db db' Hc Hrun) as (r & Hrec & Hr & _).
  eexists; split; [reflexivity|].
  destruct uwc as [cs p]; cbn [Dashboard.progress Dashboard.courses] in *. subst p.
  assert (Hpoint : forall dv,
             Dashboard.id dv <> v ->
             Dashboard.counted (filter (fun p => userId p =? u) (userVideoProgress db')) dv
             = Dashboard.counted (filter (fun p => userId p =? u) (userVideoProgress db)) dv).
  { intros dv Hne. rewrite !counted_is_some_completed by assumption.
    specialize (Hframe u (Dashboard.id dv) c db Hc).
    rewrite Hrun in Hframe; simpl in Hframe. rewrite Hframe; [reflexivity|].
    congruence. }
  assert (Hat : forall dv,
             Dashboard.id dv = v ->
             Dashboard.counted (filter (fun p => userId p =? u) (userVideoProgress db')) dv
             = c).
  { intros dv <-. rewrite counted_is_some_completed by assumption.
    rewrite Hrec; simpl. now rewrite Hr, orb_false_r. }
  destruct c; apply computeProgress_mono; intros dv Hdv;
    destruct (string_dec (Dashboard.id dv) v) as [Heq|Hne].
  - now apply Hat.
  - now rewrite Hpoint.
  - rewrite (Hat dv Heq) in Hdv. discriminate.
  - now rewrite <- Hpoint.
Qed.

Lemma marking_moves_percentages_one_way_witness :
  exists d d',
    dashboardLoader sample_catalog sample_db "u1" = Json d
    /\ dashboardLoader sample_catalog
                       (snd (setCompletion sample_env "u1" "v2" true sample_db)) "u1"
       = Json d'
    /\ num_le (Dashboard.overallProgress d) (Dashboard.overallProgress d').
Proof.
  destruct (marking_moves_percentages_one_way
              sample_catalog sample_db
              (snd (setCompletion sample_env "u1" "v2" true sample_db))
              sample_env "u1" "v2" true _
              sample_consistent eq_refl eq_refl)
    as (d' & Hload & Hle & _).
  eexists; exists d'. split; [reflexivity | split; assumption].
Defined.

(** X18.  What the course page lists.  The course route answers 404 exactly
    when no course has the id.  When a course has it, the route answers with
    a page: the page holds a course of the catalogue with that id, and the
    videos listed are exactly the videos of the catalogue whose chapter is a
    chapter of the course, each under its chapter and each with progress
    records of the signed-in user for that video only. *)
Theorem courseLoader_lists_the_course
        (cat : Catalog) (db : Db) (u c : string) :
  c <> "" ->
  (courseLoader cat db u (Some c) = Thrown 404 "Course not found"
   <-> ~ In c (map Course.id (courses cat)))
  /\ (In c (map Course.id (courses cat)) ->
      exists page,
        courseLoader cat db u (Some c) = Json page
        /\ In (course_row (page_course page)) (courses cat)
        /\ Course.id (course_row (page_course page)) = c
        /\ page_user page = u
        /\ (forall ch vw,
               In ch (chapters_of (page_course page)) -> In vw (videos_of ch) ->
               In (chapter_row ch) (chapters cat)
               /\ Chapter.courseId (chapter_row ch) = c
               /\ In (video_row vw) (videos cat)
               /\ Video.chapterId (video_row vw) = Chapter.id (chapter_row ch)
               /\ Forall (fun p => userId p = u
                                   /\ videoId p = Video.id (video_row vw))
                         (userProgress vw))
        /\ (forall chapter row,
               In chapter (chapters cat) -> Chapter.courseId chapter = c ->
               In row (videos cat) -> Video.chapterId row = Chapter.id chapter ->
               exists vw,
                 In vw (listed (page_course page)) /\ video_row vw = row)).
Proof.
  intros Hc.
  assert (Hpc : param (Some c) = Some c) by (apply param_some; auto).
  unfold courseLoader. rewrite Hpc.
  destruct (find (fun x => Course.id x =? c) (courses cat)) as [course|] eqn:Hco.
  - pose proof (find_by_key_some Course.id c _ course Hco) as [Hin Hid].
    split.
    + split; [discriminate|]. intros Hno. exfalso; apply Hno.
      rewrite <- Hid. now apply in_map.
    + intros _. eexists. split; [reflexivity|]. simpl. split_ands; auto.
      * intros ch vw Hch Hvw.
        apply in_map_iff in Hch as (chapter & <- & Hchapter). simpl in *.
        apply in_map_iff in Hvw as (row & <- & Hrow).
        apply sort_by_in, filter_In in Hchapter as [Hchin Hchc].
        apply sort_by_in, filter_In in Hrow as [Hrin Hrc].
        apply String.eqb_eq in Hchc, Hrc. simpl. split_ands; auto; [congruence|].
        apply Forall_forall. intros p Hp.
        apply filter_In in Hp as [_ Hp]. now apply same_key_true in Hp.
      * intros chapter row Hchin Hchc Hrin Hrc.
        exists (with_userProgress db u row). split; [|reflexivity].
        rewrite listed_as_map. apply in_map.
        apply in_flat_map. exists chapter. split.
        -- apply sort_by_in, filter_In. split; [assumption|].
           rewrite Hchc, Hid. apply String.eqb_refl.
        -- apply sort_by_in, filter_In. split; [assumption|].
           rewrite Hrc. apply String.eqb_refl.
  - split.
    + split; [intros _; now apply find_by_key_none | reflexivity].
    + intros Hin. exfalso. exact (find_by_key_none Course.id c _ Hco Hin).
Qed.

Lemma courseLoader_lists_the_course_witness :
  exists page,
    courseLoader sample_catalog sample_db "u1" (Some "co1") = Json page
    /\ Course.id (course_row (page_course page)) = "co1"
    /\ page_user page = "u1"
    /\ List.length (listed (page_course page)) = 3.
Proof.
  destruct (proj2 (courseLoader_lists_the_course
                     sample_catalog sample_db "u1" "co1" ltac:(discriminate)))
    as (page & Hload & _ & Hid & Huser & _).
  - simpl; auto.
  - exists page. split; [exact Hload|]. split; [exact Hid|]. split; [exact Huser|].
    assert (E : Json page
                = courseLoader sample_catalog sample_db "u1" (Some "co1"))
      by (symmetry; exact Hload).
    vm_compute in E. injection E as ->. reflexivity.
Defined.

End PagesFacts.

(* ================================================================== *)
(** ** Properties of sign-in *)
(* ================================================================== *)

Section AuthFacts.

Import Auth.

Local Open Scope string_scope.
Local Open Scope list_scope.

(** *** The two queries *)

Lemma write_inv (d : UserData) (row row' : User) :
  write d row = Some row' ->
  id row' = id row /\ email row' = email row
  /\ optional_text (data_name d) (name row) = Some (name row')
  /\ optional_text (data_image d) (image row) = Some (image row')
  /\ optional_date (data_emailVerified d) = Some (emailVerified row')
  /\ required_text (data_role d) (role row) = Some (role row').
Proof.
  unfold write.
  destruct (optional_text (data_name d) (name row)) as [n|]; [|discriminate].
  destruct (optional_text (data_image d) (image row)) as [i|]; [|discriminate].
  destruct (optional_date (data_emailVerified d)) as [v|]; [|discriminate].
  destruct (required_text (data_role d) (role row)) as [r|]; [|discriminate].
  intros [= <-]. simpl. auto 10.
Qed.

Lemma optional_text_refuses (v : JsValue) (stored : option string) :
  optional_text v stored = None <-> exists b, v = Other b.
Proof.
  destruct v; simpl; split; try discriminate; eauto;
    intros [b H]; discriminate H.
Qed.

Lemma role_refuses (m : JsValue) (fallback stored : string) :
  required_text (or_value m (Text fallback)) stored = None <-> m = Other true.
Proof.
  unfold or_value.
  destruct m as [| |[|c r]|[|]]; simpl; split; try discriminate; auto.
Qed.

Lemma date_refuses (newDate : string -> JsDate) (sb : SupabaseUser) :
  optional_date (confirmed newDate sb) = None
  <-> exists text, truthy (email_confirmed_at sb) = Some text
                   /\ newDate text = InvalidDate.
Proof.
  unfold confirmed.
  destruct (truthy (email_confirmed_at sb)) as [text|]; simpl.
  - destruct (newDate text) eqn:D; simpl; split; try discriminate.
    + intros (t & [= <-] & H). congruence.
    + eauto.
    + reflexivity.
  - split; [discriminate | intros (t & H & _); discriminate H].
Qed.

(** The client refuses the data of an answer whatever the row. *)
Lemma write_refuses (newDate : string -> JsDate) (sb : SupabaseUser)
      (fallback : string) (row : User) :
  write (data_of newDate sb fallback) row = None <-> refused newDate sb.
Proof.
  unfold refused.
  rewrite <- (optional_text_refuses (metadata sb meta_name) (name row)).
  rewrite <- (optional_text_refuses (metadata sb avatar_url) (image row)).
  rewrite <- (role_refuses (metadata sb meta_role) fallback (role row)).
  rewrite <- date_refuses.
  unfold write, data_of; simpl.
  destruct (optional_text (metadata sb meta_name) (name row));
    destruct (optional_text (metadata sb avatar_url) (image row));
    destruct (optional_date (confirmed newDate sb));
    destruct (required_text (or_value (metadata sb meta_role) (Text fallback))
                            (role row));
    split; try discriminate; auto; intuition discriminate.
Qed.

Lemma role_written (m : JsValue) (fallback stored r : string) :
  required_text (or_value m (Text fallback)) stored = Some r ->
  r = match m with Text "" => fallback | Text x => x | _ => fallback end.
Proof.
  unfold or_value.
  destruct m as [| |[|c x]|[|]]; simpl; intros [= <-]; reflexivity.
Qed.

Lemma created_inv (newDate : string -> JsDate) (sb : SupabaseUser) (row : User) :
  created newDate sb = Some row ->
  id row = sb_id sb /\ email row = sb_email sb
  /\ role row = role_or sb "user".
Proof.
  unfold created. intros H.
  apply write_inv in H as (Hid & Hem & _ & _ & _ & Hrole).
  split_ands; auto. exact (role_written _ _ _ _ Hrole).
Qed.

Lemma updated_inv (newDate : string -> JsDate) (sb : SupabaseUser)
      (user row : User) :
  updated newDate sb user = Some row ->
  id row = id user /\ email row = email user
  /\ role row = role_or sb (role user).
Proof.
  unfold updated. intros H.
  apply write_inv in H as (Hid & Hem & _ & _ & _ & Hrole).
  split_ands; auto. exact (role_written _ _ _ _ Hrole).
Qed.

(** Writing the data of the same answer a second time changes nothing. *)
Lemma updated_idem (newDate : string -> JsDate) (sb : SupabaseUser)
      (user row : User) :
  updated newDate sb user = Some row -> updated newDate sb row = Some row.
Proof.
  unfold updated, write, data_of, or_value; simpl.
  destruct (metadata sb meta_name), (metadata sb avatar_url),
    (optional_date (confirmed newDate sb)),
    (metadata sb meta_role) as [| |[|c x]|[|]];
    simpl; try discriminate; intros [= <-]; reflexivity.
Qed.

Lemma updated_created (newDate : string -> JsDate) (sb : SupabaseUser)
      (row : User) :
  created newDate sb = Some row -> updated newDate sb row = Some row.
Proof.
  unfold created, updated, write, data_of, or_value, blank; simpl.
  destruct (metadata sb meta_name), (metadata sb avatar_url),
    (optional_date (confirmed newDate sb)),
    (metadata sb meta_role) as [| |[|c x]|[|]];
    simpl; try discriminate; intros [= <-]; reflexivity.
Qed.

(** *** The callback *)

(** What the callback can do, whatever the form, the answer of Supabase and
    the table. *)
Lemma verify_cases (newDate : string -> JsDate)
      (signIn : string -> string -> SignIn)
      (form : ProgressStore.FormData) (table : list User) :
  (exists f, verify newDate signIn form table = (inr f, table))
  \/ (exists e p sb row,
        text_field form "email" = Some e /\ text_field form "password" = Some p
        /\ signIn e p = {| data_user := Some sb; error := None |}
        /\ find (fun r => id r =? sb_id sb) table = None
        /\ created newDate sb = Some row
        /\ existsb (fun r => (id r =? sb_id sb) || same_email (sb_email sb) r) table
           = false
        /\ verify newDate signIn form table = (inl row, table ++ [row]))
  \/ (exists e p sb user row,
        text_field form "email" = Some e /\ text_field form "password" = Some p
        /\ signIn e p = {| data_user := Some sb; error := None |}
        /\ find (fun r => id r =? sb_id sb) table = Some user
        /\ updated newDate sb user = Some row
        /\ verify newDate signIn form table
           = (inl user,
              map (fun r => if id r =? id user then row else r) table)).
Proof.
  unfold verify.
  destruct (text_field form "email") as [e|]; [|left; eauto].
  destruct (text_field form "password") as [p|]; [|left; eauto].
  destruct (signIn e p) as [[sb|] [m|]] eqn:Hs; simpl; try (left; eauto; fail).
  destruct (find (fun r => id r =? sb_id sb) table) as [user|] eqn:Hf.
  - destruct (updated newDate sb user) as [row|] eqn:Hup; [|left; eauto].
    right; right. exists e, p, sb, user, row. split_ands; auto.
  - destruct (created newDate sb) as [row|] eqn:Hcr; [|left; eauto].
    destruct (existsb _ table) eqn:Hex; [left; eauto|].
    right; left. exists e, p, sb, row. split_ands; auto.
Qed.

Lemma emails_app (t1 t2 : list User) : emails (t1 ++ t2) = emails t1 ++ emails t2.
Proof. unfold emails. apply flat_map_app. Qed.

Lemma find_id_absent (k : string) (table : list User) :
  find (fun r => id r =? k) table = None <-> ~ In k (map id table).
Proof.
  split.
  - intros H Hin. apply in_map_iff in Hin as (r & Hr & Hin).
    pose proof (find_none _ _ H r Hin) as Hno. simpl in Hno.
    rewrite Hr, String.eqb_refl in Hno. discriminate.
  - intros H. destruct (find _ table) as [r|] eqn:Hf; [exfalso|reflexivity].
    apply find_some in Hf as [Hin Hk]. apply String.eqb_eq in Hk.
    apply H. rewrite <- Hk. now apply in_map.
Qed.

Lemma find_id_present (table : list User) (user : User) :
  NoDup (map id table) -> In user table ->
  find (fun r => id r =? id user) table = Some user.
Proof.
  intros Hnd Hin.
  destruct (find (fun r => id r =? id user) table) as [r|] eqn:Hf.
  - apply find_some in Hf as [Hr Hk]. apply String.eqb_eq in Hk.
    f_equal. eapply NoDup_map_inj; eauto.
  - apply find_id_absent in Hf. exfalso; apply Hf. now apply in_map.
Qed.

(** The update changes neither the key nor the email of a row. *)
Lemma keys_updated (table : list User) (user row : User) :
  NoDup (map id table) -> In user table ->
  id row = id user -> email row = email user ->
  map (fun r => (id r, email r))
      (map (fun r => if id r =? id user then row else r) table)
  = map (fun r => (id r, email r)) table.
Proof.
  intros Hnd Hin Hid Hem. rewrite map_map. apply map_ext_in. intros r Hr.
  destruct (String.eqb_spec (id r) (id user)) as [E|E]; [|reflexivity].
  assert (r = user) by (eapply NoDup_map_inj; eauto). subst r.
  now rewrite Hid, Hem.
Qed.

Lemma ids_of_keys (table : list User) :
  map id table = map fst (map (fun r => (id r, email r)) table).
Proof. rewrite map_map. reflexivity. Qed.

Lemma emails_of_keys (table : list User) :
  emails table
  = flat_map (fun k => match snd k with Some e => [e] | None => [] end)
             (map (fun r => (id r, email r)) table).
Proof.
  unfold emails. induction table as [|r t IH]; simpl; [reflexivity|].
  now rewrite IH.
Qed.

Lemma email_not_taken (e : string) (sb_e : option string) (table : list User) :
  existsb (fun r => same_email sb_e r) table = false ->
  sb_e = Some e -> ~ In e (emails table).
Proof.
  intros Hex -> Hin. unfold emails in Hin.
  apply in_flat_map in Hin as (r & Hr & He).
  assert (Hsome : existsb (fun r => same_email (Some e) r) table = true).
  { apply existsb_exists; exists r; split; [assumption|].
    unfold same_email. destruct (email r) as [b|]; [|contradiction].
    destruct He as [->|[]]. apply String.eqb_refl. }
  congruence.
Qed.

Lemma existsb_or_false {A : Type} (f g : A -> bool) (l : list A) :
  existsb (fun x => f x || g x) l = false ->
  existsb f l = false /\ existsb g l = false.
Proof.
  induction l as [|a l IH]; simpl; [auto|].
  intros H. apply orb_false_iff in H as [Ha Hl].
  apply orb_false_iff in Ha as [-> ->]. simpl. now apply IH.
Qed.

(** X19.  Sign-in and the user table.  Whatever the form, whatever Supabase
    answers and whatever the date parser makes of the confirmation time, the
    callback takes a table that satisfies the constraints of model [User]
    (primary key, unique email) to one that satisfies them; it never deletes
    a row, re-keys one or changes an email; and when it fails (missing
    field, rejected credentials, refused data, email taken) it has written
    nothing. *)
Theorem verify_keeps_user_table
        (newDate : string -> JsDate)
        (signIn : string -> string -> SignIn)
        (form : ProgressStore.FormData) (table : list User) :
  valid table ->
  valid (snd (verify newDate signIn form table))
  /\ (exists added,
         map (fun r => (id r, email r)) (snd (verify newDate signIn form table))
         = map (fun r => (id r, email r)) table ++ added
         /\ List.length added <= 1)
  /\ (forall f, fst (verify newDate signIn form table) = inr f ->
                snd (verify newDate signIn form table) = table).
Proof.
  intros [Hid Hem].
  destruct (verify_cases newDate signIn form table)
    as [(f & ->) | [(e & p & sb & row & _ & _ & _ & Hfind & Hcr & Hex & ->)
                   | (e & p & sb & user & row & _ & _ & _ & Hfind & Hup & ->)]];
    simpl.
  - split_ands; [split; assumption | exists []; rewrite app_nil_r; auto | reflexivity].
  - apply existsb_or_false in Hex as [Hexid Hexem].
    apply created_inv in Hcr as (Hrid & Hrem & _).
    split_ands.
    + split.
      * rewrite map_app; simpl. apply NoDup_snoc; [assumption|].
        rewrite Hrid. now apply find_id_absent.
      * rewrite emails_app. unfold emails at 2; simpl. rewrite Hrem.
        destruct (sb_email sb) as [em|] eqn:Hsb; simpl.
        -- apply NoDup_snoc; [assumption|]. eapply email_not_taken; eauto.
        -- now rewrite app_nil_r.
    + exists [(id row, email row)]. rewrite map_app. simpl; auto.
    + discriminate.
  - apply updated_inv in Hup as (Hrid & Hrem & _).
    pose proof (find_some _ _ Hfind) as [Hin _].
    pose proof (keys_updated table user row Hid Hin Hrid Hrem) as Hkeys.
    split_ands.
    + split.
      * now rewrite ids_of_keys, Hkeys, <- ids_of_keys.
      * now rewrite emails_of_keys, Hkeys, <- emails_of_keys.
    + exists []. rewrite app_nil_r. split; [exact Hkeys | simpl; lia].
    + discriminate.
Qed.

Lemma verify_keeps_user_table_witness :
  valid (snd (verify sample_newDate (accepts (ada (Text "Ada") Undefined))
                     ada_form [])).
Proof.
  refine (proj1 (verify_keeps_user_table
                   sample_newDate (accepts (ada (Text "Ada") Undefined))
                   ada_form [] _)).
  split; constructor.
Defined.

Lemma requireAdmin_accepts (user : User) :
  requireAdmin (Some user) = inl user <-> role user = "admin".
Proof.
  unfold requireAdmin; simpl.
  destruct (String.eqb_spec (role user) "admin") as [H|H]; simpl; split;
    auto; try discriminate; congruence.
Qed.

Lemma requireAdmin_refuses (user : User) :
  role user <> "admin" -> requireAdmin (Some user) = inr (Status 401 "Unauthorized").
Proof.
  intros H. unfold requireAdmin; simpl.
  apply String.eqb_neq in H. now rewrite H.
Qed.

Lemma role_or_admin (sb : SupabaseUser) (fallback : string) :
  fallback <> "admin" ->
  (role_or sb fallback = "admin" <-> metadata sb meta_role = Text "admin").
Proof.
  intros Hf. unfold role_or.
  destruct (metadata sb meta_role) as [| |[|c x]|b]; split;
    try congruence; try discriminate;
    try (intros H; rewrite H; reflexivity);
    intros [= H1 H2]; now subst.
Qed.

(** X20.  First sign-in.  Supabase accepts the credentials of an account
    that has no row yet and whose email no row holds.  When the client
    refuses the data of the answer (a name or an image that is not a string,
    a truthy role that is not a string, a confirmation time that is not a
    date), the callback fails and the table is as before.  Otherwise it adds
    one row at the end of the table and returns that row; the row has the
    key and the email of the answer, and its role is the role of the
    metadata when that is a non-empty string and [user] otherwise, so the
    admin guard lets the returned user through exactly when the metadata
    says [admin]. *)
Theorem first_sign_in_creates_the_row
        (newDate : string -> JsDate)
        (signIn : string -> string -> SignIn) (form : ProgressStore.FormData)
        (table : list User) (e p : string) (sb : SupabaseUser) :
  text_field form "email" = Some e ->
  text_field form "password" = Some p ->
  signIn e p = {| data_user := Some sb; error := None |} ->
  ~ In (sb_id sb) (map id table) ->
  (forall a, sb_email sb = Some a -> ~ In a (emails table)) ->
  (refused newDate sb ->
   verify newDate signIn form table = (inr Invalid, table))
  /\ (~ refused newDate sb ->
      exists row,
        verify newDate signIn form table = (inl row, table ++ [row])
        /\ id row = sb_id sb
        /\ email row = sb_email sb
        /\ role row = role_or sb "user"
        /\ (requireAdmin (Some row) = inl row
            <-> metadata sb meta_role = Text "admin")).
Proof.
  intros He Hp Hs Hnew Hfree.
  unfold verify. rewrite He, Hp, Hs; simpl.
  rewrite (proj2 (find_id_absent (sb_id sb) table) Hnew).
  assert (Hex : existsb (fun r => (id r =? sb_id sb) || same_email (sb_email sb) r)
                        table = false).
  { destruct (existsb _ table) eqn:Hex; [exfalso|reflexivity].
    apply existsb_exists in Hex as (r & Hin & Hr).
    apply orb_true_iff in Hr as [Hr|Hr].
    - apply String.eqb_eq in Hr. apply Hnew. rewrite <- Hr. now apply in_map.
    - unfold same_email in Hr.
      destruct (sb_email sb) as [a|] eqn:Ha; [|discriminate].
      destruct (email r) as [b|] eqn:Hb; [|discriminate].
      apply String.eqb_eq in Hr. subst b.
      apply (Hfree a eq_refl). unfold emails. apply in_flat_map.
      exists r; split; [assumption|]. rewrite Hb. now left. }
  rewrite Hex.
  destruct (created newDate sb) as [row|] eqn:Hcr; split.
  - intros Href. apply (write_refuses newDate sb "user" (blank sb)) in Href.
    unfold created in Hcr. congruence.
  - intros _. exists row. destruct (created_inv _ _ _ Hcr) as (Hid & Hem & Hrole).
    split_ands; auto.
    rewrite requireAdmin_accepts, Hrole. apply role_or_admin. discriminate.
  - reflexivity.
  - intros Hok. exfalso. apply Hok.
    now apply (write_refuses newDate sb "user" (blank sb)).
Qed.

Lemma first_sign_in_creates_the_row_witness :
  (exists row,
     verify sample_newDate (accepts (ada (Text "Ada") Undefined)) ada_form []
     = (inl row, [row])
     /\ row = ada_row)
  /\ verify (fun _ => InvalidDate) (accepts (ada (Text "Ada") Undefined))
            ada_form []
     = (inr Invalid, []).
Proof.
  split.
  - destruct (proj2 (first_sign_in_creates_the_row
                       sample_newDate (accepts (ada (Text "Ada") Undefined))
                       ada_form [] "ada@example.com" "secret"
                       (ada (Text "Ada") Undefined)
                       eq_refl eq_refl eq_refl (fun H => H) (fun _ _ H => H)))
      as (row & Hrun & _).
    + intros [[b H]|[[b H]|[H|(text & Ht & H)]]]; try discriminate.
      injection Ht as <-. discriminate H.
    + exists row. split; [exact Hrun|].
      assert (E : (@inl User Failure row, [row])
                  = verify sample_newDate (accepts (ada (Text "Ada") Undefined))
                           ada_form [])
        by (symmetry; exact Hrun).
      vm_compute in E. now injection E as ->.
  - apply (proj1 (first_sign_in_creates_the_row
                    (fun _ => InvalidDate) (accepts (ada (Text "Ada") Undefined))
                    ada_form [] "ada@example.com" "secret"
                    (ada (Text "Ada") Undefined)
                    eq_refl eq_refl eq_refl (fun H => H) (fun _ _ H => H))).
    right; right; right. exists "2024-01-01T00:00:00Z". split; reflexivity.
Defined.

(** X21.  Sign-in of an account that has a row.  When the client refuses the
    data of the answer the callback fails and the table is as before.
    Otherwise the callback returns the row as it was before this sign-in,
    and the table holds the row with the data written into it, every other
    row being untouched: a name (or image) that is missing in the metadata
    leaves the stored one, [null] erases it, a string replaces it; the role
    is the role of the metadata when that is a non-empty string and the
    stored role otherwise.  So when the metadata now says [admin] and the
    stored role did not, the table holds an admin and the user returned by
    this sign-in is still refused by the admin guard. *)
Theorem returning_sign_in_returns_the_previous_row
        (newDate : string -> JsDate)
        (signIn : string -> string -> SignIn) (form : ProgressStore.FormData)
        (table : list User) (e p : string) (sb : SupabaseUser) (old : User) :
  valid table ->
  text_field form "email" = Some e ->
  text_field form "password" = Some p ->
  signIn e p = {| data_user := Some sb; error := None |} ->
  In old table -> id old = sb_id sb ->
  (refused newDate sb ->
   verify newDate signIn form table = (inr Invalid, table))
  /\ (~ refused newDate sb ->
      exists row,
        fst (verify newDate signIn form table) = inl old
        /\ In row (snd (verify newDate signIn form table))
        /\ (forall r, In r (snd (verify newDate signIn form table)) ->
                      id r = id old -> r = row)
        /\ (forall r, In r table -> id r <> id old ->
                      In r (snd (verify newDate signIn form table)))
        /\ List.length (snd (verify newDate signIn form table))
           = List.length table
        /\ id row = id old /\ email row = email old
        /\ name row = match metadata sb meta_name with
                      | Undefined => name old
                      | Null => None
                      | Text n => Some n
                      | Other _ => name old
                      end
        /\ image row = match metadata sb avatar_url with
                       | Undefined => image old
                       | Null => None
                       | Text i => Some i
                       | Other _ => image old
                       end
        /\ role row = role_or sb (role old)
        /\ (metadata sb meta_role = Text "admin" ->
            role old <> "admin" ->
            requireAdmin (Some row) = inl row
            /\ requireAdmin (Some old) = inr (Status 401 "Unauthorized"))).
Proof.
  intros [Hid _] He Hp Hs Hin Hold.
  unfold verify. rewrite He, Hp, Hs; simpl.
  rewrite <- Hold, (find_id_present table old Hid Hin).
  destruct (updated newDate sb old) as [row|] eqn:Hup; split.
  - intros Href. apply (write_refuses newDate sb (role old) old) in Href.
    unfold updated in Hup. congruence.
  - intros _. exists row. simpl.
    destruct (updated_inv _ _ _ _ Hup) as (Hrid & Hrem & Hrole).
    pose proof Hup as Hw. unfold updated in Hw.
    apply write_inv in Hw as (_ & _ & Hname & Himage & _ & _). simpl in Hname, Himage.
    split_ands; auto.
    + apply in_map_iff. exists old. now rewrite String.eqb_refl.
    + intros r Hr Hsame. apply in_map_iff in Hr as (r0 & <- & Hr0).
      destruct (String.eqb_spec (id r0) (id old)) as [Hk|Hk]; [reflexivity|].
      contradiction.
    + intros r Hr Hne. apply in_map_iff. exists r.
      apply String.eqb_neq in Hne. now rewrite Hne.
    + apply length_map.
    + destruct (metadata sb meta_name); simpl in Hname; congruence.
    + destruct (metadata sb avatar_url); simpl in Himage; congruence.
    + intros Hadmin Hnot. split.
      * apply requireAdmin_accepts. rewrite Hrole. unfold role_or. now rewrite Hadmin.
      * now apply requireAdmin_refuses.
  - reflexivity.
  - intros Hok. exfalso. apply Hok.
    now apply (write_refuses newDate sb (role old) old).
Qed.

Lemma returning_sign_in_returns_the_previous_row_witness :
  exists row,
    fst (verify sample_newDate (accepts (ada Null (Text "admin"))) ada_form [ada_row])
    = inl ada_row
    /\ In row (snd (verify sample_newDate (accepts (ada Null (Text "admin")))
                           ada_form [ada_row]))
    /\ name row = None
    /\ role row = "admin".
Proof.
  destruct (proj2 (returning_sign_in_returns_the_previous_row
                     sample_newDate (accepts (ada Null (Text "admin"))) ada_form
                     [ada_row] "ada@example.com" "secret"
                     (ada Null (Text "admin")) ada_row
                     ltac:(split; simpl; repeat constructor; simpl; tauto)
                     eq_refl eq_refl eq_refl (or_introl eq_refl) eq_refl))
    as (row & Hret & Hin & _ & _ & _ & _ & _ & Hname & _ & Hrole & _).
  - intros [[b H]|[[b H]|[H|(text & Ht & H)]]]; try discriminate.
    injection Ht as <-. discriminate H.
  - exists row. split_ands; assumption.
Defined.

Lemma find_app_none {A : Type} (f : A -> bool) (l1 l2 : list A) :
  find f l1 = None -> find f (l1 ++ l2) = find f l2.
Proof.
  induction l1 as [|a l1 IH]; simpl; [reflexivity|].
  destruct (f a); [discriminate | exact IH].
Qed.

Lemma find_map_same_test {A : Type} (f : A -> bool) (g : A -> A) (l : list A) :
  (forall x, f (g x) = f x) -> find f (map g l) = option_map g (find f l).
Proof.
  intros H. induction l as [|a l IH]; simpl; [reflexivity|].
  rewrite H. destruct (f a); [reflexivity | exact IH].
Qed.

(** X22.  Signing in again settles.  After a sign-in that succeeded, a
    second sign-in with the same form and the same answer of Supabase
    changes nothing in the table, and returns the row the table holds for
    the account (for a returning account: the row the first sign-in wrote,
    not the one it returned). *)
Theorem second_sign_in_is_settled
        (newDate : string -> JsDate)
        (signIn : string -> string -> SignIn) (form : ProgressStore.FormData)
        (table table' : list User) (user : User) :
  verify newDate signIn form table = (inl user, table') ->
  exists e p sb row,
    text_field form "email" = Some e /\ text_field form "password" = Some p
    /\ signIn e p = {| data_user := Some sb; error := None |}
    /\ updated newDate sb user = Some row
    /\ verify newDate signIn form table' = (inl row, table')
    /\ In row table'
    /\ id row = sb_id sb.
Proof.
  intros Hrun.
  destruct (verify_cases newDate signIn form table)
    as [(f & H) | [(e & p & sb & row & He & Hp & Hs & Hfind & Hcr & Hex & H)
                  | (e & p & sb & u0 & row & He & Hp & Hs & Hfind & Hup & H)]];
    rewrite H in Hrun; [discriminate| |]; injection Hrun as <- <-;
    exists e, p, sb, row.
  - pose proof (updated_created _ _ _ Hcr) as Hsame.
    destruct (created_inv _ _ _ Hcr) as (Hrid & _ & _).
    assert (Hnone : forall r, In r table -> (id r =? sb_id sb) = false).
    { intros r Hr. exact (find_none _ _ Hfind r Hr). }
    split_ands; auto.
    + unfold verify. rewrite He, Hp, Hs; simpl.
      rewrite (find_app_none _ table [row] Hfind). simpl.
      rewrite Hrid, String.eqb_refl, Hsame.
      f_equal. rewrite map_app; simpl.
      rewrite String.eqb_refl. f_equal.
      rewrite <- (map_id table) at 2. apply map_ext_in; intros r Hr.
      rewrite Hrid. now rewrite (Hnone r Hr).
    + apply in_or_app; right; now left.
  - pose proof (updated_idem _ _ _ _ Hup) as Hsame.
    destruct (updated_inv _ _ _ _ Hup) as (Hrid & _ & _).
    pose proof (find_some _ _ Hfind) as [Hin Hk]. apply String.eqb_eq in Hk.
    split_ands; auto.
    + unfold verify. rewrite He, Hp, Hs; simpl.
      rewrite find_map_same_test, Hfind; simpl.
      2:{ intros x. destruct (id x =? id u0) eqn:E; [|reflexivity].
          apply String.eqb_eq in E. now rewrite Hrid, E. }
      rewrite String.eqb_refl, Hsame.
      f_equal. rewrite map_map. apply map_ext; intros r.
      destruct (id r =? id u0) eqn:Hr; rewrite Hrid.
      * now rewrite String.eqb_refl.
      * now rewrite Hr.
    + apply in_map_iff. exists u0. now rewrite String.eqb_refl.
    + congruence.
Qed.

Lemma second_sign_in_is_settled_witness :
  exists e p sb row,
    text_field ada_form "email" = Some e /\ text_field ada_form "password" = Some p
    /\ accepts (ada Null (Text "admin")) e p
       = {| data_user := Some sb; error := None |}
    /\ updated sample_newDate sb ada_row = Some row
    /\ verify sample_newDate (accepts (ada Null (Text "admin"))) ada_form
              (snd (verify sample_newDate (accepts (ada Null (Text "admin")))
                           ada_form [ada_row]))
       = (inl row,
          snd (verify sample_newDate (accepts (ada Null (Text "admin")))
                      ada_form [ada_row]))
    /\ In row (snd (verify sample_newDate (accepts (ada Null (Text "admin")))
                           ada_form [ada_row]))
    /\ id row = sb_id sb.
Proof.
  apply (second_sign_in_is_settled
           sample_newDate (accepts (ada Null (Text "admin"))) ada_form
           [ada_row]
           (snd (verify sample_newDate (accepts (ada Null (Text "admin")))
                        ada_form [ada_row]))
           ada_row).
  reflexivity.
Defined.

End AuthFacts.

(* ================================================================== *)
(** ** Further properties of the progress aggregation *)
(* ================================================================== *)

Section DashboardBounds.

Import Dashboard.

Local Open Scope Q_scope.

Lemma filter_length_all {A : Type} (f : A -> bool) (l : list A) :
  List.length (filter f l) = List.length l <-> forall x, In x l -> f x = true.
Proof.
  induction l as [|a l IH]; simpl; [tauto|].
  pose proof (filter_length A f l) as Hle.
  destruct (f a) eqn:Ha; simpl; split.
  - intros H x [<-|Hx]; [assumption|]. apply IH; [lia | assumption].
  - intros H. f_equal. apply IH. auto.
  - intros H. lia.
  - intros H. rewrite (H a) in Ha by now left. discriminate.
Qed.

Lemma filter_length_none {A : Type} (f : A -> bool) (l : list A) :
  List.length (filter f l) = 0%nat <-> forall x, In x l -> f x = false.
Proof.
  induction l as [|a l IH]; simpl; [tauto|].
  destruct (f a) eqn:Ha; simpl; split.
  - discriminate.
  - intros H. rewrite (H a) in Ha by now left. discriminate.
  - intros H x [<-|Hx]; [assumption|]. now apply IH.
  - intros H. apply IH. auto.
Qed.

Lemma sums_equal_pointwise {A : Type} (f g : A -> nat) (l : list A) :
  (forall x, (f x <= g x)%nat) ->
  (list_sum (map f l) = list_sum (map g l) <-> forall x, In x l -> f x = g x).
Proof.
  intros Hle. induction l as [|a l IH]; simpl; [tauto|].
  assert (Hsum : (list_sum (map f l) <= list_sum (map g l))%nat).
  { clear IH. induction l as [|b l IHl]; simpl; [lia|]. specialize (Hle b). lia. }
  pose proof (Hle a) as Ha. split.
  - intros H x [<-|Hx]; [lia|]. apply IH; [lia | assumption].
  - intros H. rewrite (H a) by now left. f_equal. apply IH. auto.
Qed.

Lemma sum_zero_pointwise {A : Type} (f : A -> nat) (l : list A) :
  list_sum (map f l) = 0%nat <-> forall x, In x l -> f x = 0%nat.
Proof.
  induction l as [|a l IH]; simpl; [tauto|]. split.
  - intros H x [<-|Hx]; [lia|]. apply IH; [lia | assumption].
  - intros H. rewrite (H a) by now left. apply IH. auto.
Qed.

(** X23.  Complete and empty.  When the enrolled courses have at least one
    video (and fewer than 2^53, as any data the loader can hold has), the
    overall percentage is 100 exactly when every video of every enrolled
    course is counted as completed, and 0 exactly when none is. *)
Theorem overall_is_100_iff_all_counted (u : UserWithCourses) :
  (0 < sum_total (courses u))%nat ->
  (Z.of_nat (sum_total (courses u)) <= 2 ^ 53)%Z ->
  (is_num (overallProgress (computeProgress u)) 100
   <-> forall uc vid,
         In uc (courses u) -> In vid (course_videos (course uc)) ->
         counted (progress u) vid = true)
  /\ (is_num (overallProgress (computeProgress u)) 0
      <-> forall uc vid,
            In uc (courses u) -> In vid (course_videos (course uc)) ->
            counted (progress u) vid = false).
Proof.
  intros Hpos Hsmall. rewrite computeProgress_counts; simpl.
  rewrite percentage_positive by assumption. simpl.
  rewrite ratio100_binary64_is_100, ratio100_binary64_is_0
    by (try assumption; apply sum_counted_le_total).
  unfold sum_total.
  rewrite (sums_equal_pointwise
             (fun uc => counted_of (progress u) (course uc))
             (fun uc => total_of (course uc)) (courses u))
    by (intros; apply counted_le_total).
  rewrite sum_zero_pointwise.
  unfold counted_of, total_of.
  split; split.
  - intros H uc vid Huc Hvid.
    exact (proj1 (filter_length_all _ _) (H uc Huc) vid Hvid).
  - intros H uc Huc. apply filter_length_all. eauto.
  - intros H uc vid Huc Hvid.
    exact (proj1 (filter_length_none _ _) (H uc Huc) vid Hvid).
  - intros H uc Huc. apply filter_length_none. eauto.
Qed.

Lemma overall_is_100_iff_all_counted_witness :
  is_num (overallProgress (computeProgress user_60)) 100
  <-> forall uc vid,
        In uc (courses user_60) -> In vid (course_videos (course uc)) ->
        counted (progress user_60) vid = true.
Proof.
  refine (proj1 (overall_is_100_iff_all_counted user_60 _ _)).
  - vm_compute; lia.
  - vm_compute; discriminate.
Defined.






End DashboardBounds.
